(** * vscode-azureappservice: tunnel proxy and remote file system

    A shallow embedding of [src/diagnostics/DebugProxy.ts] (class
    [DebugProxy]) and of the file-system provider that follows it in
    the same source unit (classes [File], [Directory], [AppServiceFS]
    and the function [parseAppServiceUri]).

    - [JsString]  : the string primitives the source calls.
    - [Kudu]      : [kuduFile], the [File] constructor and its path
                    truncation.
    - [Proxy]     : [DebugProxy] as event handlers over an explicit
                    object state, producing a trace of calls made on
                    the sockets, the websocket and the emitter.
    - [Refresh]   : [Directory.refreshEntries] under interleaving of
                    asynchronous callers.
    - [FS]        : [AppServiceFS], one operation at a time, over an
                    object store and an abstract remote host.

    Besides these, [RemoteDebug] embeds the part of the command
    [startRemoteDebug] that uses or updates the application settings,
    in its two versions, and [Explorer] the children of a folder of the
    explorer ([FolderTreeItem.loadMoreChildrenImpl]). *)

From Stdlib Require Import String Ascii ZArith List Lia Bool DecimalString.
From stdpp Require Import base option list gmap strings.
Import ListNotations.

Local Open Scope string_scope.
Local Open Scope Z_scope.

(** ** JavaScript string primitives

    A JavaScript string is a sequence of UTF-16 code units; here a
    [string] is a sequence of 8-bit code units, which is the same on
    the ASCII paths the remote file API returns. *)
Module JsString.

(** [s.startsWith(p)] *)
Fixpoint startsWith (p s : string) : bool :=
  match p, s with
  | EmptyString, _ => true
  | String a p', String b s' => if Ascii.eqb a b then startsWith p' s' else false
  | String _ _, EmptyString => false
  end.

(** [s.indexOf(needle)], searching from position [i] of the original
    string, [s] being what is left of it: the first position at which
    [needle] occurs, [-1] when there is none. *)
Fixpoint indexOf_from (needle s : string) (i : Z) : Z :=
  if startsWith needle s then i
  else match s with
       | EmptyString => -1
       | String _ s' => indexOf_from needle s' (i + 1)
       end.

Definition indexOf (s needle : string) : Z := indexOf_from needle s 0.

Fixpoint drop (n : nat) (s : string) : string :=
  match n, s with
  | O, _ => s
  | S _, EmptyString => EmptyString
  | S n', String _ s' => drop n' s'
  end.

(** [s.substring(start)]: a negative start counts as 0, a start past
    the end gives the empty string. *)
Definition substring (s : string) (start : Z) : string :=
  drop (Z.to_nat (Z.max 0 start)) s.

Definition length (s : string) : Z := Z.of_nat (String.length s).

(** [s.endsWith(p)] *)
Definition endsWith (s p : string) : bool :=
  let n := String.length s in
  let k := String.length p in
  if (k <=? n)%nat then String.eqb (drop (n - k) s) p else false.

(** [s.split(sep)] for a separator of one code unit: [rev_cur] is the
    current piece, reversed. *)
Fixpoint split_go (sep : ascii) (s : string) (rev_cur : list ascii) : list string :=
  match s with
  | EmptyString => [string_of_list_ascii (rev rev_cur)]
  | String c s' =>
      if Ascii.eqb c sep
      then string_of_list_ascii (rev rev_cur) :: split_go sep s' []
      else split_go sep s' (c :: rev_cur)
  end.

Definition split (s : string) (sep : ascii) : list string := split_go sep s [].

(** A string is falsy exactly when it is empty: [!part]. *)
Definition falsy (s : string) : bool :=
  match s with EmptyString => true | _ => false end.

End JsString.

(** ** Listing entries and the [File] constructor *)
Module Kudu.

(** [type kuduFile = { mime, name, path, mtime, crtime, size }] *)
Record kuduFile := {
  mime : string;
  name : string;
  path : string;
  mtime : string;
  crtime : string;
  size : Z
}.

Definition directoryMime : string := "inode/directory".

(** [vscode.FileType] *)
Inductive FileType := FileType_File | FileType_Directory.

(** The fields of [class File implements FileStat]. *)
Record File := {
  f_type : FileType;
  f_ctime : Z;
  f_mtime : Z;
  f_size : Z;
  f_name : string;
  entryPath : string
}.

Definition home : string := "home".

(** [file.path.substring(file.path.indexOf(home) + home.length + 1)] *)
Definition truncateHome (p : string) : string :=
  JsString.substring p (JsString.indexOf p home + JsString.length home + 1).

(** An occurrence of [needle] in [s]: what comes before it and after it. *)
Definition occurs_at (needle s pre post : string) : Prop := s = pre ++ needle ++ post.

Section Constructors.
(** [Date.parse], a function of the host. *)
Variable Date_parse : string -> Z.

(** [new File(file)] *)
Definition new_File (file : kuduFile) : File :=
  {| f_type := FileType_File;
     f_ctime := Date_parse (crtime file);
     f_mtime := Date_parse (mtime file);
     f_size := size file;
     f_name := name file;
     entryPath := truncateHome (path file) |}.

(** The fields of [new Directory(file)]: [super(file)], then
    [this.type = FileType.Directory]. *)
Definition new_Directory (file : kuduFile) : File :=
  let f := new_File file in
  {| f_type := FileType_Directory;
     f_ctime := f_ctime f;
     f_mtime := f_mtime f;
     f_size := f_size f;
     f_name := f_name f;
     entryPath := entryPath f |}.
End Constructors.

End Kudu.


(** ** [Map<string, V>]

    A JavaScript [Map] iterates in insertion order, and setting a key
    that is present keeps its place. *)
Module JsMap.

Definition t (V : Type) := list (string * V).

(** [m.set(k, v)] *)
Fixpoint set {V : Type} (m : t V) (k : string) (v : V) : t V :=
  match m with
  | [] => [(k, v)]
  | (k', v') :: m' =>
      if String.eqb k k' then (k, v) :: m' else (k', v') :: set m' k v
  end.

(** [m.get(k)] *)
Fixpoint get {V : Type} (m : t V) (k : string) : option V :=
  match m with
  | [] => None
  | (k', v') :: m' => if String.eqb k k' then Some v' else get m' k
  end.

End JsMap.


(** ** The tunnel proxy: [class DebugProxy extends EventEmitter]

    The proxy is a set of event handlers over the fields of one
    object.  A handler is a function from the object state to the new
    state and the calls it made, in order, on the sockets, the
    websocket client and connection, the server, the output channel
    and its own emitter. *)
Module Proxy.

Definition Buffer := list Byte.byte.

(** Object identities.  There is one [net.Server] (made by the
    constructor) and one [websocket.client] (made by [startProxy]);
    connections and sockets are numbered in the order in which the
    'connect' and 'connection' events deliver them. *)
Inductive Server := theServer.
Inductive WsClient := theWsClient.
Definition WsConnection := nat.
Definition Socket := nat.

(** [websocket.IMessage]: a text frame has [utf8Data] and a binary
    frame has [binaryData]; the field a message does not have is
    undefined.  The handler reads [binaryData] only. *)
Record IMessage := { utf8Data : option string; binaryData : option Buffer }.

(** What the proxy emits on itself. *)
Inductive Emitted :=
| emit_error (err : string)
| emit_end
| emit_start.

(** Lines appended to the output channel. *)
Inductive Line :=
| line_ws_connected            (* [WebSocket] client connected *)
| line_ws_closed               (* [WebSocket] client closed *)
| line_ws (err : string)       (* [WebSocket] ${err} *)
| line_client_connected (s : Socket)     (* [Proxy Server] client connected addr:port *)
| line_client_disconnected (s : Socket)  (* [Proxy Server] client disconnected addr:port *)
| line_proxy (err : string)    (* [Proxy Server] ${err} *)
| line_listening.              (* [Proxy Server] start listening *)

Inductive Action :=
| appendLine (l : Line)
| emit (e : Emitted)
| socket_write (s : Socket) (data : Buffer)
| socket_write_undefined (s : Socket)   (* [socket.write(undefined)], which throws *)
| socket_destroy (s : Socket)
| connection_send (c : WsConnection) (data : Buffer)
| connection_close (c : WsConnection)
| wsclient_connect (k : WsClient) (url : string) (auth : string)
| wsclient_abort (k : WsClient)
| server_listen (s : Server) (host : string) (port : Z) (backlog : Z)
| server_close (s : Server).

Record DebugProxy := {
  _server : option Server;
  _wsclient : option WsClient;
  _wsconnection : option WsConnection;
  kuduHostName : string;               (* this._client.kuduHostName *)
  _port : Z;
  publishingUserName : string;         (* this._publishCredential.* *)
  publishingPassword : string;
  _keepAlive : bool;
  _openSockets : list Socket
}.

(** The proxy object together with the number of connections and of
    sockets delivered to it so far. *)
Record World := {
  this : DebugProxy;
  connections : nat;
  sockets : nat
}.

Definition set_server (v : option Server) (p : DebugProxy) : DebugProxy :=
  {| _server := v; _wsclient := _wsclient p; _wsconnection := _wsconnection p;
     kuduHostName := kuduHostName p; _port := _port p;
     publishingUserName := publishingUserName p;
     publishingPassword := publishingPassword p;
     _keepAlive := _keepAlive p; _openSockets := _openSockets p |}.

Definition set_wsclient (v : option WsClient) (p : DebugProxy) : DebugProxy :=
  {| _server := _server p; _wsclient := v; _wsconnection := _wsconnection p;
     kuduHostName := kuduHostName p; _port := _port p;
     publishingUserName := publishingUserName p;
     publishingPassword := publishingPassword p;
     _keepAlive := _keepAlive p; _openSockets := _openSockets p |}.

Definition set_wsconnection (v : option WsConnection) (p : DebugProxy) : DebugProxy :=
  {| _server := _server p; _wsclient := _wsclient p; _wsconnection := v;
     kuduHostName := kuduHostName p; _port := _port p;
     publishingUserName := publishingUserName p;
     publishingPassword := publishingPassword p;
     _keepAlive := _keepAlive p; _openSockets := _openSockets p |}.

Definition set_keepAlive (v : bool) (p : DebugProxy) : DebugProxy :=
  {| _server := _server p; _wsclient := _wsclient p; _wsconnection := _wsconnection p;
     kuduHostName := kuduHostName p; _port := _port p;
     publishingUserName := publishingUserName p;
     publishingPassword := publishingPassword p;
     _keepAlive := v; _openSockets := _openSockets p |}.

(** [this._openSockets.push(socket)] *)
Definition push_socket (s : Socket) (p : DebugProxy) : DebugProxy :=
  {| _server := _server p; _wsclient := _wsclient p; _wsconnection := _wsconnection p;
     kuduHostName := kuduHostName p; _port := _port p;
     publishingUserName := publishingUserName p;
     publishingPassword := publishingPassword p;
     _keepAlive := _keepAlive p; _openSockets := (_openSockets p ++ [s])%list |}.

(** Handlers: state in, state and calls out. *)
Definition Eff := World -> World * list Action.

Definition skip : Eff := fun w => (w, []).

Definition call (a : Action) : Eff := fun w => (w, [a]).

Definition seq (e1 e2 : Eff) : Eff :=
  fun w => let '(w1, t1) := e1 w in
           let '(w2, t2) := e2 w1 in
           (w2, (t1 ++ t2)%list).

Declare Scope eff_scope.
Delimit Scope eff_scope with eff.
Bind Scope eff_scope with Eff.
Notation "e1 ;; e2" := (seq e1 e2)
  (at level 100, e2 at level 200, right associativity) : eff_scope.
Local Open Scope eff_scope.

Definition update (f : DebugProxy -> DebugProxy) : Eff :=
  fun w => ({| this := f (this w); connections := connections w; sockets := sockets w |}, []).

Definition read {A : Type} (field : DebugProxy -> A) (k : A -> Eff) : Eff :=
  fun w => k (field (this w)) w.

(** [array.forEach(f)] *)
Fixpoint forEach {A : Type} (l : list A) (f : A -> Eff) : Eff :=
  match l with
  | [] => skip
  | x :: l' => f x ;; forEach l' f
  end.

(** [this._openSockets.forEach(socket => { socket.destroy(); })] *)
Definition destroy_openSockets : Eff :=
  read _openSockets (fun l => forEach l (fun s => call (socket_destroy s))).

(** [this._openSockets.forEach(socket => { socket.write(chunk); })],
    [chunk] being [data.binaryData].  [socket.write(undefined)] throws
    a [TypeError]: the loop ends at the first socket, and the handler
    with it. *)
Definition write_openSockets (chunk : option Buffer) : Eff :=
  read _openSockets (fun l =>
    match chunk with
    | Some data => forEach l (fun socket => call (socket_write socket data))
    | None => forEach (firstn 1 l) (fun socket => call (socket_write_undefined socket))
    end).

(** [constructor(outputChannel, client, port, publishCredential)] *)
Definition constructor (host : string) (port : Z) (user password : string) : World :=
  {| this := {| _server := Some theServer;
                _wsclient := None;
                _wsconnection := None;
                kuduHostName := host;
                _port := port;
                publishingUserName := user;
                publishingPassword := password;
                _keepAlive := true;
                _openSockets := [] |};
     connections := 0;
     sockets := 0 |}.

(** [public dispose(): void] *)
Definition dispose : Eff :=
  read _wsconnection (fun c =>
    match c with
    | Some c => call (connection_close c) ;; update (set_wsconnection None)
    | None => skip
    end) ;;
  read _wsclient (fun k =>
    match k with
    | Some k => call (wsclient_abort k) ;; update (set_wsclient None)
    | None => skip
    end) ;;
  read _server (fun s =>
    match s with
    | Some s => call (server_close s) ;; update (set_server None)
    | None => skip
    end) ;;
  destroy_openSockets ;;
  update (set_keepAlive false).

(** [public async startProxy()]: the handlers it registers are the
    cases of [handle] below. *)
Definition startProxy : Eff :=
  read _server (fun s =>
    match s with
    | None => call (emit (emit_error "Proxy server is not started."))
    | Some srv =>
        update (set_wsclient (Some theWsClient)) ;;
        read id (fun p =>
          call (wsclient_connect theWsClient
                  ("wss://" ++ kuduHostName p ++ "/AppServiceTunnel/Tunnel.ashx")
                  (publishingUserName p ++ ":" ++ publishingPassword p))) ;;
        read _port (fun port => call (server_listen srv "localhost" port 1))
    end).

(** Events delivered to the handlers [startProxy] registered, and
    [dispose] called from outside (the consumer calls it from its own
    'error' listener and when the debug session ends). *)
Inductive Event :=
| wsclient_on_connect
| wsclient_on_connectFailed (err : string)
| connection_on_close (c : WsConnection)
| connection_on_error (c : WsConnection) (err : string)
| connection_on_message (c : WsConnection) (data : IMessage)
| server_on_connection
| server_on_listening
| socket_on_data (s : Socket) (data : Buffer)
| socket_on_end (s : Socket)
| socket_on_error (s : Socket) (err : string)
| call_dispose.

(** A handler exists on a connection or a socket only once the object
    was delivered. *)
Definition guard (b : bool) (e : Eff) : Eff := if b then e else skip.

Definition new_connection : World -> World :=
  fun w => {| this := this w; connections := S (connections w); sockets := sockets w |}.

Definition new_socket : World -> World :=
  fun w => {| this := this w; connections := connections w; sockets := S (sockets w) |}.

Definition handle (ev : Event) : Eff :=
  match ev with
  | wsclient_on_connect => fun w =>
      let connection := connections w in
      (call (appendLine line_ws_connected) ;;
       update (set_wsconnection (Some connection))) (new_connection w)
  | wsclient_on_connectFailed err =>
      call (appendLine (line_ws err)) ;;
      dispose ;;
      destroy_openSockets ;;
      call (emit (emit_error err))
  | connection_on_close c => fun w =>
      guard (c <? connections w)%nat
        (call (appendLine line_ws_closed) ;;
         dispose ;;
         destroy_openSockets ;;
         call (emit emit_end)) w
  | connection_on_error c err => fun w =>
      guard (c <? connections w)%nat
        (call (appendLine (line_ws err)) ;;
         dispose ;;
         destroy_openSockets ;;
         call (emit (emit_error err))) w
  | connection_on_message c data => fun w =>
      guard (c <? connections w)%nat (write_openSockets (binaryData data)) w
  | server_on_connection => fun w =>
      let socket := sockets w in
      (call (appendLine (line_client_connected socket)) ;;
       update (push_socket socket)) (new_socket w)
  | server_on_listening =>
      call (appendLine line_listening) ;;
      call (emit emit_start)
  | socket_on_data s data => fun w =>
      guard (s <? sockets w)%nat
        (read _wsconnection (fun c =>
           match c with
           | Some c => call (connection_send c data)
           | None => skip
           end)) w
  | socket_on_end s => fun w =>
      guard (s <? sockets w)%nat
        (call (appendLine (line_client_disconnected s)) ;;
         dispose ;;
         call (emit emit_end)) w
  | socket_on_error s err => fun w =>
      guard (s <? sockets w)%nat
        (call (appendLine (line_proxy err)) ;;
         dispose ;;
         call (socket_destroy s) ;;
         call (emit (emit_error err))) w
  | call_dispose => dispose
  end.

(** The handlers run one after the other, in the order of the events. *)
Fixpoint run (evs : list Event) : Eff :=
  match evs with
  | [] => skip
  | ev :: evs' => handle ev ;; run evs'
  end.

(** A session: construct, [startProxy], then the events. *)
Definition session (host : string) (port : Z) (user password : string)
    (evs : list Event) : World * list Action :=
  (startProxy ;; run evs) (constructor host port user password).

(** *** Reading a trace *)

Fixpoint count (p : Action -> bool) (t : list Action) : nat :=
  match t with
  | [] => 0%nat
  | a :: t' => if p a then S (count p t') else count p t'
  end.

Definition is_server_close (a : Action) : bool :=
  match a with server_close _ => true | _ => false end.

Definition is_wsclient_abort (a : Action) : bool :=
  match a with wsclient_abort _ => true | _ => false end.

Definition is_connection_close (c : WsConnection) (a : Action) : bool :=
  match a with connection_close c' => (c =? c')%nat | _ => false end.

Definition is_write_to (s : Socket) (a : Action) : bool :=
  match a with socket_write s' _ => (s =? s')%nat | _ => false end.

Definition is_emit_start (a : Action) : bool :=
  match a with emit emit_start => true | _ => false end.

(** The three references [dispose] clears. *)
Definition cleared (p : DebugProxy) : Prop :=
  _server p = None /\ _wsclient p = None /\ _wsconnection p = None.

(** What [dispose] calls, given the fields it reads. *)
Definition dispose_calls (p : DebugProxy) : list Action :=
  ((match _wsconnection p with Some c => [connection_close c] | None => [] end)
   ++ (match _wsclient p with Some k => [wsclient_abort k] | None => [] end)
   ++ (match _server p with Some s => [server_close s] | None => [] end)
   ++ map socket_destroy (_openSockets p))%list.

Definition held {A : Type} (o : option A) : nat :=
  match o with Some _ => 1%nat | None => 0%nat end.

Definition disposed (p : DebugProxy) : DebugProxy :=
  {| _server := None; _wsclient := None; _wsconnection := None;
     kuduHostName := kuduHostName p; _port := _port p;
     publishingUserName := publishingUserName p;
     publishingPassword := publishingPassword p;
     _keepAlive := false; _openSockets := _openSockets p |}.

(** The closing calls of a trace are those of [dispose] or none at all. *)
Inductive Shape (w : World) : World -> list Action -> Prop :=
| shape_quiet w' t :
    _server (this w') = _server (this w) ->
    _wsclient (this w') = _wsclient (this w) ->
    _wsconnection (this w') = _wsconnection (this w) ->
    connections w' = connections w ->
    count is_server_close t = 0%nat ->
    count is_wsclient_abort t = 0%nat ->
    (forall c, count (is_connection_close c) t = 0%nat) ->
    Shape w w' t
| shape_connect w' t :
    _server (this w') = _server (this w) ->
    _wsclient (this w') = _wsclient (this w) ->
    _wsconnection (this w') = Some (connections w) ->
    connections w' = S (connections w) ->
    count is_server_close t = 0%nat ->
    count is_wsclient_abort t = 0%nat ->
    (forall c, count (is_connection_close c) t = 0%nat) ->
    Shape w w' t
| shape_dispose w' t :
    cleared (this w') ->
    connections w' = connections w ->
    count is_server_close t = held (_server (this w)) ->
    count is_wsclient_abort t = held (_wsclient (this w)) ->
    (forall c, count (is_connection_close c) t =
               match _wsconnection (this w) with
               | Some c' => if (c =? c')%nat then 1 else 0
               | None => 0
               end%nat) ->
    Shape w w' t.

(** What holds of a proxy and of the calls made so far. *)
Definition Inv (w : World) (t : list Action) : Prop :=
  (held (_server (this w)) + count is_server_close t <= 1)%nat
  /\ (held (_wsclient (this w)) + count is_wsclient_abort t <= 1)%nat
  /\ (forall c, count (is_connection_close c) t <= 1)%nat
  /\ (forall c, _wsconnection (this w) = Some c ->
                count (is_connection_close c) t = 0%nat /\ (c < connections w)%nat)
  /\ (forall c, (connections w <= c)%nat -> count (is_connection_close c) t = 0%nat).


End Proxy.


(** ** [Directory.refreshEntries] under interleaving

    The program is single-threaded and an asynchronous function gives
    up control at each [await] only.  A [World] holds the fields of
    one [Directory], the promises made by [actuallyRefreshEntries],
    the callers suspended at an [await] of [refreshEntries], and what
    each finished call gave to its caller.  Three things can happen,
    in any order: a caller invokes a method, the reply to a listing
    request arrives, a suspended caller whose promise is settled runs
    on. *)
Module Refresh.
Import Kudu.

Section Interleaving.
Variable Date_parse : string -> Z.
(** What a failed listing request throws. *)
Variable Err : Type.

(** The entries [actuallyRefreshEntries] makes are new objects: a
    [Directory] among them has no [_entries] yet. *)
Inductive Entry :=
| entry_File (f : File)
| entry_Directory (f : File).

(** [Map<string, Entry>] *)
Definition Map := JsMap.t Entry.

(** The loop of [actuallyRefreshEntries] over the parsed body. *)
Definition entries_of (fileList : list kuduFile) : Map :=
  fold_left
    (fun entries file =>
       let entry := if String.eqb (mime file) "inode/directory"
                    then entry_Directory (new_Directory Date_parse file)
                    else entry_File (new_File Date_parse file) in
       JsMap.set entries (name file) entry)
    fileList [].

Inductive Promise :=
| pending
| fulfilled (result : Map)
| rejected (e : Err).

(** The fields of the directory that the three methods read and write. *)
Record Directory := {
  dir_entryPath : string;
  _entries : option Map;
  _refreshingTask : option nat      (* a promise, by its index *)
}.

Inductive Method :=
| m_getEntry (name : string)
| m_getEntries
| m_refreshEntries.

(** A caller suspended inside [refreshEntries]: at
    [await this._refreshingTask] of the first branch ([owner] false)
    or of the second, which made the task ([owner] true). *)
Record Frame := {
  caller : nat;
  method : Method;
  awaits : nat;
  owner : bool
}.

Inductive Value :=
| value_Map (m : Map)
| value_Entry (e : option Entry).

Inductive Outcome :=
| returned (v : Value)
| threw (e : Err).

Record World := {
  dir : Directory;
  promises : list Promise;
  listings : list string;     (* getItemWithHttpOperationResponse(path), in order *)
  frames : list Frame;
  results : list (nat * Method * Outcome)
}.

(** [new Directory(file)]: no entries, no task. *)
Definition init (entryPath : string) : World :=
  {| dir := {| dir_entryPath := entryPath; _entries := None; _refreshingTask := None |};
     promises := []; listings := []; frames := []; results := [] |}.

(** What the method returns once it holds the entries:
    [entries.get(name)] for [getEntry], the map itself otherwise. *)
Definition finish (m : Method) (entries : Map) : Value :=
  match m with
  | m_getEntry name => value_Entry (JsMap.get entries name)
  | m_getEntries | m_refreshEntries => value_Map entries
  end.

(** [refreshEntries] up to its [await].  In the second branch
    [actuallyRefreshEntries] runs up to its own [await]: the listing
    request is issued and the promise of its result stored. *)
Definition refreshEntries (c : nat) (m : Method) (w : World) : World :=
  match _refreshingTask (dir w) with
  | Some task =>
      {| dir := dir w; promises := promises w; listings := listings w;
         frames := frames w ++ [{| caller := c; method := m; awaits := task; owner := false |}];
         results := results w |}
  | None =>
      let task := List.length (promises w) in
      {| dir := {| dir_entryPath := dir_entryPath (dir w);
                   _entries := _entries (dir w);
                   _refreshingTask := Some task |};
         promises := promises w ++ [pending];
         listings := listings w ++ [dir_entryPath (dir w)];
         frames := frames w ++ [{| caller := c; method := m; awaits := task; owner := true |}];
         results := results w |}
  end.

(** A call of [getEntry], [getEntries] or [refreshEntries]. *)
Definition invoke (c : nat) (m : Method) (w : World) : World :=
  match m with
  | m_refreshEntries => refreshEntries c m w
  | m_getEntry _ | m_getEntries =>
      match _entries (dir w) with
      | Some entries =>
          {| dir := dir w; promises := promises w; listings := listings w;
             frames := frames w;
             results := results w ++ [(c, m, returned (finish m entries))] |}
      | None => refreshEntries c m w
      end
  end.

(** The reply to the listing request of [task] arrives and
    [actuallyRefreshEntries] runs to its end: its promise is settled. *)
Definition respond (task : nat) (reply : Err + list kuduFile) (w : World) : World :=
  match promises w !! task with
  | Some pending =>
      let settled := match reply with
                     | inl e => rejected e
                     | inr fileList => fulfilled (entries_of fileList)
                     end in
      {| dir := dir w; promises := <[task := settled]> (promises w);
         listings := listings w; frames := frames w; results := results w |}
  | _ => w
  end.

(** The [i]-th suspended caller runs on, if its promise is settled.
    The owner stores the result (on success) and clears the task
    ([finally]); the others only return or rethrow. *)
Definition resume (i : nat) (w : World) : World :=
  match frames w !! i with
  | None => w
  | Some fr =>
      match promises w !! awaits fr with
      | Some (fulfilled result) =>
          {| dir := if owner fr
                    then {| dir_entryPath := dir_entryPath (dir w);
                            _entries := Some result;
                            _refreshingTask := None |}
                    else dir w;
             promises := promises w; listings := listings w;
             frames := delete i (frames w);
             results := results w ++ [(caller fr, method fr, returned (finish (method fr) result))] |}
      | Some (rejected e) =>
          {| dir := if owner fr
                    then {| dir_entryPath := dir_entryPath (dir w);
                            _entries := _entries (dir w);
                            _refreshingTask := None |}
                    else dir w;
             promises := promises w; listings := listings w;
             frames := delete i (frames w);
             results := results w ++ [(caller fr, method fr, threw e)] |}
      | _ => w
      end
  end.

Inductive Event :=
| ev_call (c : nat) (m : Method)
| ev_reply (task : nat) (reply : Err + list kuduFile)
| ev_resume (i : nat).

Definition step (w : World) (ev : Event) : World :=
  match ev with
  | ev_call c m => invoke c m w
  | ev_reply task reply => respond task reply w
  | ev_resume i => resume i w
  end.

Definition run (evs : list Event) (w : World) : World := fold_left step evs w.

(** The calls [readDirectory] and [stat] make on a directory:
    [getEntries] and, through [lookup], [getEntry]. *)
Definition is_read (ev : Event) : bool :=
  match ev with
  | ev_call _ m_refreshEntries => false
  | _ => true
  end.

Definition is_failure (ev : Event) : bool :=
  match ev with
  | ev_reply _ (inl _) => true
  | _ => false
  end.

Definition is_call (ev : Event) : bool :=
  match ev with
  | ev_call _ _ => true
  | _ => false
  end.

(** [n] callers, numbered from [c], call [getEntries] one after the other. *)
Fixpoint calls (c n : nat) : list Event :=
  match n with
  | O => []
  | S n' => ev_call c m_getEntries :: calls (S c) n'
  end.

(** The number of suspended callers that made the task they wait for. *)
Fixpoint owners (fs : list Frame) : nat :=
  match fs with
  | [] => 0%nat
  | fr :: fs' => ((if owner fr then 1 else 0) + owners fs')%nat
  end.

Definition held (task : option nat) : nat :=
  match task with Some _ => 1%nat | None => 0%nat end.

(** Every finished call returned its view of the one map [entries]. *)
Definition agree (entries : Map) (rs : list (nat * Method * Outcome)) : Prop :=
  Forall (fun r => snd r = returned (finish (snd (fst r)) entries)) rs.

(** Holds in every world: the task is set exactly while its owner is
    suspended. *)
Definition task_has_owner (w : World) : Prop :=
  owners (frames w) = held (_refreshingTask (dir w)).

(** Holds as long as only [getEntry] and [getEntries] are called and no
    reply is a failure: nothing happened yet, or the one refresh is
    under way, or it is over and its result is stored. *)
Definition one_refresh (entryPath : string) (w : World) : Prop :=
  dir_entryPath (dir w) = entryPath
  /\ match promises w with
     | [] =>
         listings w = [] /\ frames w = [] /\ results w = []
         /\ _entries (dir w) = None /\ _refreshingTask (dir w) = None
     | [pending] =>
         listings w = [entryPath] /\ Forall (fun fr => awaits fr = 0%nat) (frames w)
         /\ results w = []
         /\ _entries (dir w) = None /\ _refreshingTask (dir w) = Some 0%nat
     | [fulfilled entries] =>
         listings w = [entryPath] /\ Forall (fun fr => awaits fr = 0%nat) (frames w)
         /\ agree entries (results w)
         /\ ((_entries (dir w) = None /\ _refreshingTask (dir w) = Some 0%nat)
             \/ (_entries (dir w) = Some entries /\ _refreshingTask (dir w) = None))
     | _ => False
     end.

(** A caller of [getEntries] suspended on a task it did not make. *)
Definition waiter (task c : nat) : Frame :=
  {| caller := c; method := m_getEntries; awaits := task; owner := false |}.

(** The directory once the owner of a refresh has stored its result. *)
Definition stored (path : string) (entries : Map) : Directory :=
  {| dir_entryPath := path; _entries := Some entries; _refreshingTask := None |}.

End Interleaving.

Arguments pending {Err}.
Arguments fulfilled {Err} result.
Arguments rejected {Err} e.
Arguments returned {Err} v.
Arguments threw {Err} e.
Arguments dir {Err} w.
Arguments promises {Err} w.
Arguments listings {Err} w.
Arguments frames {Err} w.
Arguments results {Err} w.
Arguments init {Err} entryPath.
Arguments refreshEntries {Err} c m w.
Arguments invoke {Err} c m w.
Arguments resume {Err} i w.
Arguments ev_call {Err} c m.
Arguments ev_reply {Err} task reply.
Arguments ev_resume {Err} i.
Arguments is_read {Err} ev.
Arguments is_failure {Err} ev.
Arguments is_call {Err} ev.
Arguments calls {Err} c n.
Arguments agree {Err} entries rs.
Arguments task_has_owner {Err} w.
Arguments one_refresh {Err} entryPath w.

End Refresh.


(** ** The regular expression of [parseAppServiceUri]

    The pattern has two groups.  The first is [/subscriptions/],
    one or more characters other than a slash, [/resourceGroups/], one
    or more such characters, [/providers/Microsoft.Web/sites/] and one
    or more such characters; a slash follows it; the second group is
    any number of characters other than line terminators.

    Each run of non-slash characters is followed by a literal that
    starts with a slash, so the only way it can match is on the whole
    run up to the next slash; the second group runs to the end of the
    line.  [String.match] reports the leftmost match. *)
Module UriPattern.

Definition slash : ascii := "/"%char.

(** The rest of [s] after the literal [lit], when [s] starts with it. *)
Fixpoint literal (lit s : string) : option string :=
  match lit with
  | EmptyString => Some s
  | String a lit' =>
      match s with
      | String b s' => if Ascii.eqb a b then literal lit' s' else None
      | EmptyString => None
      end
  end.

(** The longest prefix of [s] without a slash, and what follows it. *)
Fixpoint run_of_non_slash (s : string) : string * string :=
  match s with
  | EmptyString => (EmptyString, EmptyString)
  | String c s' =>
      if Ascii.eqb c slash then (EmptyString, s)
      else let '(seg, rest) := run_of_non_slash s' in (String c seg, rest)
  end.

(** One or more characters other than a slash. *)
Definition segment (s : string) : option (string * string) :=
  let '(seg, rest) := run_of_non_slash s in
  if JsString.falsy seg then None else Some (seg, rest).

Definition is_line_terminator (c : ascii) : bool :=
  Ascii.eqb c "010"%char || Ascii.eqb c "013"%char.

(** Any number of characters other than line terminators. *)
Fixpoint to_end_of_line (s : string) : string :=
  match s with
  | EmptyString => EmptyString
  | String c s' =>
      if is_line_terminator c then EmptyString else String c (to_end_of_line s')
  end.

(** A match that starts at the first character of [s]: the two groups. *)
Definition match_here (s : string) : option (string * string) :=
  match literal "/subscriptions/" s with
  | None => None
  | Some s1 =>
  match segment s1 with
  | None => None
  | Some (subscription, s2) =>
  match literal "/resourceGroups/" s2 with
  | None => None
  | Some s3 =>
  match segment s3 with
  | None => None
  | Some (group, s4) =>
  match literal "/providers/Microsoft.Web/sites/" s4 with
  | None => None
  | Some s5 =>
  match segment s5 with
  | None => None
  | Some (site, s6) =>
  match literal "/" s6 with
  | None => None
  | Some s7 =>
      Some ("/subscriptions/" ++ subscription ++ "/resourceGroups/" ++ group
              ++ "/providers/Microsoft.Web/sites/" ++ site,
            to_end_of_line s7)
  end end end end end end end.

(** [uri.path.match(...)]: [None] is [null], otherwise
    [(matches[1], matches[2])]. *)
Fixpoint matches (s : string) : option (string * string) :=
  match match_here s with
  | Some groups => Some groups
  | None =>
      match s with
      | EmptyString => None
      | String _ s' => matches s'
      end
  end.

End UriPattern.


(** ** The file-system provider: [class AppServiceFS]

    One operation runs from its call to its return with no other
    operation in between, so that every [await] is a plain call.  By
    the study of [Refresh], [_refreshingTask] is undefined whenever no
    call is suspended on the directory; [refreshEntries] therefore
    always takes its second branch here and the field is left out of
    the objects.

    [File] and [Directory] objects live in a store and are named by
    their index in it: the maps of children and the table of roots
    hold references, as in the source. *)
Module FS.
Import Kudu.

Definition Buffer := list Byte.byte.

(** [vscode.Uri]; only [uri.path] is read. *)
Record Uri := { uri_path : string }.

(** [IFileResult] *)
Record IFileResult := { data : string; etag : string }.

(** The collaborators: the tree of the explorer, the site and Kudu
    clients of the remote host, and the functions of the platform.
    [Remote] is the state they share; a call may change it and either
    returns or throws a [Failure]. *)
Record Host := {
  Remote : Type;
  Failure : Type;
  SiteClient : Type;
  KuduClient : Type;
  (** [siteClient.id] *)
  site_id : SiteClient -> string;
  (** [ext.tree.findNode(siteId)], then [node.treeItem.client] *)
  findNode : string -> Remote -> (Failure + option SiteClient) * Remote;
  getKuduClient : SiteClient -> Remote -> (Failure + KuduClient) * Remote;
  (** [kuduClient.vfs.getItemWithHttpOperationResponse(path)], then
      [JSON.parse] of the body of the response *)
  getItem : KuduClient -> string -> Remote -> (Failure + list kuduFile) * Remote;
  getFile : SiteClient -> string -> Remote -> (Failure + IFileResult) * Remote;
  (** [putFile(siteClient, data, filePath, etag?)], giving the new tag *)
  putFile : SiteClient -> string -> string -> option string -> Remote
            -> (Failure + string) * Remote;
  (** [kuduClient.vfs.deleteItem(path, { recursive, customHeaders: { 'If-Match': etag } })] *)
  deleteItem : KuduClient -> string -> bool -> string -> Remote
               -> (Failure + unit) * Remote;
  Date_parse : string -> Z;
  (** [new Date().toString()] *)
  Date_now : string;
  (** [path.dirname] *)
  dirname : string -> string;
  (** [content.toString()] *)
  content_toString : Buffer -> string;
  Buffer_from : string -> Buffer
}.

(** The calls made on the collaborators. *)
Inductive Call :=
| call_findNode (siteId : string)
| call_getKuduClient (site : string)
| call_getItem (path : string)
| call_getFile (site : string) (path : string)
| call_putFile (site : string) (content : string) (path : string) (etag : option string)
| call_deleteItem (path : string) (recursive : bool) (etag : string).

(** What an operation does that can be seen from outside it: the
    calls on the collaborators, with whether they returned, and the
    assignments [this._entries = result] to a directory, with what
    the field held before. *)
Inductive Effect :=
| called (c : Call) (ok : bool)
| entries_assigned (directory : nat) (before : option (JsMap.t nat)).

(** An object of class [File] or of its subclass [Directory]. *)
Inductive Entry :=
| obj_File (f : File)
| obj_Directory (f : File) (_entries : option (JsMap.t nat)).

Definition fields (e : Entry) : File :=
  match e with
  | obj_File f => f
  | obj_Directory f _ => f
  end.

(** The argument of a [FileSystemError]: the [uri] of the operation, or
    [Uri.parse(text)]. *)
Inductive UriArg :=
| the_uri (u : Uri)
| Uri_parse (text : string).

Section Provider.
Variable H : Host.

Inductive Error :=
| FileNotFound (u : UriArg)
| FileNotADirectory (u : UriArg)
| NoPermissions (message : string)
| Unavailable (u : UriArg)
| JsError (message : string)          (* [new Error(message)], [TypeError] *)
| Thrown (e : Failure H).             (* thrown by a collaborator *)

(** The provider, the objects it made, the remote host and what was
    done so far. *)
Record World := {
  _readonly : bool;
  _etags : gmap string string;
  _roots : gmap string nat;
  heap : list Entry;
  remote : Remote H;
  trace : list Effect
}.

(** [new AppServiceFS(readonly)] *)
Definition constructor (readonly : bool) (r : Remote H) : World :=
  {| _readonly := readonly; _etags := ∅; _roots := ∅; heap := []; remote := r; trace := [] |}.

Definition _readonlyError : Error := NoPermissions "Cannot modify in read-only mode.".

(** A computation either returns or throws, and changes the world. *)
Definition M (A : Type) : Type := World -> (Error + A) * World.

Definition ret {A : Type} (a : A) : M A := fun w => (inr a, w).

Definition throw {A : Type} (e : Error) : M A := fun w => (inl e, w).

Definition bind {A B : Type} (m : M A) (k : A -> M B) : M B :=
  fun w => match m w with
           | (inl e, w') => (inl e, w')
           | (inr a, w') => k a w'
           end.

Definition get {A : Type} (field : World -> A) : M A := fun w => (inr (field w), w).

Definition with_etags (f : gmap string string -> gmap string string) : M unit :=
  fun w => (inr tt,
            {| _readonly := _readonly w; _etags := f (_etags w); _roots := _roots w;
               heap := heap w; remote := remote w; trace := trace w |}).

Definition with_roots (f : gmap string nat -> gmap string nat) : M unit :=
  fun w => (inr tt,
            {| _readonly := _readonly w; _etags := _etags w; _roots := f (_roots w);
               heap := heap w; remote := remote w; trace := trace w |}).

Definition with_heap (f : list Entry -> list Entry) : M unit :=
  fun w => (inr tt,
            {| _readonly := _readonly w; _etags := _etags w; _roots := _roots w;
               heap := f (heap w); remote := remote w; trace := trace w |}).

Definition record (e : Effect) : M unit :=
  fun w => (inr tt,
            {| _readonly := _readonly w; _etags := _etags w; _roots := _roots w;
               heap := heap w; remote := remote w; trace := trace w ++ [e] |}).

(** [await f(...)] on a collaborator. *)
Definition await {A : Type} (c : Call) (f : Remote H -> (Failure H + A) * Remote H) : M A :=
  fun w =>
    let '(r, remote') := f (remote w) in
    let w' := {| _readonly := _readonly w; _etags := _etags w; _roots := _roots w;
                 heap := heap w; remote := remote';
                 trace := trace w ++ [called c (match r with inl _ => false | inr _ => true end)] |} in
    match r with
    | inl e => (inl (Thrown e), w')
    | inr a => (inr a, w')
    end.

(** [new C(...)]: the object is stored and its reference returned. *)
Definition new (e : Entry) : M nat :=
  fun w => (inr (List.length (heap w)),
            {| _readonly := _readonly w; _etags := _etags w; _roots := _roots w;
               heap := heap w ++ [e]; remote := remote w; trace := trace w |}).

Declare Scope fs_scope.
Delimit Scope fs_scope with fs.
Notation "x <- m ;; k" := (bind m (fun x => k))
  (at level 100, m at next level, k at level 200, right associativity) : fs_scope.
Local Open Scope fs_scope.

(** [async function parseAppServiceUri(uri)].  A match always has its
    two groups, so [matches.length < 3] never holds. *)
Definition parseAppServiceUri (uri : Uri) : M (SiteClient H * string) :=
  match UriPattern.matches (uri_path uri) with
  | None => throw (FileNotFound (the_uri uri))
  | Some (siteId, entryPath) =>
      node <- await (call_findNode siteId) (findNode H siteId) ;;
      match node with
      | Some client => ret (client, entryPath)
      | None => throw (Unavailable (the_uri uri))
      end
  end.

(** The loop of [actuallyRefreshEntries]: one new object per listed
    file, set in the map under its name. *)
Fixpoint collect (fileList : list kuduFile) (entries : JsMap.t nat) : M (JsMap.t nat) :=
  match fileList with
  | [] => ret entries
  | file :: fileList' =>
      entry <- (if String.eqb (mime file) "inode/directory"
                then new (obj_Directory (new_Directory (Date_parse H) file) None)
                else new (obj_File (new_File (Date_parse H) file))) ;;
      collect fileList' (JsMap.set entries (name file) entry)
  end.

(** [Directory.actuallyRefreshEntries(kuduClient)], [this] being the
    directory object [d] with fields [f]. *)
Definition actuallyRefreshEntries (kuduClient : KuduClient H) (f : File) : M (JsMap.t nat) :=
  fileList <- await (call_getItem (entryPath f)) (getItem H kuduClient (entryPath f)) ;;
  collect fileList [].

(** [Directory.refreshEntries(kuduClient)] when [_refreshingTask] is
    undefined, as it is whenever the operations of the provider run
    one at a time: the method sets the task, awaits it, stores the
    result and clears the task before it returns.  The first branch,
    [return await this._refreshingTask], is taken only while the
    refresh of an operation that overlaps this one is in flight; it is
    in [Refresh.refreshEntries], which has both.  A value that is not
    a [Directory] has no such method. *)
Definition refreshEntries (kuduClient : KuduClient H) (d : nat) : M (JsMap.t nat) :=
  store <- get heap ;;
  match store !! d with
  | Some (obj_Directory f before) =>
      result <- actuallyRefreshEntries kuduClient f ;;
      _ <- with_heap (fun h => <[d := obj_Directory f (Some result)]> h) ;;
      _ <- record (entries_assigned d before) ;;
      ret result
  | _ => throw (JsError "TypeError: parent.refreshEntries is not a function")
  end.

(** [this._entries] *)
Definition entries_of_object (store : list Entry) (d : nat) : option (JsMap.t nat) :=
  match store !! d with
  | Some (obj_Directory _ entries) => entries
  | _ => None
  end.

(** [Directory.getEntry(kuduClient, name)] *)
Definition getEntry (kuduClient : KuduClient H) (d : nat) (name : string) : M (option nat) :=
  store <- get heap ;;
  entries <- match entries_of_object store d with
             | Some entries => ret entries
             | None => refreshEntries kuduClient d
             end ;;
  ret (JsMap.get entries name).

(** [Directory.getEntries(kuduClient)] *)
Definition getEntries (kuduClient : KuduClient H) (d : nat) : M (JsMap.t nat) :=
  store <- get heap ;;
  entries <- match entries_of_object store d with
             | Some entries => ret entries
             | None => refreshEntries kuduClient d
             end ;;
  ret entries.

(** [entry instanceof Directory] *)
Definition instanceof_Directory (store : list Entry) (entry : nat) : bool :=
  match store !! entry with
  | Some (obj_Directory _ _) => true
  | _ => false
  end.

(** [entry.entryPath] and [entry.type]; every reference held by the
    provider is in the store. *)
Definition entryPath_of (store : list Entry) (entry : nat) : string :=
  match store !! entry with
  | Some e => entryPath (fields e)
  | None => ""
  end.

Definition type_of (store : list Entry) (entry : nat) : FileType :=
  match store !! entry with
  | Some e => f_type (fields e)
  | None => FileType_File
  end.

(** The loop of [lookup] over the parts of the path. *)
Fixpoint walk (kuduClient : KuduClient H) (siteId : string) (parts : list string)
    (entry : nat) : M nat :=
  match parts with
  | [] => ret entry
  | part :: parts' =>
      if JsString.falsy part then walk kuduClient siteId parts' entry
      else
        store <- get heap ;;
        child <- (if instanceof_Directory store entry
                  then getEntry kuduClient entry part
                  else ret None) ;;
        match child with
        | None =>
            throw (FileNotFound
                     (Uri_parse ("appService:/" ++ siteId ++ "/"
                                   ++ entryPath_of store entry ++ "/" ++ part)))
        | Some c => walk kuduClient siteId parts' c
        end
  end.

(** [private async lookup(siteClient, entryPath)] *)
Definition lookup (siteClient : SiteClient H) (entryPath : string) : M nat :=
  let siteId := site_id H siteClient in
  kuduClient <- await (call_getKuduClient siteId) (getKuduClient H siteClient) ;;
  roots <- get _roots ;;
  root <- match roots !! siteId with
          | Some root => ret root
          | None =>
              root <- new (obj_Directory
                             (new_Directory (Date_parse H)
                                {| name := "root"; size := 0; mtime := Date_now H;
                                   crtime := Date_now H; mime := directoryMime;
                                   path := "" |})
                             None) ;;
              _ <- with_roots (fun r => <[siteId := root]> r) ;;
              ret root
          end ;;
  walk kuduClient siteId (JsString.split entryPath UriPattern.slash) root.

(** [public async readDirectory(uri)] *)
Definition readDirectory (uri : Uri) : M (list (string * FileType)) :=
  parsed <- parseAppServiceUri uri ;;
  let '(siteClient, entryPath) := parsed in
  entry <- lookup siteClient entryPath ;;
  store <- get heap ;;
  if instanceof_Directory store entry then
    kuduClient <- await (call_getKuduClient (site_id H siteClient)) (getKuduClient H siteClient) ;;
    entries <- getEntries kuduClient entry ;;
    store' <- get heap ;;
    ret (map (fun child => (fst child, type_of store' (snd child))) entries)
  else throw (FileNotADirectory (the_uri uri)).

(** [public async stat(uri)] *)
Definition stat (uri : Uri) : M nat :=
  parsed <- parseAppServiceUri uri ;;
  let '(siteClient, entryPath) := parsed in
  lookup siteClient entryPath.

(** The end of the three operations that change the remote host:
    [parent = await this.lookup(siteClient, path.dirname(entryPath))],
    then [await parent.refreshEntries(await getKuduClient(siteClient))]. *)
Definition refresh_parent (siteClient : SiteClient H) (entryPath : string) : M unit :=
  parent <- lookup siteClient (dirname H entryPath) ;;
  kuduClient <- await (call_getKuduClient (site_id H siteClient)) (getKuduClient H siteClient) ;;
  _ <- refreshEntries kuduClient parent ;;
  ret tt.

(** [public async createDirectory(uri)] *)
Definition createDirectory (uri : Uri) : M unit :=
  readonly <- get _readonly ;;
  if (readonly : bool) then throw _readonlyError
  else
    parsed <- parseAppServiceUri uri ;;
  let '(siteClient, entryPath) := parsed in
    let target := if JsString.endsWith entryPath "/" then entryPath else entryPath ++ "/" in
    _ <- await (call_putFile (site_id H siteClient) "" target None)
               (putFile H siteClient "" target None) ;;
    refresh_parent siteClient entryPath.

(** [public async readFile(uri)] *)
Definition readFile (uri : Uri) : M Buffer :=
  parsed <- parseAppServiceUri uri ;;
  let '(siteClient, entryPath) := parsed in
  result <- await (call_getFile (site_id H siteClient) entryPath)
                  (getFile H siteClient entryPath) ;;
  _ <- with_etags (fun t => <[uri_path uri := etag result]> t) ;;
  ret (Buffer_from H (data result)).

(** [public async writeFile(uri, content, _options)] *)
Definition writeFile (uri : Uri) (content : Buffer) (_options : bool * bool) : M unit :=
  readonly <- get _readonly ;;
  if (readonly : bool) then throw _readonlyError
  else
    parsed <- parseAppServiceUri uri ;;
  let '(siteClient, entryPath) := parsed in
    etags <- get _etags ;;
    let known := etags !! uri_path uri in
    etag <- await (call_putFile (site_id H siteClient) (content_toString H content)
                     entryPath known)
                  (putFile H siteClient (content_toString H content) entryPath known) ;;
    _ <- with_etags (fun t => <[uri_path uri := etag]> t) ;;
    refresh_parent siteClient entryPath.

(** [public async delete(uri, options)], [recursive] being
    [options.recursive] *)
Definition delete (uri : Uri) (recursive : bool) : M unit :=
  readonly <- get _readonly ;;
  if (readonly : bool) then throw _readonlyError
  else
    parsed <- parseAppServiceUri uri ;;
  let '(siteClient, entryPath) := parsed in
    entry <- lookup siteClient entryPath ;;
    store <- get heap ;;
    etag <- match type_of store entry with
            | FileType_File =>
                result <- await (call_getFile (site_id H siteClient) entryPath)
                                (getFile H siteClient entryPath) ;;
                ret (etag result)
            | FileType_Directory => ret ""
            end ;;
    kuduClient <- await (call_getKuduClient (site_id H siteClient)) (getKuduClient H siteClient) ;;
    _ <- await (call_deleteItem entryPath recursive etag)
               (deleteItem H kuduClient entryPath recursive etag) ;;
    refresh_parent siteClient entryPath.

(** [public async rename(oldUri, newUri, options)] *)
Definition rename (oldUri newUri : Uri) (overwrite : bool) : M unit :=
  readonly <- get _readonly ;;
  if (readonly : bool) then throw _readonlyError
  else throw (JsError "Method not implemented.").

(** *** Reading the effects of an operation *)

(** The world after [ext.tree.findNode(siteId)] returned. *)
Definition after_findNode (w : World) (siteId : string) (remote' : Remote H) : World :=
  {| _readonly := _readonly w; _etags := _etags w; _roots := _roots w;
     heap := heap w; remote := remote';
     trace := (trace w ++ [called (call_findNode siteId) true])%list |}.

(** The error an operation ended with, if any. *)
Definition failure {A : Type} (r : (Error + A) * World) : option (Error) :=
  match fst r with inl e => Some e | inr _ => None end.

(** The operations that resolve their address; those that write get
    that far when the provider is not read-only. *)
Definition resolving (w : World) (uri : Uri) (content : Buffer)
    (options : bool * bool) (recursive : bool) : list (option (Error)) :=
  ([failure (stat uri w); failure (readDirectory uri w); failure (readFile uri w)]
   ++ (if _readonly w then []
       else [failure (writeFile uri content options w);
             failure (createDirectory uri w);
             failure (delete uri recursive w)]))%list.

Definition is_mutation (c : Call) : bool :=
  match c with
  | call_putFile _ _ _ _ | call_deleteItem _ _ _ => true
  | _ => false
  end.

(** A call that changed the remote host went through. *)
Definition is_success (e : Effect) : bool :=
  match e with
  | called c ok => is_mutation c && ok
  | entries_assigned _ _ => false
  end.

Definition mutated (t : list Effect) : bool := existsb is_success t.

(** Neither a call that changes the remote host nor the replacement of
    the children a directory had. *)
Definition quiet (e : Effect) : bool :=
  match e with
  | called c _ => negb (is_mutation c)
  | entries_assigned _ None => true
  | entries_assigned _ (Some _) => false
  end.

(** Reading a trace from the left: the children a directory had are
    replaced only when a call that changes the remote host has gone
    through before ([armed]). *)
Fixpoint check (armed : bool) (t : list Effect) : bool :=
  match t with
  | [] => true
  | called c ok :: t' => check (armed || (is_mutation c && ok)) t'
  | entries_assigned _ None :: t' => check armed t'
  | entries_assigned _ (Some _) :: t' => armed && check armed t'
  end.

(** A listing request, or an assignment to the entries of a directory. *)
Definition is_refresh (e : Effect) : bool :=
  match e with
  | called (call_getItem _) _ => true
  | called _ _ => false
  | entries_assigned _ _ => true
  end.

(** Reading a trace from the left: nothing is listed or assigned
    before a call that changes the remote host has gone through. *)
Fixpoint check_strict (armed : bool) (t : list Effect) : bool :=
  match t with
  | [] => true
  | e :: t' => (armed || negb (is_refresh e)) && check_strict (armed || is_success e) t'
  end.

(** Every directory that had children in [h] has the same in [h']. *)
Definition keeps_cached (h h' : list Entry) : Prop :=
  forall d f entries,
    h !! d = Some (obj_Directory f (Some entries)) ->
    h' !! d = Some (obj_Directory f (Some entries)).

(** From [w] to [w'] by quiet effects [t]. *)
Definition Tame (w w' : World) (t : list Effect) : Prop :=
  trace w' = (trace w ++ t)%list
  /\ forallb quiet t = true
  /\ keeps_cached (heap w) (heap w')
  /\ _etags w' = _etags w
  /\ _readonly w' = _readonly w.

Definition tame {A : Type} (m : M A) : Prop :=
  forall w, exists t, Tame w (snd (m w)) t.

Definition extends {A : Type} (m : M A) : Prop :=
  forall w, exists t, trace (snd (m w)) = (trace w ++ t)%list.

(** From [w] to [w'] by effects [t] that pass [check], the children of
    directories being kept as long as no change went through. *)
Definition Guarded (w w' : World) (t : list Effect) : Prop :=
  trace w' = (trace w ++ t)%list
  /\ check false t = true
  /\ (mutated t = false -> keeps_cached (heap w) (heap w')).

Definition guarded {A : Type} (m : M A) : Prop :=
  forall w, exists t, Guarded w (snd (m w)) t.

(** [w'] is [w] once [kuduClient] has listed the directory [d] and the
    result is stored in it: the listing is requested in [w], and the
    assignment [this._entries = result] is the last thing done. *)
Definition listed_and_stored (kuduClient : KuduClient H) (d : nat) (w w' : World) : Prop :=
  exists f before result w1,
    heap w !! d = Some (obj_Directory f before)
    /\ actuallyRefreshEntries kuduClient f w = (inr result, w1)
    /\ w' = {| _readonly := _readonly w1; _etags := _etags w1; _roots := _roots w1;
               heap := <[d := obj_Directory f (Some result)]> (heap w1);
               remote := remote w1;
               trace := (trace w1 ++ [entries_assigned d before])%list |}.

(** How the run [r] of an operation on [uri] from [w] went: a call
    [c] that changes the remote host went through, which led to [w0];
    from there the directory of the entry was looked up; and then it
    was listed and its listing stored, with which the run ended. *)
Definition refreshed_after_mutation (uri : Uri) (w : World) (r : (Error + unit) * World)
    : Prop :=
  exists siteId entryPath siteClient c t0 w0 parent w1 kuduClient remote2,
    UriPattern.matches (uri_path uri) = Some (siteId, entryPath)
    /\ is_mutation c = true
    /\ trace w0 = (trace w ++ t0 ++ [called c true])%list
    /\ lookup siteClient (dirname H entryPath) w0 = (inr parent, w1)
    /\ getKuduClient H siteClient (remote w1) = (inr kuduClient, remote2)
    /\ listed_and_stored kuduClient parent
         {| _readonly := _readonly w1; _etags := _etags w1; _roots := _roots w1;
            heap := heap w1; remote := remote2;
            trace := (trace w1 ++ [called (call_getKuduClient (site_id H siteClient)) true])%list |}
         (snd r).

End Provider.

Arguments after_findNode {H} w siteId remote'.
Arguments failure {H A} r.
Arguments resolving {H} w uri content options recursive.
Arguments Tame {H} w w' t.
Arguments tame {H A} m.
Arguments extends {H A} m.
Arguments Guarded {H} w w' t.
Arguments guarded {H A} m.
Arguments listed_and_stored {H} kuduClient d w w'.
Arguments refreshed_after_mutation {H} uri w r.

End FS.


(** ** A small remote host

    One site with the tree [site/app.js] under its home directory; the
    state of the host is the version tag of each of its files.  A write
    or a delete that carries a tag other than the current one is
    refused, as the remote file API does. *)
Module Demo.
Import Kudu FS.

Definition siteId : string :=
  "/subscriptions/sub/resourceGroups/group/providers/Microsoft.Web/sites/app".

Definition stale : string := "412 (Precondition Failed)".

Definition listing (path : string) : list kuduFile :=
  if String.eqb path "" then
    [{| mime := "inode/directory"; name := "site"; path := "/home/site";
        mtime := "2018-07-01"; crtime := "2018-07-01"; size := 0 |}]
  else if String.eqb path "site" then
    [{| mime := "application/javascript"; name := "app.js"; path := "/home/site/app.js";
        mtime := "2018-07-02"; crtime := "2018-07-01"; size := 12 |}]
  else [].

(** [path.dirname] of the POSIX flavour, on the reversed characters:
    the trailing slashes and the last component go, and so does the
    slash before them. *)
Fixpoint drop_while (p : ascii -> bool) (l : list ascii) : list ascii :=
  match l with
  | [] => []
  | c :: l' => if p c then drop_while p l' else l
  end.

Definition is_slash (c : ascii) : bool := Ascii.eqb c "/"%char.

Definition posix_dirname (p : string) : string :=
  match list_ascii_of_string p with
  | [] => "."
  | first :: _ =>
      let up := drop_while (fun c => negb (is_slash c))
                  (drop_while is_slash (rev (list_ascii_of_string p))) in
      match up with
      | [] => if is_slash first then "/" else "."
      | [_] => if is_slash first then "/" else "."
      | _ :: before =>
          if is_slash first && (List.length before =? 1)%nat then "//"
          else string_of_list_ascii (rev before)
      end
  end.

Definition remove (r : JsMap.t string) (k : string) : JsMap.t string :=
  filter (fun kv => negb (String.eqb (fst kv) k)) r.

Definition demo_putFile (content path : string) (tag : option string) (r : JsMap.t string)
    : (string + string) * JsMap.t string :=
  match JsMap.get r path with
  | None => (inr "v1", JsMap.set r path "v1")
  | Some current =>
      let accepted := match tag with
                      | None => true
                      | Some given => String.eqb given current
                      end in
      if accepted then (inr (current ++ "+"), JsMap.set r path (current ++ "+"))
      else (inl stale, r)
  end.

Definition demo_deleteItem (path : string) (tag : string) (r : JsMap.t string)
    : (string + unit) * JsMap.t string :=
  match JsMap.get r path with
  | None => (inl "404 (Not Found)", r)
  | Some current =>
      if String.eqb tag current then (inr tt, remove r path) else (inl stale, r)
  end.

Definition host : Host :=
  {| Remote := JsMap.t string;
     Failure := string;
     SiteClient := string;
     KuduClient := string;
     site_id := fun s => s;
     findNode := fun id r => (inr (if String.eqb id siteId then Some id else None), r);
     getKuduClient := fun s r => (inr s, r);
     getItem := fun _ path r => (inr (listing path), r);
     getFile := fun _ path r =>
       match JsMap.get r path with
       | Some tag => (inr {| data := "contents"; etag := tag |}, r)
       | None => (inl "404 (Not Found)", r)
       end;
     putFile := fun _ => demo_putFile;
     deleteItem := fun _ path _ => demo_deleteItem path;
     Date_parse := fun _ => 0;
     Date_now := "Sun Jul 01 2018";
     dirname := posix_dirname;
     content_toString := string_of_list_byte;
     Buffer_from := list_byte_of_string |}.

(** The host when [site/app.js] is at version [v2]. *)
Definition remote0 : Remote host := [("site/app.js", "v2")].

Definition app_js : Uri := {| uri_path := siteId ++ "/site/app.js" |}.

(** A provider that read [site/app.js] when it was at [v1] and has
    listed the root and [site] since. *)
Definition world_with_old_tag (readonly : bool) : World host :=
  {| _readonly := readonly;
     _etags := {[ uri_path app_js := "v1" ]};
     _roots := {[ siteId := 0%nat ]};
     heap := [obj_Directory (new_Directory (fun _ => 0)
                               {| mime := directoryMime; name := "root"; path := "";
                                  mtime := "Sun Jul 01 2018"; crtime := "Sun Jul 01 2018";
                                  size := 0 |})
                            (Some [("site", 1%nat)]);
              obj_Directory (new_Directory (fun _ => 0)
                               {| mime := "inode/directory"; name := "site";
                                  path := "/home/site";
                                  mtime := "2018-07-01"; crtime := "2018-07-01"; size := 0 |})
                            (Some [("app.js", 2%nat)]);
              obj_File (new_File (fun _ => 0)
                          {| mime := "application/javascript"; name := "app.js";
                             path := "/home/site/app.js";
                             mtime := "2018-07-02"; crtime := "2018-07-01"; size := 12 |})];
     remote := remote0;
     trace := [] |}.

(** A file directly under the root of the site. *)
Definition top_txt : Uri := {| uri_path := siteId ++ "/top.txt" |}.

(** An address of a site the tree does not know. *)
Definition elsewhere : Uri :=
  {| uri_path :=
       "/subscriptions/sub/resourceGroups/group/providers/Microsoft.Web/sites/other/site" |}.

End Demo.


(** ** Reading the sessions of the proxy *)
Module ProxyTrace.
Import Proxy.

(** The chunks sent upstream, in order. *)
Definition upstream_of (a : Action) : option Buffer :=
  match a with connection_send _ data => Some data | _ => None end.

Definition sent (t : list Action) : list Buffer := omap upstream_of t.

(** The chunks that arrived on the sockets, in order. *)
Definition chunk_of (ev : Event) : option Buffer :=
  match ev with socket_on_data _ data => Some data | _ => None end.

Definition chunks (evs : list Event) : list Buffer := omap chunk_of evs.

(** What was written to socket [s], in order. *)
Definition write_of (s : Socket) (a : Action) : option Buffer :=
  match a with
  | socket_write s' data => if (s =? s')%nat then Some data else None
  | _ => None
  end.

Definition written (s : Socket) (t : list Action) : list Buffer := omap (write_of s) t.

(** The payloads of the messages that arrived from upstream, in order. *)
Definition payload_of (ev : Event) : option Buffer :=
  match ev with connection_on_message _ message => binaryData message | _ => None end.

Definition payloads (evs : list Event) : list Buffer := omap payload_of evs.

Definition is_connect_or_listen (a : Action) : bool :=
  match a with
  | wsclient_connect _ _ _ | server_listen _ _ _ _ => true
  | _ => false
  end.

Definition is_destroy_of (s : Socket) (a : Action) : bool :=
  match a with socket_destroy s' => (s =? s')%nat | _ => false end.

Definition is_emit (a : Action) : bool :=
  match a with emit _ => true | _ => false end.

(** The events whose handler calls [dispose], and [dispose] itself. *)
Definition tears_down (ev : Event) (w : World) : bool :=
  match ev with
  | wsclient_on_connectFailed _ | call_dispose => true
  | connection_on_close c | connection_on_error c _ => (c <? connections w)%nat
  | socket_on_end s | socket_on_error s _ => (s <? sockets w)%nat
  | _ => false
  end.

(** The proxy once [startProxy] has run on the new object. *)
Definition started (host : string) (port : Z) (user password : string) : World :=
  fst (startProxy (constructor host port user password)).

(** What one run of [keepAlive] does. *)
Inductive Probe :=
| pingFunctionApp
| probe_appendLine (l : Line)
| setTimeout_keepAlive (ms : Z).

(** The object a run of [keepAlive] has for [this].  Called as a
    method it is the proxy.  The function re-arms itself with
    [setTimeout(this.keepAlive, ...)], which hands the function over
    without its object: the run that a timer starts has the timer
    object of the platform for [this]. *)
Inductive Receiver :=
| the_proxy (p : DebugProxy)
| the_timer.

(** [this._keepAlive]; a timer object has no such field. *)
Definition this_keepAlive (this : Receiver) : option bool :=
  match this with
  | the_proxy p => Some (_keepAlive p)
  | the_timer => None
  end.

(** [private async keepAlive()], one run of it: [reply] is how
    [pingFunctionApp] ended, [None] for a return and [Some err] for a
    throw.  An undefined [this._keepAlive] is falsy. *)
Definition keepAlive (reply : option string) (this : Receiver) : list Probe :=
  match this_keepAlive this with
  | Some true =>
      match reply with
      | None => [pingFunctionApp; setTimeout_keepAlive (60 * 1000)]
      | Some err => [pingFunctionApp; probe_appendLine (line_proxy err);
                     setTimeout_keepAlive (5 * 1000)]
      end
  | _ => []
  end.

Definition is_setTimeout (a : Probe) : bool :=
  match a with setTimeout_keepAlive _ => true | _ => false end.

(** A run of [keepAlive] and the runs that follow it: a run that
    armed a timer is followed by the run the timer starts.  [replies]
    are the ends of the pings, one for each run. *)
Fixpoint keepAlive_runs (replies : list (option string)) (this : Receiver) : list Probe :=
  match replies with
  | [] => []
  | reply :: replies' =>
      (keepAlive reply this
       ++ (if existsb is_setTimeout (keepAlive reply this)
           then keepAlive_runs replies' the_timer
           else []))%list
  end.

End ProxyTrace.


(** ** Reading the runs of a directory *)
Module RefreshRuns.
Import Kudu Refresh.

Section Runs.
Context {Err : Type}.

(** At most one task is in flight: a promise that is still pending is
    the task of the directory; the owner of a task is suspended on it;
    each promise was made with one listing request. *)
Definition in_flight (w : World Err) : Prop :=
  List.length (listings w) = List.length (promises w)
  /\ (forall task, promises w !! task = Some pending ->
                   _refreshingTask (dir w) = Some task)
  /\ (forall fr, In fr (frames w) -> owner fr = true ->
                 _refreshingTask (dir w) = Some (awaits fr)).

(** Where the maps and the errors that the callers see come from. *)
Definition from_promises (w : World Err) : Prop :=
  (forall entries, _entries (dir w) = Some entries -> In (fulfilled entries) (promises w))
  /\ (forall c m v, In (c, m, returned v) (results w) ->
                    exists entries, In (fulfilled entries) (promises w)
                                    /\ v = finish m entries)
  /\ (forall c m e, In (c, m, threw e) (results w) -> In (rejected e) (promises w)).

(** A reply that carries a listing: the refresh it answers succeeds. *)
Definition is_listing (ev : Event Err) : bool :=
  match ev with
  | ev_reply _ (inr _) => true
  | _ => false
  end.

(** No caller that made its task waits for a promise that is
    fulfilled: no result is about to be stored. *)
Definition nothing_to_store (w : World Err) : Prop :=
  forall fr, In fr (frames w) -> owner fr = true ->
             forall result, promises w !! awaits fr <> Some (fulfilled result).

End Runs.

End RefreshRuns.


(** ** Reading a listing *)
Module Listing.
Import Kudu.

(** The names under which a map holds values, in its order. *)
Definition keys {V : Type} (m : JsMap.t V) : list string := map fst m.

(** The last file of a listing that bears the name [n]. *)
Definition last_named (n : string) (fileList : list kuduFile) : option kuduFile :=
  find (fun file => String.eqb (name file) n) (rev fileList).

(** The names of [l] that are not in [seen], each at its first
    occurrence only. *)
Fixpoint firsts (seen l : list string) : list string :=
  match l with
  | [] => []
  | x :: l' =>
      if decide (x ∈ seen) then firsts seen l' else x :: firsts (seen ++ [x]) l'
  end.

Section Entries.
Variable Date_parse : string -> Z.

(** The entry [actuallyRefreshEntries] makes for one listed file. *)
Definition entry_of (file : kuduFile) : Refresh.Entry :=
  if String.eqb (mime file) "inode/directory"
  then Refresh.entry_Directory (new_Directory Date_parse file)
  else Refresh.entry_File (new_File Date_parse file).

(** One turn of its loop: [entries.set(file.name, entry)]. *)
Definition add (entries : Refresh.Map) (file : kuduFile) : Refresh.Map :=
  JsMap.set entries (name file) (entry_of file).

End Entries.

End Listing.


(** ** Addresses of sites *)
Module Address.
Import UriPattern.

Fixpoint no_slash (s : string) : bool :=
  match s with
  | EmptyString => true
  | String c s' => negb (Ascii.eqb c slash) && no_slash s'
  end.

Fixpoint one_line (s : string) : bool :=
  match s with
  | EmptyString => true
  | String c s' => negb (is_line_terminator c) && one_line s'
  end.

(** A segment of a site identifier: not empty, no slash. *)
Definition is_segment (s : string) : Prop := s <> "" /\ no_slash s = true.

(** The identifier of the site [site] of the resource group [group] of
    the subscription [subscription]. *)
Definition site_identifier (subscription group site : string) : string :=
  "/subscriptions/" ++ subscription ++ "/resourceGroups/" ++ group
    ++ "/providers/Microsoft.Web/sites/" ++ site.

(** Nothing, or something that starts a new line. *)
Definition ends_line (post : string) : Prop :=
  post = "" \/ exists c post', post = String c post' /\ is_line_terminator c = true.

End Address.


(** ** What the operations of the provider keep *)
Module Keeping.
Import Kudu FS.

(** The same object, but for the entries of a directory. *)
Definition same_object (e e' : Entry) : Prop :=
  match e, e' with
  | obj_File f, obj_File f' => f' = f
  | obj_Directory f _, obj_Directory f' _ => f' = f
  | _, _ => False
  end.

(** The calls that change the remote host, among the effects [t]. *)
Definition is_change (e : Effect) : bool :=
  match e with
  | called c _ => is_mutation c
  | entries_assigned _ _ => false
  end.

Definition changes (t : list Effect) : list Effect := List.filter is_change t.

Section Provider.
Variable H : Host.

(** From [w] to [w']: the mode is the same, the roots are still there,
    every object is still there with its class and its fields. *)
Definition Persists (w w' : World H) : Prop :=
  _readonly H w' = _readonly H w
  /\ (forall id r, _roots H w !! id = Some r -> _roots H w' !! id = Some r)
  /\ (forall d e, heap H w !! d = Some e ->
                  exists e', heap H w' !! d = Some e' /\ same_object e e').

(** ... and the table of tags is the same. *)
Definition Stable (w w' : World H) : Prop :=
  Persists w w' /\ _etags H w' = _etags H w.

(** ... and the table of tags is the same but at [path]. *)
Definition Stable_but (path : string) (w w' : World H) : Prop :=
  Persists w w' /\ forall k, k <> path -> _etags H w' !! k = _etags H w !! k.

(** From [w] to [w'] without a call that changes the remote host. *)
Definition Reading (w w' : World H) : Prop :=
  exists t, trace H w' = (trace H w ++ t)%list /\ changes t = [].

(** The run [r] from [w] makes at most one call that changes the
    remote host, a call for which [P] holds; it fails when it makes
    none, and when the one it makes fails. *)
Definition Once {A : Type} (P : Call -> Prop) (w : World H) (r : (Error H + A) * World H)
    : Prop :=
  exists t,
    trace H (snd r) = (trace H w ++ t)%list
    /\ ((changes t = [] /\ failure r <> None)
        \/ exists c ok, changes t = [called c ok] /\ P c
                        /\ (ok = false -> failure r <> None)).

(** A computation whose runs all go by the relation [R]. *)
Definition follows {A : Type} (R : World H -> World H -> Prop) (m : M H A) : Prop :=
  forall w, R w (snd (m w)).

End Provider.

Arguments Persists {H} w w'.
Arguments Stable {H} w w'.
Arguments Stable_but {H} path w w'.
Arguments Reading {H} w w'.
Arguments Once {H A} P w r.
Arguments follows {H A} R m.

(** On the small remote host: a provider that holds the current tag
    of [site/app.js]. *)
Definition world_with_current_tag : World Demo.host :=
  {| _readonly := false;
     _etags := {[ uri_path Demo.app_js := "v2" ]};
     _roots := _roots Demo.host (Demo.world_with_old_tag false);
     heap := heap Demo.host (Demo.world_with_old_tag false);
     remote := Demo.remote0;
     trace := [] |}.

End Keeping.


(** ** The objects of the provider *)
Module Objects.
Import Kudu FS.

(** The field [type] of an object says its class. *)
Definition agrees (e : Entry) : Prop :=
  match e with
  | obj_File f => f_type f = FileType_File
  | obj_Directory f _ => f_type f = FileType_Directory
  end.

(** The values of the map [entries] are objects of [store]. *)
Definition children_stored (store : list Entry) (entries : JsMap.t nat) : Prop :=
  forall name c, In (name, c) entries -> (c < List.length store)%nat.

(** The roots are directories of the store, the field [type] of every
    object says its class, and the children of every directory are
    objects of the store. *)
Definition Sound_of (roots : gmap string nat) (store : list Entry) : Prop :=
  (forall id r, roots !! id = Some r -> exists f es, store !! r = Some (obj_Directory f es))
  /\ (forall d e, store !! d = Some e ->
        agrees e /\ forall f es, e = obj_Directory f (Some es) -> children_stored store es).

(** A path without a name in it: empty, or made of slashes. *)
Fixpoint only_slashes (s : string) : bool :=
  match s with
  | EmptyString => true
  | String c s' => Ascii.eqb c UriPattern.slash && only_slashes s'
  end.

Section Provider.
Variable H : Host.

Definition Sound (w : World H) : Prop := Sound_of (_roots H w) (heap H w).

(** The run [r] ended in a sound world, and [Q] holds of what it
    returned there. *)
Definition ended {A : Type} (Q : A -> list Entry -> Prop) (r : (Error H + A) * World H)
    : Prop :=
  Sound (snd r) /\ forall a, fst r = inr a -> Q a (heap H (snd r)).

(** From a sound world in which [P] holds of the store, [m] ends in a
    sound world, and [Q] holds of what it returns there. *)
Definition triple {A : Type} (P : list Entry -> Prop) (m : M H A)
    (Q : A -> list Entry -> Prop) : Prop :=
  forall w, Sound w -> P (heap H w) -> ended Q (m w).

End Provider.

Arguments Sound {H} w.
Arguments ended {H A} Q r.
Arguments triple {H A} P m Q.

End Objects.


(** ** Remote debugging: the application settings

    [startRemoteDebug] of the two versions of the command, the part
    that uses or updates the application settings.  The block is the
    executor of a promise: an [async] function that is given [resolve]
    and [reject].  What the executor throws is not seen by the
    promise, which is settled by the first call of [resolve] or of
    [reject] and stays pending when there is none. *)
Module RemoteDebug.

(** [StringDictionary]; [properties] may be undefined. *)
Record StringDictionary := { properties : option (gmap string string) }.

(** [DialogResponses] *)
Inductive MessageItem := yes | learnMore | cancel.

Definition APPSVC_TUNNEL_PORT : string := "APPSVC_TUNNEL_PORT".

Section Command.
(** [String(debugPort)] *)
Variable String_ : Z -> string.
(** What a collaborator throws. *)
Variable Failure : Type.

Inductive Thrown :=
| TypeError
| reason (text : string)
| failure (e : Failure).

Inductive Effect :=
| listApplicationSettings
| showWarningMessage (message : string)
| opn (url : string)
| report (message : string)
| appendLine (line : string)
| updateApplicationSettings (appSettings : StringDictionary)
| delay (ms : Z)
| resolve
| reject (e : Thrown).

(** What the collaborators answer: the settings listed, and listed
    again, the answer to the warning ([None] when it is dismissed),
    and the update. *)
Record Replies := {
  listed : Failure + StringDictionary;
  listed_again : Failure + StringDictionary;
  answer : Failure + option MessageItem;
  updated : Failure + unit
}.

(** A run returns or throws, after its effects. *)
Definition Run (A : Type) : Type := (Thrown + A) * list Effect.

Definition ret {A : Type} (a : A) : Run A := (inr a, []).

Definition throw {A : Type} (e : Thrown) : Run A := (inl e, []).

Definition bind {A B : Type} (m : Run A) (k : A -> Run B) : Run B :=
  match m with
  | (inl e, t) => (inl e, t)
  | (inr a, t) => (fst (k a), (t ++ snd (k a))%list)
  end.

Definition call (e : Effect) : Run unit := (inr tt, [e]).

(** [await f(...)] *)
Definition await {A : Type} (e : Effect) (reply : Failure + A) : Run A :=
  (match reply with inl err => inl (failure err) | inr a => inr a end, [e]).

(** [try { m } catch (error) { handler(error) }] *)
Definition try_catch {A : Type} (m : Run A) (handler : Thrown -> Run A) : Run A :=
  match m with
  | (inl e, t) => (fst (handler e), (t ++ snd (handler e))%list)
  | (inr a, t) => (inr a, t)
  end.

Declare Scope run_scope.
Delimit Scope run_scope with run.
Notation "x <- m ;; k" := (bind m (fun x => k))
  (at level 100, m at next level, k at level 200, right associativity) : run_scope.
Local Open Scope run_scope.

(** [appSettings.properties.APPSVC_TUNNEL_PORT = String(debugPort)] *)
Definition assign_port (debugPort : Z) (appSettings : StringDictionary)
    : Run StringDictionary :=
  match properties appSettings with
  | None => throw TypeError
  | Some p => ret {| properties := Some (<[APPSVC_TUNNEL_PORT := String_ debugPort]> p) |}
  end.

(** *** The earlier version *)

(** The test of [isRemoteDebuggingEnabled] *)
Definition has_port (debugPort : Z) (appSettings : StringDictionary) : bool :=
  match properties appSettings with
  | Some p => bool_decide (p !! APPSVC_TUNNEL_PORT = Some (String_ debugPort))
  | None => false
  end.

(** [async function isRemoteDebuggingEnabled(debugPort, client)] *)
Definition isRemoteDebuggingEnabled (debugPort : Z) (r : Replies) : Run bool :=
  appSettings <- await listApplicationSettings (listed r) ;;
  ret (has_port debugPort appSettings).

(** [async function updateAppSettings(debugPort, client)] of the
    earlier version, which lists the settings again. *)
Definition updateAppSettings_listing (debugPort : Z) (r : Replies) : Run unit :=
  appSettings <- await listApplicationSettings (listed_again r) ;;
  appSettings' <- assign_port debugPort appSettings ;;
  await (updateApplicationSettings appSettings') (updated r).

Definition confirmMsg : string :=
  "We need to enable remote debugging for the selected app. Would you like to continue?".

(** The executor of the promise of the earlier version. *)
Definition use_or_update_listing (debugRemotePort : Z) (r : Replies) : Run unit :=
  isEnabled <- isRemoteDebuggingEnabled debugRemotePort r ;;
  if (isEnabled : bool) then call resolve
  else
    result <- await (showWarningMessage confirmMsg) (answer r) ;;
    match result with
    | Some learnMore =>
        _ <- call (opn "https://aka.ms/") ;;
        call (reject (reason ""))
    | _ =>
        _ <- call (report "Updating application settings to enable remote debugging...") ;;
        _ <- call (appendLine "Updating application settings to enable remote debugging...") ;;
        _ <- updateAppSettings_listing debugRemotePort r ;;
        _ <- call (report "Waiting for 60sec to let app reboot...") ;;
        _ <- call (appendLine "Waiting for 60sec to let app reboot...") ;;
        _ <- call (delay 60000) ;;
        call resolve
    end.

(** *** The later version *)

(** [function needUpdateAppSettings(debugRemotePort, appSettings)]:
    [undefined] when [properties] is. *)
Definition needUpdateAppSettings (debugRemotePort : Z) (appSettings : StringDictionary)
    : option bool :=
  match properties appSettings with
  | None => None
  | Some p =>
      Some (negb (bool_decide (p !! APPSVC_TUNNEL_PORT = Some (String_ debugRemotePort))))
  end.

(** [if (v)] on [boolean | undefined] *)
Definition truthy (v : option bool) : bool :=
  match v with Some b => b | None => false end.

(** [async function updateAppSettings(debugPort, outputChannel,
    client, p, appSettings)] of the later version. *)
Definition updateAppSettings (debugPort : Z) (r : Replies) (appSettings : StringDictionary)
    : Run unit :=
  appSettings' <- assign_port debugPort appSettings ;;
  _ <- call (report "Updating application settings to enable remote debugging...") ;;
  _ <- call (appendLine "Updating application settings to enable remote debugging...") ;;
  _ <- await (updateApplicationSettings appSettings') (updated r) ;;
  _ <- call (report "Updating application settings done...") ;;
  call (appendLine "Updating application settings done...").

(** The executor of the promise of the later version. *)
Definition use_or_update (debugRemotePort : Z) (r : Replies) : Run unit :=
  try_catch
    (appSettings <- await listApplicationSettings (listed r) ;;
     if truthy (needUpdateAppSettings debugRemotePort appSettings) then
       result <- await (showWarningMessage confirmMsg) (answer r) ;;
       match result with
       | Some learnMore =>
           _ <- call (opn "https://aka.ms/") ;;
           call (reject (reason ""))
       | _ =>
           _ <- updateAppSettings debugRemotePort r appSettings ;;
           call resolve
       end
     else call resolve)
    (fun error => call (reject error)).

(** *** The promise *)

Inductive Settled :=
| resolved
| rejected (e : Thrown)
| pending.

(** The first call of [resolve] or of [reject] settles the promise. *)
Fixpoint settled (t : list Effect) : Settled :=
  match t with
  | [] => pending
  | resolve :: _ => resolved
  | reject e :: _ => rejected e
  | _ :: t' => settled t'
  end.

(** The settings sent to [updateApplicationSettings]. *)
Definition sent_of (e : Effect) : option StringDictionary :=
  match e with
  | updateApplicationSettings s => Some s
  | _ => None
  end.

Definition sent (t : list Effect) : list StringDictionary := omap sent_of t.

Definition is_settling (e : Effect) : bool :=
  match e with
  | resolve | reject _ => true
  | _ => false
  end.

End Command.

Arguments TypeError {Failure}.
Arguments reason {Failure} text.
Arguments failure {Failure} e.
Arguments listApplicationSettings {Failure}.
Arguments showWarningMessage {Failure} message.
Arguments opn {Failure} url.
Arguments report {Failure} message.
Arguments appendLine {Failure} line.
Arguments updateApplicationSettings {Failure} appSettings.
Arguments delay {Failure} ms.
Arguments resolve {Failure}.
Arguments reject {Failure} e.
Arguments listed {Failure} r.
Arguments listed_again {Failure} r.
Arguments answer {Failure} r.
Arguments updated {Failure} r.
Arguments resolved {Failure}.
Arguments rejected {Failure} e.
Arguments pending {Failure}.
Arguments settled {Failure} t.
Arguments sent {Failure} t.
Arguments is_settling {Failure} e.

(** [String(n)] for an integer [n] *)
Definition decimal (n : Z) : string := NilZero.string_of_int (Z.to_int n).

(** An app whose settings do not have the port; the user cancels the
    warning. *)
Definition settings_without_port : StringDictionary :=
  {| properties := Some {[ "WEBSITE_NODE_DEFAULT_VERSION" := "8.9.4" ]} |}.

Definition replies_cancel : Replies string :=
  {| listed := inr settings_without_port;
     listed_again := inr settings_without_port;
     answer := inr (Some cancel);
     updated := inr tt |}.

(** The settings cannot be listed. *)
Definition replies_unlisted : Replies string :=
  {| listed := inl "ETIMEDOUT";
     listed_again := inl "ETIMEDOUT";
     answer := inr (Some yes);
     updated := inr tt |}.

End RemoteDebug.


(** ** The folders of the explorer *)
Module Explorer.

(** [type kuduFile = { mime, name, path }] *)
Record kuduFile := {
  mime : string;
  name : string;
  path : string
}.

(** The children of a folder of the explorer. *)
Inductive AzExtTreeItem :=
| new_FolderTreeItem (label folderPath : string) (subcontextValue : option string)
| new_FileTreeItem (label path : string)
| new_LogStreamTreeItem
| new_GenericTreeItem (label commandId contextValue : string).

(** [s.includes(needle)] *)
Definition includes (s needle : string) : bool := 0 <=? JsString.indexOf s needle.

(** [filteredList] of [loadMoreChildrenImpl] *)
Definition filteredList (fileList : list kuduFile) : list kuduFile :=
  List.filter
    (fun file =>
       if String.eqb (mime file) "text/xml"
          && includes (name file) "LogFiles-kudu-trace_pending.xml"
       then false else true)
    fileList.

(** The item made for one file of [filteredList]. *)
Definition child_of (file : kuduFile) : AzExtTreeItem :=
  if String.eqb (mime file) "inode/directory"
  then new_FolderTreeItem (name file) (Kudu.truncateHome (path file)) (Some "subFolder")
  else new_FileTreeItem (name file) (Kudu.truncateHome (path file)).

(** [FolderTreeItem.loadMoreChildrenImpl], once the listing
    [fileList] has arrived; [contextValue] is [this.contextValue] and
    [enableViewInFileExplorer] the setting of the workspace, as a
    truth value. *)
Definition loadMoreChildrenImpl (contextValue : string) (enableViewInFileExplorer : bool)
    (fileList : list kuduFile) : list AzExtTreeItem :=
  let children := map child_of (filteredList fileList) in
  let children :=
    if String.eqb contextValue "logFolder" then new_LogStreamTreeItem :: children
    else children in
  if enableViewInFileExplorer
  then (children ++ [new_GenericTreeItem "Open in File Explorer..."
                       "appService.openInFileExplorer" "openInFileExplorer"])%list
  else children.

(** The file an item was made for shows in its label and path. *)
Definition is_made_for (item : AzExtTreeItem) : bool :=
  match item with
  | new_FolderTreeItem _ _ _ | new_FileTreeItem _ _ => true
  | _ => false
  end.

End Explorer.


(** * Properties *)

(** ** Path truncation *)
Module KuduFacts.
Import Kudu.

Lemma append_empty (s : string) : "" ++ s = s.
Proof. reflexivity. Qed.

Lemma append_String (a : ascii) (s t : string) : String a s ++ t = String a (s ++ t).
Proof. reflexivity. Qed.

Lemma startsWith_app (p t : string) : JsString.startsWith p (p ++ t) = true.
Proof.
  induction p as [|a p IH]; simpl; [reflexivity|].
  rewrite Ascii.eqb_refl. exact IH.
Qed.

Lemma startsWith_inv (p s : string) :
  JsString.startsWith p s = true -> exists t, s = p ++ t.
Proof.
  revert s. induction p as [|a p IH]; intros s Hs; simpl in *.
  - exists s. reflexivity.
  - destruct s as [|b s]; [discriminate|].
    destruct (Ascii.eqb_spec a b) as [->|]; [|discriminate].
    destruct (IH s Hs) as [t ->]. exists t. reflexivity.
Qed.

Lemma drop_app (pre s : string) (k : nat) :
  JsString.drop (String.length pre + k) (pre ++ s) = JsString.drop k s.
Proof. induction pre as [|a pre IH]; simpl; [reflexivity | exact IH]. Qed.

(** [indexOf_from] finds the first occurrence, and says [-1] only when
    there is none. *)
Lemma indexOf_from_first (needle s : string) (i : Z) :
  (JsString.indexOf_from needle s i = -1
   /\ forall pre post, ~ occurs_at needle s pre post)
  \/ (exists pre post,
        occurs_at needle s pre post
        /\ JsString.indexOf_from needle s i = i + Z.of_nat (String.length pre)
        /\ forall pre' post', occurs_at needle s pre' post' ->
                              (String.length pre <= String.length pre')%nat).
Proof.
  revert i. induction s as [|c s IH]; intros i; simpl.
  - destruct (JsString.startsWith needle "") eqn:E.
    + right. destruct (startsWith_inv _ _ E) as [t Ht].
      exists "", t. split; [exact Ht|]. split; [simpl; lia|]. intros; simpl; lia.
    + left. split; [reflexivity|]. intros pre post Hocc. unfold occurs_at in Hocc.
      destruct pre; [rewrite append_empty in Hocc | discriminate].
      pose proof (startsWith_app needle post) as E'. rewrite <- Hocc in E'. congruence.
  - destruct (JsString.startsWith needle (String c s)) eqn:E.
    + right. destruct (startsWith_inv _ _ E) as [t Ht].
      exists "", t. split; [exact Ht|]. split; [simpl; lia|]. intros; simpl; lia.
    + destruct (IH (i + 1)) as [[Hm Hno]|(pre & post & Hocc & Hi & Hmin)].
      * left. split; [exact Hm|]. intros pre post Hocc. unfold occurs_at in Hocc.
        destruct pre as [|a pre];
          [rewrite append_empty in Hocc | rewrite append_String in Hocc].
        -- pose proof (startsWith_app needle post) as E'. rewrite <- Hocc in E'. congruence.
        -- injection Hocc as _ Hocc. exact (Hno pre post Hocc).
      * right. exists (String c pre), post. split; [|split].
        -- unfold occurs_at in *. rewrite append_String, <- Hocc. reflexivity.
        -- rewrite Hi. simpl String.length. lia.
        -- intros pre' post' Hocc'. unfold occurs_at in Hocc'.
           destruct pre' as [|a pre'];
             [rewrite append_empty in Hocc' | rewrite append_String in Hocc'].
           ++ pose proof (startsWith_app needle post') as E'. rewrite <- Hocc' in E'.
              congruence.
           ++ injection Hocc' as _ Hocc'. specialize (Hmin pre' post' Hocc').
              simpl. lia.
Qed.

(** C5, the sentinel absent: the constructor of [File] does not fail on
    ["/site/wwwroot/app.js"], which has no ["home"] in it; [indexOf]
    gives [-1] and the path loses its first four characters. *)
Lemma truncateHome_without_sentinel_returns_a_path :
  JsString.indexOf "/site/wwwroot/app.js" home = -1
  /\ entryPath (new_File (fun _ => 0)
                  {| mime := "text/plain"; name := "app.js";
                     path := "/site/wwwroot/app.js";
                     mtime := ""; crtime := ""; size := 0 |})
     = "e/wwwroot/app.js".
Proof. split; reflexivity. Qed.

(** C5, as the code has it: ["/home/site/wwwroot/app.js"] gives
    ["site/wwwroot/app.js"]; a path in which ["home"] occurs gives what
    follows the first occurrence and the one character after it; a path
    in which it does not occur gives the path without its first four
    characters, and no error. *)
Theorem truncateHome_spec :
  truncateHome "/home/site/wwwroot/app.js" = "site/wwwroot/app.js"
  /\ forall p : string,
       (exists pre post,
          occurs_at home p pre post
          /\ (forall pre' post', occurs_at home p pre' post' ->
                                 (String.length pre <= String.length pre')%nat)
          /\ truncateHome p = JsString.drop 1 post)
       \/ ((forall pre post, ~ occurs_at home p pre post)
           /\ truncateHome p = JsString.drop 4 p).
Proof.
  split; [reflexivity|]. intros p.
  unfold truncateHome, JsString.indexOf.
  destruct (indexOf_from_first home p 0) as [[Hm Hno]|(pre & post & Hocc & Hi & Hmin)].
  - right. split; [exact Hno|]. rewrite Hm. reflexivity.
  - left. exists pre, post. split; [exact Hocc|]. split; [exact Hmin|].
    rewrite Hi. unfold JsString.substring.
    replace (Z.to_nat (Z.max 0 (0 + Z.of_nat (String.length pre) + JsString.length home + 1)))
      with (String.length pre + 5)%nat
      by (unfold JsString.length; simpl String.length; lia).
    unfold occurs_at in Hocc. rewrite Hocc, drop_app. reflexivity.
Qed.

End KuduFacts.


(** ** The tunnel proxy *)
Module ProxyFacts.
Import Proxy.
Local Open Scope eff_scope.
Local Open Scope list_scope.

Lemma forEach_call {A : Type} (g : A -> Action) (l : list A) (w : World) :
  forEach l (fun x => call (g x)) w = (w, map g l).
Proof.
  induction l as [|x l IH]; [reflexivity|].
  simpl. unfold seq. simpl. rewrite IH. reflexivity.
Qed.

Lemma destroy_openSockets_spec (w : World) :
  destroy_openSockets w = (w, map socket_destroy (_openSockets (this w))).
Proof. unfold destroy_openSockets, read. apply forEach_call. Qed.

Lemma dispose_spec (w : World) :
  dispose w = ({| this := disposed (this w); connections := connections w;
                  sockets := sockets w |}, dispose_calls (this w)).
Proof.
  destruct w as [p nc ns]. destruct p as [srv cl cn h po u pw ka socks].
  unfold dispose, seq, read, update.
  destruct cn, cl, srv; simpl; rewrite ?destroy_openSockets_spec; simpl;
    rewrite ?app_nil_r; reflexivity.
Qed.

Lemma count_app (p : Action -> bool) (t1 t2 : list Action) :
  count p (t1 ++ t2) = (count p t1 + count p t2)%nat.
Proof. induction t1 as [|a t1 IH]; simpl; [reflexivity|]. destruct (p a); simpl; lia. Qed.

Lemma count_map_none {A : Type} (p : Action -> bool) (g : A -> Action) (l : list A) :
  (forall x, p (g x) = false) -> count p (map g l) = 0%nat.
Proof. intros Hg. induction l as [|x l IH]; simpl; [reflexivity|]. rewrite Hg. exact IH. Qed.

Lemma run_cons (ev : Event) (evs : list Event) (w : World) :
  run (ev :: evs) w =
  let '(w1, t1) := handle ev w in
  let '(w2, t2) := run evs w1 in
  (w2, t1 ++ t2).
Proof. reflexivity. Qed.

Lemma run_app (evs1 evs2 : list Event) (w : World) :
  run (evs1 ++ evs2) w =
  let '(w1, t1) := run evs1 w in
  let '(w2, t2) := run evs2 w1 in
  (w2, t1 ++ t2).
Proof.
  revert w. induction evs1 as [|ev evs1 IH]; intros w; simpl.
  - unfold skip. destruct (run evs2 w). reflexivity.
  - unfold seq. destruct (handle ev w) as [w1 t1]. rewrite IH.
    destruct (run evs1 w1) as [w2 t2]. destruct (run evs2 w2) as [w3 t3].
    rewrite app_assoc. reflexivity.
Qed.

Lemma dispose_calls_counts (p : DebugProxy) :
  count is_server_close (dispose_calls p) = held (_server p)
  /\ count is_wsclient_abort (dispose_calls p) = held (_wsclient p)
  /\ forall c, count (is_connection_close c) (dispose_calls p) =
               match _wsconnection p with
               | Some c' => if (c =? c')%nat then 1 else 0
               | None => 0
               end%nat.
Proof.
  unfold dispose_calls. repeat split; intros;
    rewrite !count_app, count_map_none by reflexivity;
    destruct (_wsconnection p), (_wsclient p), (_server p); simpl;
    try destruct (_ =? _)%nat; reflexivity.
Qed.

Lemma forEach_call' {A : Type} (g : A -> Action) (l : list A) (w : World) :
  forEach l (fun x w => (w, [g x])) w = (w, map g l).
Proof. exact (forEach_call g l w). Qed.

Ltac handler :=
  repeat (progress (unfold guard, seq, call, update, read, skip, new_connection, new_socket,
                      write_openSockets; simpl)
          || rewrite dispose_spec
          || rewrite destroy_openSockets_spec
          || rewrite forEach_call'
          || match goal with
             | |- context [match binaryData ?d with _ => _ end] => destruct (binaryData d)
             end).

Lemma handle_shape (ev : Event) (w : World) :
  Shape w (fst (handle ev w)) (snd (handle ev w)).
Proof.
  destruct (dispose_calls_counts (this w)) as (Hs & Hk & Hc).
  destruct ev; unfold handle;
    try match goal with |- context [(?a <? ?b)%nat] => destruct (a <? b)%nat end;
    handler.
  all: first
    [ solve [apply shape_quiet; simpl; try reflexivity;
             intros; rewrite ?count_map_none by reflexivity; try reflexivity;
             try (destruct (_wsconnection (this w)); reflexivity)]
    | solve [apply shape_connect; simpl; intros; reflexivity]
    | solve [apply shape_dispose; [repeat split | reflexivity | | | intros c'];
             simpl; rewrite ?count_app, ?count_map_none by reflexivity; simpl;
             rewrite ?Hs, ?Hk, ?Hc; lia]
    | solve [destruct (_wsconnection (this w)) eqn:E; simpl;
             apply shape_quiet; simpl; auto] ].
Qed.

Lemma shape_inv (w w' : World) (t0 t : list Action) :
  Inv w t0 -> Shape w w' t -> Inv w' (t0 ++ t).
Proof.
  intros (Is & Ik & Ic & Icur & Ifresh) Hshape.
  destruct Hshape as [w' t Hs Hk Hc Hn Cs Ck Cc | w' t Hs Hk Hc Hn Cs Ck Cc
                     | w' t (Hs & Hk & Hc) Hn Cs Ck Cc];
    unfold Inv; rewrite !count_app, ?Hs, ?Hk, ?Hc, ?Hn, ?Cs, ?Ck.
  - repeat split; try lia.
    + intros c. rewrite count_app, Cc. specialize (Ic c). lia.
    + rewrite count_app, Cc. destruct (Icur c H). lia.
    + destruct (Icur c H). lia.
    + intros c Hle. rewrite count_app, Cc, (Ifresh c Hle). reflexivity.
  - repeat split; try lia.
    + intros c. rewrite count_app, Cc. specialize (Ic c). lia.
    + injection H as <-. rewrite count_app, Cc, (Ifresh (connections w)); lia.
    + injection H as <-. lia.
    + intros c Hle. rewrite count_app, Cc, (Ifresh c); lia.
  - simpl. repeat split; try lia.
    + intros c. rewrite count_app, Cc. specialize (Ic c).
      destruct (_wsconnection (this w)) as [c'|] eqn:E; [|lia].
      destruct (Nat.eqb_spec c c') as [->|]; [|lia].
      destruct (Icur c' eq_refl). lia.
    + discriminate.
    + discriminate.
    + intros c Hle. rewrite count_app, Cc, (Ifresh c Hle).
      destruct (_wsconnection (this w)) as [c'|] eqn:E; [|lia].
      destruct (Nat.eqb_spec c c') as [->|]; [|lia].
      destruct (Icur c' eq_refl). lia.
Qed.

Lemma run_inv (evs : list Event) (w : World) (t0 : list Action) :
  Inv w t0 -> Inv (fst (run evs w)) (t0 ++ snd (run evs w)).
Proof.
  revert w t0. induction evs as [|ev evs IH]; intros w t0 HI; simpl.
  - rewrite app_nil_r. exact HI.
  - unfold seq. pose proof (handle_shape ev w) as Hsh.
    destruct (handle ev w) as [w1 t1]. simpl in Hsh.
    pose proof (IH w1 (t0 ++ t1) (shape_inv _ _ _ _ HI Hsh)) as HI'.
    destruct (run evs w1) as [w2 t2]. simpl in *. rewrite app_assoc. exact HI'.
Qed.

Lemma session_inv (host : string) (port : Z) (user password : string) (evs : list Event) :
  Inv (fst (session host port user password evs)) (snd (session host port user password evs)).
Proof.
  unfold session, seq.
  destruct (startProxy (constructor host port user password)) as [w1 t1] eqn:E.
  assert (HI : Inv w1 t1).
  { unfold startProxy, constructor in E. handler. injection E as <- <-.
    unfold Inv; simpl. repeat split; intros; try lia; discriminate. }
  pose proof (run_inv evs w1 t1 HI) as HI'.
  destruct (run evs w1) as [w2 t2]. exact HI'.
Qed.

(** C7. However many times and for whatever reason [dispose] runs in a
    session, the server is closed at most once, the websocket client
    aborted at most once and each connection closed at most once;
    [dispose] leaves the three references cleared, and a second
    [dispose] closes and aborts nothing. *)
Theorem dispose_idempotent (host : string) (port : Z) (user password : string) :
  (forall evs : list Event,
      let t := snd (session host port user password evs) in
      (count is_server_close t <= 1)%nat
      /\ (count is_wsclient_abort t <= 1)%nat
      /\ forall c, (count (is_connection_close c) t <= 1)%nat)
  /\ (forall w : World, cleared (this (fst (dispose w))))
  /\ (forall w : World,
        let t := snd (dispose (fst (dispose w))) in
        count is_server_close t = 0%nat
        /\ count is_wsclient_abort t = 0%nat
        /\ forall c, count (is_connection_close c) t = 0%nat).
Proof.
  split; [|split].
  - intros evs t. destruct (session_inv host port user password evs) as (Is & Ik & Ic & _).
    fold t in Is, Ik, Ic. repeat split; [lia | lia | exact Ic].
  - intros w. rewrite dispose_spec. repeat split.
  - intros w t. subst t. rewrite !dispose_spec. simpl.
    destruct (dispose_calls_counts (disposed (this w))) as (Hs & Hk & Hc).
    rewrite Hs, Hk. repeat split. intros c. rewrite Hc. reflexivity.
Qed.


(** C2, as stated: in the session in which the listener reports
    'listening' before the websocket has connected, the proxy emits
    'start' although [_wsconnection] is still undefined. *)
Lemma start_emitted_before_upstream_connects :
  let '(w, t) := session "app.scm.azurewebsites.net" 9229 "user" "secret"
                   [server_on_listening] in
  _wsconnection (this w) = None /\ count is_emit_start t = 1%nat.
Proof. split; reflexivity. Qed.

Lemma dispose_calls_no_start (p : DebugProxy) : count is_emit_start (dispose_calls p) = 0%nat.
Proof.
  unfold dispose_calls. rewrite !count_app, count_map_none by reflexivity.
  destruct (_wsconnection p), (_wsclient p), (_server p); reflexivity.
Qed.

(** C2, as the code has it: 'start' is emitted by the handler of the
    listener's 'listening' event, whatever the state of the upstream
    connection, and by nothing else: no other handler, nor
    [startProxy], emits it. *)
Theorem start_emitted_exactly_on_listening :
  (forall w : World,
      handle server_on_listening w = (w, [appendLine line_listening; emit emit_start]))
  /\ (forall (ev : Event) (w : World),
        count is_emit_start (snd (handle ev w)) =
        match ev with server_on_listening => 1%nat | _ => 0%nat end)
  /\ (forall w : World, count is_emit_start (snd (startProxy w)) = 0%nat).
Proof.
  split; [|split].
  - intros w. reflexivity.
  - intros ev w.
    destruct ev; unfold handle;
      try match goal with |- context [(?a <? ?b)%nat] => destruct (a <? b)%nat end;
      handler;
      rewrite ?count_app, ?count_map_none, ?dispose_calls_no_start by reflexivity;
      try reflexivity.
    destruct (_wsconnection (this w)); reflexivity.
  - intros w. unfold startProxy, read. destruct (_server (this w)); handler; reflexivity.
Qed.

Lemma handle_openSockets (ev : Event) (w : World) :
  _openSockets (this w) = List.seq 0%nat (sockets w) ->
  _openSockets (this (fst (handle ev w))) = List.seq 0%nat (sockets (fst (handle ev w))).
Proof.
  intros Hw.
  destruct ev; unfold handle;
    try match goal with |- context [(?a <? ?b)%nat] => destruct (a <? b)%nat end;
    handler; try exact Hw.
  - change (0%nat :: List.seq 1 (sockets w)) with (List.seq 0 (S (sockets w))).
    rewrite Hw, seq_S. reflexivity.
  - destruct (_wsconnection (this w)); exact Hw.
Qed.

Lemma run_openSockets (evs : list Event) (w : World) :
  _openSockets (this w) = List.seq 0%nat (sockets w) ->
  _openSockets (this (fst (run evs w))) = List.seq 0%nat (sockets (fst (run evs w))).
Proof.
  revert w. induction evs as [|ev evs IH]; intros w Hw; simpl; [exact Hw|].
  unfold Proxy.seq. pose proof (handle_openSockets ev w Hw) as H1.
  destruct (handle ev w) as [w1 t1]. specialize (IH w1 H1).
  destruct (run evs w1) as [w2 t2]. exact IH.
Qed.

Lemma count_writes (s : Socket) (data : Buffer) (start n : nat) :
  count (is_write_to s) (map (fun s' => socket_write s' data) (List.seq start n))
  = if (start <=? s)%nat && (s <? start + n)%nat then 1%nat else 0%nat.
Proof.
  revert start. induction n as [|n IH]; intros start; simpl.
  - destruct (Nat.leb_spec start s), (Nat.ltb_spec s (start + 0)); simpl; try reflexivity. lia.
  - rewrite IH.
    destruct (Nat.eqb_spec s start), (Nat.leb_spec (S start) s), (Nat.ltb_spec s (S start + n)),
      (Nat.leb_spec start s), (Nat.ltb_spec s (start + S n)); simpl; try reflexivity; lia.
Qed.

(** C3. At any point of a session, [_openSockets] holds every socket
    accepted so far, once.  When the upstream connection is there, a
    chunk from an accepted socket is sent upstream as one message, the
    chunk itself.  A message from a connection that has binary data
    is written to each of these sockets, once, whichever of them sent
    data last.  A message that has none (a text frame) is written to
    no socket: the handler calls [write(undefined)] on the first
    socket, which throws, and nothing else. *)
Theorem relay_one_to_one (host : string) (port : Z) (user password : string)
    (evs : list Event) :
  let w := fst (session host port user password evs) in
  _openSockets (this w) = List.seq 0%nat (sockets w)
  /\ (forall (c : WsConnection) (s : Socket) (data : Buffer),
        _wsconnection (this w) = Some c -> (s < sockets w)%nat ->
        handle (socket_on_data s data) w = (w, [connection_send c data]))
  /\ (forall (c : WsConnection) (message : IMessage),
        (c < connections w)%nat ->
        match binaryData message with
        | Some data =>
            handle (connection_on_message c message) w =
            (w, map (fun s => socket_write s data) (List.seq 0%nat (sockets w)))
            /\ forall s : Socket,
                 (s < sockets w)%nat ->
                 count (is_write_to s) (snd (handle (connection_on_message c message) w))
                 = 1%nat
        | None =>
            handle (connection_on_message c message) w =
            (w, if (0 <? sockets w)%nat then [socket_write_undefined 0%nat] else [])
            /\ forall s : Socket,
                 count (is_write_to s) (snd (handle (connection_on_message c message) w))
                 = 0%nat
        end).
Proof.
  intros w.
  assert (Hopen : _openSockets (this w) = List.seq 0%nat (sockets w)).
  { subst w. unfold session, Proxy.seq.
    destruct (startProxy (constructor host port user password)) as [w1 t1] eqn:E.
    pose proof (run_openSockets evs w1) as Hr.
    destruct (run evs w1) as [w2 t2]. apply Hr.
    unfold startProxy, constructor in E. handler. injection E as <- <-. reflexivity. }
  split; [exact Hopen|]. split.
  - intros c s data Hc Hs. unfold handle, guard.
    apply Nat.ltb_lt in Hs. rewrite Hs. unfold read. rewrite Hc. reflexivity.
  - intros c message Hc. apply Nat.ltb_lt in Hc.
    destruct (binaryData message) as [data|] eqn:Eb.
    + assert (Hmsg : handle (connection_on_message c message) w =
                     (w, map (fun s => socket_write s data) (List.seq 0%nat (sockets w)))).
      { unfold handle, guard. rewrite Hc. unfold write_openSockets, read.
        rewrite Eb, forEach_call, Hopen. reflexivity. }
      split; [exact Hmsg|]. intros s Hs. rewrite Hmsg. simpl snd. rewrite count_writes.
      apply Nat.ltb_lt in Hs. simpl. rewrite Hs. reflexivity.
    + assert (Hmsg : handle (connection_on_message c message) w =
                     (w, if (0 <? sockets w)%nat then [socket_write_undefined 0%nat] else [])).
      { unfold handle, guard. rewrite Hc. unfold write_openSockets, read.
        rewrite Eb, forEach_call, Hopen. destruct (sockets w); reflexivity. }
      split; [exact Hmsg|]. intros s. rewrite Hmsg. simpl snd.
      destruct (0 <? sockets w)%nat; reflexivity.
Qed.

(** C3 on a session with two sockets: a chunk goes upstream as it is, a
    binary message is written to both sockets, and a text message is
    written to neither. *)
Lemma relay_one_to_one_witness :
  let w := fst (session "app.scm.azurewebsites.net" 9229 "user" "secret"
                  [server_on_listening; wsclient_on_connect;
                   server_on_connection; server_on_connection]) in
  _wsconnection (this w) = Some 0%nat
  /\ handle (socket_on_data 0%nat [Byte.x01; Byte.x02]) w
     = (w, [connection_send 0%nat [Byte.x01; Byte.x02]])
  /\ handle (connection_on_message 0%nat
               {| utf8Data := None; binaryData := Some [Byte.x03] |}) w
     = (w, [socket_write 0%nat [Byte.x03]; socket_write 1%nat [Byte.x03]])
  /\ handle (connection_on_message 0%nat
               {| utf8Data := Some "ping"; binaryData := None |}) w
     = (w, [socket_write_undefined 0%nat]).
Proof.
  pose proof (relay_one_to_one "app.scm.azurewebsites.net" 9229 "user" "secret"
                [server_on_listening; wsclient_on_connect;
                 server_on_connection; server_on_connection]) as (_ & Hdata & Hmsg).
  split; [reflexivity|]. split; [|split].
  - apply Hdata; [reflexivity | simpl; lia].
  - apply (Hmsg 0%nat {| utf8Data := None; binaryData := Some [Byte.x03] |}). simpl; lia.
  - apply (Hmsg 0%nat {| utf8Data := Some "ping"; binaryData := None |}). simpl; lia.
Defined.

(** C10. A chunk that arrives on a socket while [_wsconnection] is
    undefined changes nothing and calls nothing: the session goes on
    exactly as if the chunk had never arrived, so the chunk is not
    sent later either. *)
Theorem data_without_upstream_is_dropped (host : string) (port : Z) (user password : string)
    (before after : list Event) (s : Socket) (data : Buffer) :
  _wsconnection (this (fst (session host port user password before))) = None ->
  handle (socket_on_data s data) (fst (session host port user password before))
  = (fst (session host port user password before), [])
  /\ session host port user password (before ++ socket_on_data s data :: after)
     = session host port user password (before ++ after).
Proof.
  intros Hnone.
  assert (Hdrop : forall w, _wsconnection (this w) = None ->
                            handle (socket_on_data s data) w = (w, [])).
  { intros w Hw. unfold handle, guard.
    destruct (s <? sockets w)%nat; [|reflexivity].
    unfold read. rewrite Hw. reflexivity. }
  split; [exact (Hdrop _ Hnone)|].
  unfold session, Proxy.seq in *.
  destruct (startProxy (constructor host port user password)) as [w1 t1].
  rewrite !run_app. destruct (run before w1) as [w2 t2]. simpl in Hnone.
  rewrite run_cons, (Hdrop w2 Hnone).
  destruct (run after w2) as [w3 t3]. reflexivity.
Qed.

Lemma data_without_upstream_is_dropped_witness :
  session "app.scm.azurewebsites.net" 9229 "user" "secret"
    ([server_on_listening; server_on_connection]
       ++ socket_on_data 0%nat [Byte.x01] :: [wsclient_on_connect])
  = session "app.scm.azurewebsites.net" 9229 "user" "secret"
      ([server_on_listening; server_on_connection] ++ [wsclient_on_connect]).
Proof.
  apply (data_without_upstream_is_dropped "app.scm.azurewebsites.net" 9229 "user" "secret"
           [server_on_listening; server_on_connection] [wsclient_on_connect]
           0%nat [Byte.x01]).
  reflexivity.
Defined.

End ProxyFacts.


(** ** One refresh in flight *)
Module RefreshFacts.
Import Kudu Refresh.
Local Open Scope nat_scope.
Local Open Scope list_scope.

Section Interleaving.
Variable Date_parse : string -> Z.
Variable Err : Type.


Lemma run_snoc (evs : list (Event Err)) (ev : Event Err) (w : World Err) :
  run Date_parse Err (evs ++ [ev]) w = step Date_parse Err (run Date_parse Err evs w) ev.
Proof. unfold Refresh.run. rewrite fold_left_app. reflexivity. Qed.

Lemma run_events_app (evs1 evs2 : list (Event Err)) (w : World Err) :
  run Date_parse Err (evs1 ++ evs2) w = run Date_parse Err evs2 (run Date_parse Err evs1 w).
Proof. unfold Refresh.run. apply fold_left_app. Qed.

Lemma owners_app (fs1 fs2 : list Frame) : owners (fs1 ++ fs2) = owners fs1 + owners fs2.
Proof. induction fs1 as [|fr fs1 IH]; simpl; [reflexivity|]. rewrite IH. lia. Qed.

Lemma owners_delete (fs : list Frame) (i : nat) (fr : Frame) :
  fs !! i = Some fr ->
  owners fs = (if owner fr then 1 else 0) + owners (delete i fs).
Proof.
  revert i. induction fs as [|fr' fs IH]; intros i Hi; [discriminate|].
  destruct i as [|i]; simpl in *.
  - injection Hi as ->. reflexivity.
  - rewrite (IH i Hi). lia.
Qed.

(** *** The task and its owner *)

Lemma step_task_has_owner (w : World Err) (ev : Event Err) :
  task_has_owner w -> task_has_owner (step Date_parse Err w ev).
Proof.
  unfold task_has_owner. intros Hw. destruct ev as [c m|task reply|i]; simpl.
  - assert (Hr : owners (frames (refreshEntries c m w))
                 = held (_refreshingTask (dir (refreshEntries c m w)))).
    { unfold refreshEntries. destruct (_refreshingTask (dir w)) eqn:E; simpl;
        rewrite owners_app, Hw; simpl; rewrite ?E; simpl; lia. }
    unfold invoke. destruct m; try exact Hr; destruct (_entries (dir w)); try exact Hr;
      exact Hw.
  - unfold respond. destruct (promises w !! task) as [[| |]|]; exact Hw.
  - unfold resume. destruct (frames w !! i) as [fr|] eqn:Ei; [|exact Hw].
    pose proof (owners_delete _ _ _ Ei) as Hd.
    destruct (promises w !! awaits fr) as [[| |]|]; try exact Hw; simpl;
      destruct (owner fr); simpl in *; destruct (_refreshingTask (dir w)); simpl in *; lia.
Qed.

Lemma run_task_has_owner (evs : list (Event Err)) (w : World Err) :
  task_has_owner w -> task_has_owner (run Date_parse Err evs w).
Proof.
  revert w. induction evs as [|ev evs IH]; intros w Hw; [exact Hw|].
  simpl. apply IH, step_task_has_owner, Hw.
Qed.

(** *** Reads only, no failure *)

Lemma agree_snoc (entries : Map) (rs : list (nat * Method * Outcome Err))
    (c : nat) (m : Method) :
  agree entries rs -> agree entries (rs ++ [(c, m, returned (finish m entries))]).
Proof. intros H. apply Forall_app. split; [exact H|]. repeat constructor. Qed.

Lemma step_one_refresh (entryPath : string) (w : World Err) (ev : Event Err) :
  is_read ev = true -> is_failure ev = false ->
  one_refresh entryPath w -> one_refresh entryPath (step Date_parse Err w ev).
Proof.
  intros Hread Hok [Hpath Hw].
  destruct w as [[p ents tk] proms lists frs res]. unfold one_refresh in *.
  simpl in Hpath, Hw. subst p.
  destruct proms as [|[|entries|e] [|? ?]]; try contradiction.
  - (* nothing happened yet *)
    destruct Hw as (-> & -> & -> & -> & ->).
    destruct ev as [c m|task reply|i]; simpl.
    + destruct m; [| |discriminate]; cbn; repeat split; auto.
    + unfold respond; cbn. destruct task; cbn; repeat split; auto.
    + unfold resume; cbn. repeat split; auto.
  - (* the refresh is under way *)
    destruct Hw as (-> & Hf & -> & -> & ->).
    destruct ev as [c m|task reply|i]; simpl.
    + destruct m; [| |discriminate]; cbn; repeat split; auto;
        (apply Forall_app; split; [exact Hf | repeat constructor]).
    + destruct reply as [e|fileList]; [discriminate|].
      unfold respond; cbn. destruct task as [|task]; cbn; repeat split; auto.
      constructor.
    + unfold resume; cbn. destruct (frs !! i) as [fr|] eqn:Ei; cbn; [|repeat split; auto].
      rewrite (proj1 (Forall_lookup _ _) Hf i fr Ei). cbn. repeat split; auto.
  - (* the reply has come *)
    destruct Hw as (-> & Hf & Hr & Hd).
    destruct ev as [c m|task reply|i]; simpl.
    + destruct m; [| |discriminate]; destruct Hd as [[-> ->]|[-> ->]]; cbn;
        repeat split; auto;
        try (apply Forall_app; split; [exact Hf | repeat constructor]);
        try (apply agree_snoc; exact Hr).
    + unfold respond; cbn. destruct task as [|[|task]]; cbn; repeat split; auto.
    + unfold resume; cbn. destruct (frs !! i) as [fr|] eqn:Ei; cbn; [|repeat split; auto].
      rewrite (proj1 (Forall_lookup _ _) Hf i fr Ei). cbn.
      split; [destruct (owner fr); reflexivity|].
      split; [reflexivity|]. split; [apply Forall_delete; exact Hf|].
      split; [apply agree_snoc; exact Hr|].
      destruct (owner fr); cbn; [right; split; reflexivity | exact Hd].
Qed.

Lemma run_one_refresh (entryPath : string) (evs : list (Event Err)) (w : World Err) :
  forallb is_read evs = true -> forallb (fun ev => negb (is_failure ev)) evs = true ->
  one_refresh entryPath w -> one_refresh entryPath (run Date_parse Err evs w).
Proof.
  revert w. induction evs as [|ev evs IH]; intros w Hread Hok Hw; [exact Hw|].
  simpl in Hread, Hok. apply andb_prop in Hread as [Hr1 Hr2].
  apply andb_prop in Hok as [Ho1 Ho2]. apply negb_true_iff in Ho1.
  simpl. apply IH; [exact Hr2 | exact Ho2|]. apply step_one_refresh; assumption.
Qed.

Lemma step_started (w : World Err) (ev : Event Err) :
  promises w <> [] -> promises (step Date_parse Err w ev) <> [].
Proof.
  intros Hw. destruct ev as [c m|task reply|i]; simpl.
  - unfold invoke, refreshEntries.
    destruct m; destruct (_entries (dir w)); destruct (_refreshingTask (dir w)); simpl;
      try exact Hw; destruct (promises w); try discriminate; contradiction.
  - unfold respond. destruct (promises w !! task) as [[| |]|]; try exact Hw. simpl.
    intros Hnil. apply Hw. apply (f_equal (@List.length _)) in Hnil.
    rewrite length_insert in Hnil. destruct (promises w); [reflexivity | discriminate].
  - unfold resume. destruct (frames w !! i); [|exact Hw].
    destruct (promises w !! awaits f) as [[| |]|]; exact Hw.
Qed.

Lemma run_started (evs : list (Event Err)) (w : World Err) :
  promises w <> [] -> promises (run Date_parse Err evs w) <> [].
Proof.
  revert w. induction evs as [|ev evs IH]; intros w Hw; [exact Hw|].
  simpl. apply IH, step_started, Hw.
Qed.

Lemma call_started (entryPath : string) (c : nat) (m : Method) (w : World Err) :
  one_refresh entryPath w -> promises (invoke c m w) <> [].
Proof.
  intros [_ Hw]. unfold invoke, refreshEntries.
  destruct (promises w) as [|pr prs] eqn:Ep.
  - destruct Hw as (_ & _ & _ & -> & ->). destruct m; simpl; discriminate.
  - destruct m; destruct (_entries (dir w)); destruct (_refreshingTask (dir w)); simpl;
      discriminate.
Qed.

Lemma run_some_call (entryPath : string) (evs : list (Event Err)) (w : World Err) :
  forallb is_read evs = true -> forallb (fun ev => negb (is_failure ev)) evs = true ->
  existsb is_call evs = true ->
  one_refresh entryPath w -> promises (run Date_parse Err evs w) <> [].
Proof.
  revert w. induction evs as [|ev evs IH]; intros w Hread Hok Hcall Hw; [discriminate|].
  simpl in Hread, Hok, Hcall. apply andb_prop in Hread as [Hr1 Hr2].
  apply andb_prop in Hok as [Ho1 Ho2]. apply negb_true_iff in Ho1.
  simpl. destruct ev as [c m|task reply|i]; simpl in Hcall.
  - apply run_started. simpl. eapply call_started, Hw.
  - apply IH; try assumption. apply step_one_refresh; assumption.
  - apply IH; try assumption. apply step_one_refresh; assumption.
Qed.

Lemma step_path (w : World Err) (ev : Event Err) :
  dir_entryPath (dir (step Date_parse Err w ev)) = dir_entryPath (dir w).
Proof.
  destruct ev as [c m|task reply|i]; simpl.
  - unfold invoke, refreshEntries.
    destruct m; destruct (_entries (dir w)); destruct (_refreshingTask (dir w)); reflexivity.
  - unfold respond. destruct (promises w !! task) as [[| |]|]; reflexivity.
  - unfold resume. destruct (frames w !! i); [|reflexivity].
    destruct (promises w !! awaits f) as [[| |]|]; try reflexivity;
      destruct (owner f); reflexivity.
Qed.

Lemma run_path (evs : list (Event Err)) (w : World Err) :
  dir_entryPath (dir (run Date_parse Err evs w)) = dir_entryPath (dir w).
Proof.
  revert w. induction evs as [|ev evs IH]; intros w; [reflexivity|].
  simpl. rewrite IH. apply step_path.
Qed.

(** *** The callers of one refresh, in the order of their calls *)

Lemma run_calls_waiting (n c task : nat) (w : World Err) :
  _entries (dir w) = None -> _refreshingTask (dir w) = Some task ->
  run Date_parse Err (calls c n) w
  = {| dir := dir w; promises := promises w; listings := listings w;
       frames := frames w ++ map (waiter task) (List.seq c n);
       results := results w |}.
Proof.
  revert c w. induction n as [|n IH]; intros c w He Ht; simpl.
  - rewrite app_nil_r. destruct w; reflexivity.
  - unfold invoke, refreshEntries at 1. rewrite He, Ht.
    rewrite IH by (simpl; assumption). simpl. rewrite <- app_assoc. reflexivity.
Qed.

Lemma run_resumes (entries : Map) (fs : list Frame) (w : World Err) :
  promises w = [fulfilled entries] -> Forall (fun fr => awaits fr = 0) fs ->
  frames w = fs ->
  run Date_parse Err (repeat (ev_resume 0) (List.length fs)) w
  = {| dir := if existsb owner fs then stored (dir_entryPath (dir w)) entries else dir w;
       promises := promises w; listings := listings w; frames := [];
       results := results w
                  ++ map (fun fr => (caller fr, method fr,
                                      returned (finish (method fr) entries))) fs |}.
Proof.
  revert w. induction fs as [|fr fs IH]; intros w Hp Hf Hfs; simpl.
  - rewrite app_nil_r. destruct w; simpl in *; subst; reflexivity.
  - apply Forall_cons in Hf as [Hfr Hf].
    unfold resume at 1. rewrite Hfs. simpl. rewrite Hfr, Hp. simpl.
    rewrite IH by (simpl; auto). simpl. rewrite <- app_assoc. simpl.
    destruct (owner fr); simpl; [|reflexivity].
    destruct (existsb owner fs); reflexivity.
Qed.


End Interleaving.


End RefreshFacts.


(** ** The file-system provider *)
Module FSFacts.
Import Kudu FS.
Local Open Scope list_scope.

Section Provider.
Variable H : Host.

(** *** Read-only mode *)

(** C6. A read-only provider answers [writeFile], [delete] and
    [createDirectory] with [NoPermissions] and leaves the world as it
    was: nothing is added to the trace, so no call was made on any
    collaborator. *)
Theorem readonly_fails_before_any_call (w : World H) (uri : Uri) (content : Buffer)
    (options : bool * bool) (recursive : bool) :
  _readonly H w = true ->
  writeFile H uri content options w
  = (inl (NoPermissions H "Cannot modify in read-only mode."), w)
  /\ delete H uri recursive w
     = (inl (NoPermissions H "Cannot modify in read-only mode."), w)
  /\ createDirectory H uri w
     = (inl (NoPermissions H "Cannot modify in read-only mode."), w).
Proof.
  intros Hro. unfold writeFile, delete, createDirectory, bind, get.
  rewrite Hro. repeat split.
Qed.

(** C8, as the code has it: [rename] calls nothing and changes
    nothing; it fails with [NoPermissions] on a read-only provider and
    with the plain error "Method not implemented." otherwise. *)
Theorem rename_fails (w : World H) (oldUri newUri : Uri) (overwrite : bool) :
  rename H oldUri newUri overwrite w
  = (inl (if _readonly H w
          then NoPermissions H "Cannot modify in read-only mode."
          else JsError H "Method not implemented."), w).
Proof. unfold rename, bind, get. destruct (_readonly H w); reflexivity. Qed.

(** *** Resolving the address *)

Lemma parse_malformed (uri : Uri) (w : World H) :
  UriPattern.matches (uri_path uri) = None ->
  parseAppServiceUri H uri w = (inl (FileNotFound H (the_uri uri)), w).
Proof. intros Hm. unfold parseAppServiceUri. rewrite Hm. reflexivity. Qed.

Lemma parse_unresolved (uri : Uri) (w : World H) (siteId entryPath : string)
    (remote' : Remote H) :
  UriPattern.matches (uri_path uri) = Some (siteId, entryPath) ->
  findNode H siteId (remote H w) = (inr None, remote') ->
  parseAppServiceUri H uri w
  = (inl (Unavailable H (the_uri uri)), after_findNode w siteId remote').
Proof.
  intros Hm Hf. unfold parseAppServiceUri. rewrite Hm. unfold bind, await.
  rewrite Hf. reflexivity.
Qed.

Lemma parse_resolved (uri : Uri) (w : World H) (siteId entryPath : string)
    (client : SiteClient H) (remote' : Remote H) :
  UriPattern.matches (uri_path uri) = Some (siteId, entryPath) ->
  findNode H siteId (remote H w) = (inr (Some client), remote') ->
  parseAppServiceUri H uri w = (inr (client, entryPath), after_findNode w siteId remote').
Proof.
  intros Hm Hf. unfold parseAppServiceUri. rewrite Hm. unfold bind, await.
  rewrite Hf. reflexivity.
Qed.

(** When the address does not resolve, the operation ends there. *)
Lemma parse_failure (w w' : World H) (uri : Uri) (e : Error H) (content : Buffer)
    (options : bool * bool) (recursive : bool) :
  parseAppServiceUri H uri w = (inl e, w') ->
  stat H uri w = (inl e, w')
  /\ readDirectory H uri w = (inl e, w')
  /\ readFile H uri w = (inl e, w')
  /\ (_readonly H w = false ->
      writeFile H uri content options w = (inl e, w')
      /\ createDirectory H uri w = (inl e, w')
      /\ delete H uri recursive w = (inl e, w')).
Proof.
  intros Hp. unfold stat, readDirectory, readFile, writeFile, createDirectory, delete.
  unfold bind, get. rewrite Hp.
  split; [reflexivity|]. split; [reflexivity|]. split; [reflexivity|].
  intros Hro. rewrite Hro, Hp. repeat split.
Qed.

Lemma resolving_parse_failure (w w' : World H) (uri : Uri) (e : Error H) (content : Buffer)
    (options : bool * bool) (recursive : bool) :
  parseAppServiceUri H uri w = (inl e, w') ->
  Forall (fun o => o = Some e) (resolving w uri content options recursive).
Proof.
  intros Hp.
  destruct (parse_failure w w' uri e content options recursive Hp) as (H1 & H2 & H3 & H4).
  unfold resolving, failure. rewrite H1, H2, H3.
  destruct (_readonly H w); [repeat constructor|].
  destruct (H4 eq_refl) as (H5 & H6 & H7). rewrite H5, H6, H7. repeat constructor.
Qed.

(** C9, as the code has it: every operation that resolves its address
    fails with [FileNotFound] when the path does not match the pattern
    of a site identifier, and with [Unavailable] when it matches but the
    tree has no node for the site. *)
Theorem unresolved_address_fails (w : World H) (uri : Uri) (content : Buffer)
    (options : bool * bool) (recursive : bool) :
  (UriPattern.matches (uri_path uri) = None ->
   Forall (fun o => o = Some (FileNotFound H (the_uri uri)))
     (resolving w uri content options recursive))
  /\ (forall siteId entryPath remote',
        UriPattern.matches (uri_path uri) = Some (siteId, entryPath) ->
        findNode H siteId (remote H w) = (inr None, remote') ->
        Forall (fun o => o = Some (Unavailable H (the_uri uri)))
          (resolving w uri content options recursive)).
Proof.
  split.
  - intros Hm. eapply resolving_parse_failure, parse_malformed, Hm.
  - intros siteId entryPath remote' Hm Hf.
    eapply resolving_parse_failure, parse_unresolved; eassumption.
Qed.

(** *** Refreshing after the remote change *)

Lemma keeps_cached_refl (h : list Entry) : keeps_cached h h.
Proof. intros d f entries Hd. exact Hd. Qed.

Lemma keeps_cached_trans (h1 h2 h3 : list Entry) :
  keeps_cached h1 h2 -> keeps_cached h2 h3 -> keeps_cached h1 h3.
Proof. intros H12 H23 d f entries Hd. apply H23, H12, Hd. Qed.

Lemma keeps_cached_app (h extra : list Entry) : keeps_cached h (h ++ extra).
Proof. intros d f entries Hd. apply lookup_app_l_Some. exact Hd. Qed.

Lemma Tame_refl (w : World H) : Tame w w [].
Proof.
  unfold Tame. rewrite app_nil_r. repeat split. apply keeps_cached_refl.
Qed.

Lemma Tame_trans (w1 w2 w3 : World H) (t1 t2 : list Effect) :
  Tame w1 w2 t1 -> Tame w2 w3 t2 -> Tame w1 w3 (t1 ++ t2).
Proof.
  intros (Ht1 & Hq1 & Hk1 & He1 & Hr1) (Ht2 & Hq2 & Hk2 & He2 & Hr2).
  unfold Tame. rewrite Ht2, Ht1, app_assoc, forallb_app, Hq1, Hq2, He2, He1, Hr2, Hr1.
  repeat split. eapply keeps_cached_trans; eassumption.
Qed.

Lemma tame_ret {A : Type} (a : A) : tame (ret H a).
Proof. intros w. exists []. apply Tame_refl. Qed.

Lemma tame_throw {A : Type} (e : Error H) : tame (@throw H A e).
Proof. intros w. exists []. apply Tame_refl. Qed.

Lemma tame_get {A : Type} (field : World H -> A) : tame (get H field).
Proof. intros w. exists []. apply Tame_refl. Qed.

Lemma tame_bind {A B : Type} (m : M H A) (k : A -> M H B) :
  tame m -> (forall a, tame (k a)) -> tame (bind H m k).
Proof.
  intros Hm Hk w. unfold bind. destruct (Hm w) as [t1 H1].
  destruct (m w) as [[e|a] w1]; simpl in *.
  - exists t1. exact H1.
  - destruct (Hk a w1) as [t2 H2]. exists (t1 ++ t2). eapply Tame_trans; eassumption.
Qed.

Lemma tame_await {A : Type} (c : Call) (f : Remote H -> (Failure H + A) * Remote H) :
  is_mutation c = false -> tame (await H c f).
Proof.
  intros Hc w. unfold await. destruct (f (remote H w)) as [r remote'].
  exists [called c (match r with inl _ => false | inr _ => true end)].
  destruct r; simpl; unfold Tame; simpl; rewrite Hc; repeat split; apply keeps_cached_refl.
Qed.

Lemma tame_new (e : Entry) : tame (new H e).
Proof.
  intros w. exists []. unfold Tame; simpl. rewrite app_nil_r. repeat split.
  apply keeps_cached_app.
Qed.

Lemma tame_with_roots (f : gmap string nat -> gmap string nat) : tame (with_roots H f).
Proof.
  intros w. exists []. unfold Tame; simpl. rewrite app_nil_r. repeat split.
  apply keeps_cached_refl.
Qed.

Lemma tame_collect (fileList : list kuduFile) (entries : JsMap.t nat) :
  tame (collect H fileList entries).
Proof.
  revert entries. induction fileList as [|file fileList IH]; intros entries; simpl.
  - apply tame_ret.
  - apply tame_bind; [|intros entry; apply IH].
    destruct (String.eqb (mime file) "inode/directory"); apply tame_new.
Qed.

Lemma tame_actuallyRefreshEntries (kuduClient : KuduClient H) (f : File) :
  tame (actuallyRefreshEntries H kuduClient f).
Proof.
  unfold actuallyRefreshEntries. apply tame_bind.
  - apply tame_await. reflexivity.
  - intros fileList. apply tame_collect.
Qed.

(** A refresh of a directory that has no entries yet. *)
Lemma refreshEntries_first (kuduClient : KuduClient H) (d : nat) (w : World H) :
  entries_of_object (heap H w) d = None ->
  exists t, Tame w (snd (refreshEntries H kuduClient d w)) t.
Proof.
  intros Hnone. unfold refreshEntries, bind at 1, get. simpl.
  unfold entries_of_object in Hnone.
  destruct (heap H w !! d) as [[f|f before]|] eqn:Ed;
    try (exists []; apply Tame_refl).
  subst before. unfold bind at 1.
  destruct (tame_actuallyRefreshEntries kuduClient f w) as [t1 H1].
  destruct (actuallyRefreshEntries H kuduClient f w) as [[e|result] w1]; simpl in *.
  - exists t1. exact H1.
  - exists (t1 ++ [entries_assigned d None]).
    destruct H1 as (Ht1 & Hq1 & Hk1 & He1 & Hr1).
    unfold bind, with_heap, record, ret, Tame; simpl.
    rewrite Ht1, app_assoc, forallb_app, Hq1, He1, Hr1. repeat split.
    intros d' f' entries' Hd'.
    destruct (decide (d = d')) as [<-|Hne]; [congruence|].
    rewrite list_lookup_insert_ne by exact Hne. apply Hk1, Hd'.
Qed.

Lemma tame_getEntry (kuduClient : KuduClient H) (d : nat) (name : string) :
  tame (getEntry H kuduClient d name).
Proof.
  intros w. unfold getEntry, bind at 1, get. simpl.
  destruct (entries_of_object (heap H w) d) as [entries|] eqn:E.
  - exists []. apply Tame_refl.
  - destruct (refreshEntries_first kuduClient d w E) as [t Ht]. exists t.
    unfold bind. destruct (refreshEntries H kuduClient d w) as [[e|entries] w1]; exact Ht.
Qed.

Lemma tame_walk (kuduClient : KuduClient H) (siteId : string) (parts : list string)
    (entry : nat) :
  tame (walk H kuduClient siteId parts entry).
Proof.
  revert entry. induction parts as [|part parts IH]; intros entry; simpl.
  - apply tame_ret.
  - destruct (JsString.falsy part); [apply IH|].
    apply tame_bind; [apply tame_get|]. intros store.
    apply tame_bind.
    + destruct (instanceof_Directory store entry); [apply tame_getEntry | apply tame_ret].
    + intros [c|]; [apply IH | apply tame_throw].
Qed.

Lemma tame_lookup (siteClient : SiteClient H) (entryPath : string) :
  tame (lookup H siteClient entryPath).
Proof.
  unfold lookup. apply tame_bind; [apply tame_await; reflexivity|]. intros kuduClient.
  apply tame_bind; [apply tame_get|]. intros roots.
  apply tame_bind; [|intros root; apply tame_walk].
  destruct (roots !! site_id H siteClient); [apply tame_ret|].
  apply tame_bind; [apply tame_new|]. intros root.
  apply tame_bind; [apply tame_with_roots|]. intros _. apply tame_ret.
Qed.

Lemma tame_parseAppServiceUri (uri : Uri) : tame (parseAppServiceUri H uri).
Proof.
  unfold parseAppServiceUri.
  destruct (UriPattern.matches (uri_path uri)) as [[siteId entryPath]|]; [|apply tame_throw].
  apply tame_bind; [apply tame_await; reflexivity|].
  intros [client|]; [apply tame_ret | apply tame_throw].
Qed.

(** *** Effects of the whole operations *)

Lemma extends_of_tame {A : Type} (m : M H A) : tame m -> extends m.
Proof. intros Hm w. destruct (Hm w) as [t (Ht & _)]. exists t. exact Ht. Qed.

Lemma extends_bind {A B : Type} (m : M H A) (k : A -> M H B) :
  extends m -> (forall a, extends (k a)) -> extends (bind H m k).
Proof.
  intros Hm Hk w. unfold bind. destruct (Hm w) as [t1 H1].
  destruct (m w) as [[e|a] w1]; simpl in *.
  - exists t1. exact H1.
  - destruct (Hk a w1) as [t2 H2]. exists (t1 ++ t2). rewrite H2, H1, app_assoc. reflexivity.
Qed.

Lemma extends_ret {A : Type} (a : A) : extends (ret H a).
Proof. apply extends_of_tame, tame_ret. Qed.

Lemma extends_with_heap (f : list Entry -> list Entry) : extends (with_heap H f).
Proof. intros w. exists []. simpl. rewrite app_nil_r. reflexivity. Qed.

Lemma extends_with_etags (f : gmap string string -> gmap string string) :
  extends (with_etags H f).
Proof. intros w. exists []. simpl. rewrite app_nil_r. reflexivity. Qed.

Lemma extends_record (e : Effect) : extends (record H e).
Proof. intros w. exists [e]. reflexivity. Qed.

Lemma extends_refreshEntries (kuduClient : KuduClient H) (d : nat) :
  extends (refreshEntries H kuduClient d).
Proof.
  unfold refreshEntries. apply extends_bind; [apply extends_of_tame, tame_get|].
  intros store. destruct (store !! d) as [[f|f before]|];
    try (apply extends_of_tame, tame_throw).
  apply extends_bind; [apply extends_of_tame, tame_actuallyRefreshEntries|]. intros result.
  apply extends_bind; [apply extends_with_heap|]. intros _.
  apply extends_bind; [apply extends_record|]. intros _. apply extends_ret.
Qed.

Lemma extends_refresh_parent (siteClient : SiteClient H) (entryPath : string) :
  extends (refresh_parent H siteClient entryPath).
Proof.
  unfold refresh_parent. apply extends_bind; [apply extends_of_tame, tame_lookup|].
  intros parent. apply extends_bind; [apply extends_of_tame, tame_await; reflexivity|].
  intros kuduClient. apply extends_bind; [apply extends_refreshEntries|].
  intros _. apply extends_ret.
Qed.

Lemma check_true (t : list Effect) : check true t = true.
Proof. induction t as [|[c ok|d [before|]] t IH]; simpl; auto. Qed.

Lemma check_quiet_app (armed : bool) (t1 t2 : list Effect) :
  forallb quiet t1 = true -> check armed (t1 ++ t2) = check armed t2.
Proof.
  induction t1 as [|[c ok|d [before|]] t1 IH]; simpl; intros Hq; auto; try discriminate.
  apply andb_prop in Hq as [Hc Hq]. apply negb_true_iff in Hc.
  rewrite Hc. simpl. rewrite orb_false_r. auto.
Qed.

Lemma mutated_quiet (t : list Effect) : forallb quiet t = true -> mutated t = false.
Proof.
  unfold mutated. induction t as [|[c ok|d [before|]] t IH]; simpl; intros Hq; auto;
    try discriminate.
  apply andb_prop in Hq as [Hc Hq]. apply negb_true_iff in Hc. rewrite Hc. simpl. auto.
Qed.

(** What [check] guarantees, said with positions in the trace. *)
Lemma check_sound (t : list Effect) (armed : bool) :
  check armed t = true ->
  forall pre d before post,
    t = pre ++ entries_assigned d (Some before) :: post ->
    armed = true \/ exists c, is_mutation c = true /\ In (called c true) pre.
Proof.
  revert armed. induction t as [|e t IH]; intros armed Hc pre d before post Ht.
  - destruct pre; discriminate.
  - destruct pre as [|e' pre]; simpl in Ht; injection Ht as -> Ht.
    + simpl in Hc. apply andb_prop in Hc as [-> _]. left. reflexivity.
    + destruct e' as [c ok|d' [before'|]]; simpl in Hc.
      * destruct (IH _ Hc pre d before post Ht) as [Harmed|(c' & Hm & Hin)].
        -- apply orb_prop in Harmed as [->|Hs]; [left; reflexivity|].
           apply andb_prop in Hs as [Hm ->]. right. exists c. split; [exact Hm|].
           left. reflexivity.
        -- right. exists c'. split; [exact Hm | right; exact Hin].
      * apply andb_prop in Hc as [-> _]. left. reflexivity.
      * destruct (IH _ Hc pre d before post Ht) as [->|(c' & Hm & Hin)];
          [left; reflexivity|].
        right. exists c'. split; [exact Hm | right; exact Hin].
Qed.

Lemma guarded_of_tame {A : Type} (m : M H A) : tame m -> guarded m.
Proof.
  intros Hm w. destruct (Hm w) as [t (Ht & Hq & Hk & _)]. exists t.
  split; [exact Ht|]. split; [|intros _; exact Hk].
  rewrite <- (app_nil_r t), check_quiet_app by exact Hq. reflexivity.
Qed.

Lemma guarded_bind {A B : Type} (m : M H A) (k : A -> M H B) :
  tame m -> (forall a, guarded (k a)) -> guarded (bind H m k).
Proof.
  intros Hm Hk w. unfold bind. destruct (Hm w) as [t1 (Ht1 & Hq1 & Hk1 & _)].
  destruct (m w) as [[e|a] w1]; simpl in *.
  - exists t1. split; [exact Ht1|]. split; [|intros _; exact Hk1].
    rewrite <- (app_nil_r t1), check_quiet_app by exact Hq1. reflexivity.
  - destruct (Hk a w1) as [t2 (Ht2 & Hc2 & Hk2)]. exists (t1 ++ t2).
    split; [rewrite Ht2, Ht1, app_assoc; reflexivity|].
    split; [rewrite check_quiet_app by exact Hq1; exact Hc2|].
    unfold mutated in *. rewrite existsb_app. intros Hmut.
    apply orb_false_elim in Hmut as [_ Hmut].
    eapply keeps_cached_trans; [exact Hk1 | exact (Hk2 Hmut)].
Qed.

(** The call that changes the remote host, and what follows it. *)
Lemma guarded_mutation {A B : Type} (c : Call)
    (f : Remote H -> (Failure H + A) * Remote H) (k : A -> M H B) :
  is_mutation c = true -> (forall a, extends (k a)) -> guarded (bind H (await H c f) k).
Proof.
  intros Hc Hk w. unfold bind, await. destruct (f (remote H w)) as [[e|a] remote'].
  - exists [called c false]. unfold Guarded; simpl. rewrite Hc. repeat split.
    intros _. apply keeps_cached_refl.
  - match goal with |- context [k a ?w1] => destruct (Hk a w1) as [t2 Ht2] end.
    exists (called c true :: t2). unfold Guarded, mutated; simpl. rewrite Hc. simpl.
    split; [rewrite Ht2; simpl; rewrite <- app_assoc; reflexivity|].
    split; [apply check_true | discriminate].
Qed.

Lemma guarded_writeFile (uri : Uri) (content : Buffer) (options : bool * bool) :
  guarded (writeFile H uri content options).
Proof.
  unfold writeFile. apply guarded_bind; [apply tame_get|]. intros [|].
  { apply guarded_of_tame, tame_throw. }
  apply guarded_bind; [apply tame_parseAppServiceUri|]. intros [siteClient entryPath].
  apply guarded_bind; [apply tame_get|]. intros etags.
  apply guarded_mutation; [reflexivity|]. intros etag.
  apply extends_bind; [apply extends_with_etags|]. intros _. apply extends_refresh_parent.
Qed.

Lemma guarded_createDirectory (uri : Uri) : guarded (createDirectory H uri).
Proof.
  unfold createDirectory. apply guarded_bind; [apply tame_get|]. intros [|].
  { apply guarded_of_tame, tame_throw. }
  apply guarded_bind; [apply tame_parseAppServiceUri|]. intros [siteClient entryPath].
  apply guarded_mutation; [reflexivity|]. intros _. apply extends_refresh_parent.
Qed.

Lemma guarded_delete (uri : Uri) (recursive : bool) : guarded (delete H uri recursive).
Proof.
  unfold delete. apply guarded_bind; [apply tame_get|]. intros [|].
  { apply guarded_of_tame, tame_throw. }
  apply guarded_bind; [apply tame_parseAppServiceUri|]. intros [siteClient entryPath].
  apply guarded_bind; [apply tame_lookup|]. intros entry.
  apply guarded_bind; [apply tame_get|]. intros store.
  apply guarded_bind.
  { destruct (type_of store entry); [|apply tame_ret].
    apply tame_bind; [apply tame_await; reflexivity|]. intros result. apply tame_ret. }
  intros etag. apply guarded_bind; [apply tame_await; reflexivity|]. intros kuduClient.
  apply guarded_mutation; [reflexivity|]. intros _. apply extends_refresh_parent.
Qed.

Lemma check_strict_true (t : list Effect) : check_strict true t = true.
Proof. induction t as [|e t IH]; simpl; auto. Qed.

Lemma check_strict_sound (t : list Effect) (armed : bool) :
  check_strict armed t = true ->
  forall pre e post,
    t = pre ++ e :: post -> is_refresh e = true ->
    armed = true \/ exists c, is_mutation c = true /\ In (called c true) pre.
Proof.
  revert armed. induction t as [|e' t IH]; intros armed Hc pre e post Ht He.
  - destruct pre; discriminate.
  - simpl in Hc. apply andb_prop in Hc as [Hhere Hrest].
    destruct pre as [|e'' pre]; simpl in Ht; injection Ht as -> Ht.
    + rewrite He in Hhere. simpl in Hhere. rewrite orb_false_r in Hhere. left. exact Hhere.
    + destruct (IH _ Hrest pre e post Ht He) as [Harmed|(c & Hm & Hin)].
      * apply orb_prop in Harmed as [->|Hs]; [left; reflexivity|]. right.
        destruct e'' as [c ok|d before]; [|discriminate]. simpl in Hs.
        apply andb_prop in Hs as [Hm ->]. exists c. split; [exact Hm | left; reflexivity].
      * right. exists c. split; [exact Hm | right; exact Hin].
Qed.

(** In [writeFile] and [createDirectory] only the address is resolved
    before [putFile]. *)
Lemma strict_after_parse {B : Type} (uri : Uri) (k : SiteClient H * string -> M H B)
    (w : World H) :
  (forall parsed w1, exists t, trace H (snd (k parsed w1)) = trace H w1 ++ t
                               /\ check_strict false t = true) ->
  exists t, trace H (snd (bind H (parseAppServiceUri H uri) k w)) = trace H w ++ t
            /\ check_strict false t = true.
Proof.
  intros Hk. unfold bind at 1, parseAppServiceUri.
  destruct (UriPattern.matches (uri_path uri)) as [[siteId entryPath]|];
    [|exists []; simpl; rewrite app_nil_r; split; reflexivity].
  unfold bind, await, ret, throw.
  destruct (findNode H siteId (remote H w)) as [[e|[client|]] remote1]; simpl;
    try (eexists [_]; simpl; split; reflexivity).
  match goal with |- context [k ?p ?w1] => destruct (Hk p w1) as [t (Ht & Hc)] end.
  exists (called (call_findNode siteId) true :: t). simpl.
  split; [rewrite Ht; simpl; rewrite <- app_assoc; reflexivity | exact Hc].
Qed.

Lemma strict_mutation {A B : Type} (c : Call)
    (f : Remote H -> (Failure H + A) * Remote H) (k : A -> M H B) (w : World H) :
  is_mutation c = true -> (forall a, extends (k a)) ->
  exists t, trace H (snd (bind H (await H c f) k w)) = trace H w ++ t
            /\ check_strict false t = true.
Proof.
  intros Hc Hk. unfold bind, await. destruct (f (remote H w)) as [[e|a] remote'].
  - exists [called c false]. simpl. destruct c; try discriminate; split; reflexivity.
  - match goal with |- context [k a ?w1] => destruct (Hk a w1) as [t2 Ht2] end.
    exists (called c true :: t2). simpl. rewrite Hc. simpl.
    split; [rewrite Ht2; simpl; rewrite <- app_assoc; reflexivity|].
    rewrite check_strict_true. destruct c; try discriminate; reflexivity.
Qed.

Lemma strict_writeFile (uri : Uri) (content : Buffer) (options : bool * bool) (w : World H) :
  exists t, trace H (snd (writeFile H uri content options w)) = trace H w ++ t
            /\ check_strict false t = true.
Proof.
  unfold writeFile, bind at 1, get. simpl.
  destruct (_readonly H w); [exists []; simpl; rewrite app_nil_r; split; reflexivity|].
  apply strict_after_parse. intros [siteClient entryPath] w1.
  unfold bind at 1, get. simpl.
  apply strict_mutation; [reflexivity|]. intros etag.
  apply extends_bind; [apply extends_with_etags|]. intros _. apply extends_refresh_parent.
Qed.

Lemma strict_createDirectory (uri : Uri) (w : World H) :
  exists t, trace H (snd (createDirectory H uri w)) = trace H w ++ t
            /\ check_strict false t = true.
Proof.
  unfold createDirectory, bind at 1, get. simpl.
  destruct (_readonly H w); [exists []; simpl; rewrite app_nil_r; split; reflexivity|].
  apply strict_after_parse. intros [siteClient entryPath] w1.
  apply strict_mutation; [reflexivity|]. intros _. apply extends_refresh_parent.
Qed.

(** *** The refresh that follows the remote change *)

Lemma bind_inr {A B : Type} (m : M H A) (k : A -> M H B) (w w' : World H) (b : B) :
  bind H m k w = (inr b, w') -> exists a w1, m w = (inr a, w1) /\ k a w1 = (inr b, w').
Proof.
  unfold bind. destruct (m w) as [[e|a] w1]; [discriminate|]. intros Hk. exists a, w1.
  split; [reflexivity | exact Hk].
Qed.

Lemma await_inr {A : Type} (c : Call) (f : Remote H -> (Failure H + A) * Remote H)
    (w w' : World H) (a : A) :
  await H c f w = (inr a, w') ->
  exists remote',
    f (remote H w) = (inr a, remote')
    /\ w' = {| _readonly := _readonly H w; _etags := _etags H w; _roots := _roots H w;
               heap := heap H w; remote := remote';
               trace := trace H w ++ [called c true] |}.
Proof.
  unfold await. destruct (f (remote H w)) as [[e|a'] remote']; [discriminate|].
  intros Heq. injection Heq as <- <-. exists remote'. split; reflexivity.
Qed.

Lemma parse_inr (uri : Uri) (w w' : World H) (siteClient : SiteClient H)
    (entryPath : string) :
  parseAppServiceUri H uri w = (inr (siteClient, entryPath), w') ->
  exists siteId, UriPattern.matches (uri_path uri) = Some (siteId, entryPath).
Proof.
  unfold parseAppServiceUri.
  destruct (UriPattern.matches (uri_path uri)) as [[siteId path]|]; [|discriminate].
  intros Hp. exists siteId. apply bind_inr in Hp as ([client|] & w1 & _ & Hk);
    [|discriminate].
  unfold ret in Hk. congruence.
Qed.

Lemma refreshEntries_inr (kuduClient : KuduClient H) (d : nat) (w w' : World H)
    (result : JsMap.t nat) :
  refreshEntries H kuduClient d w = (inr result, w') -> listed_and_stored kuduClient d w w'.
Proof.
  unfold refreshEntries, bind at 1, get. cbn [fst snd].
  destruct (heap H w !! d) as [[f|f before]|] eqn:Ed; try discriminate.
  intros Hr. apply bind_inr in Hr as (result' & w1 & Hlist & Hk).
  unfold bind, with_heap, record, ret in Hk. cbn in Hk. injection Hk as <- <-.
  exists f, before, result', w1. split; [exact Ed|]. split; [exact Hlist | reflexivity].
Qed.

Lemma refresh_parent_inr (siteClient : SiteClient H) (entryPath : string) (w0 w' : World H) :
  refresh_parent H siteClient entryPath w0 = (inr tt, w') ->
  exists parent w1 kuduClient remote2,
    lookup H siteClient (dirname H entryPath) w0 = (inr parent, w1)
    /\ getKuduClient H siteClient (remote H w1) = (inr kuduClient, remote2)
    /\ listed_and_stored kuduClient parent
         {| _readonly := _readonly H w1; _etags := _etags H w1; _roots := _roots H w1;
            heap := heap H w1; remote := remote2;
            trace := trace H w1 ++ [called (call_getKuduClient (site_id H siteClient)) true] |}
         w'.
Proof.
  unfold refresh_parent. intros Hr.
  apply bind_inr in Hr as (parent & w1 & Hlookup & Hr).
  apply bind_inr in Hr as (kuduClient & w2 & Hk & Hr).
  apply await_inr in Hk as (remote2 & Hk & ->).
  apply bind_inr in Hr as (result & w3 & Hrefresh & Hret).
  unfold ret in Hret. injection Hret as <-.
  exists parent, w1, kuduClient, remote2. split; [exact Hlookup|]. split; [exact Hk|].
  eapply refreshEntries_inr, Hrefresh.
Qed.

Lemma extends_at {A : Type} (m : M H A) (w w' : World H) (r : Error H + A) :
  extends m -> m w = (r, w') -> exists t, trace H w' = trace H w ++ t.
Proof. intros Hm Hw. destruct (Hm w) as [t Ht]. rewrite Hw in Ht. exists t. exact Ht. Qed.

Lemma refreshed_writeFile (uri : Uri) (content : Buffer) (options : bool * bool)
    (w : World H) :
  fst (writeFile H uri content options w) = inr tt ->
  refreshed_after_mutation uri w (writeFile H uri content options w).
Proof.
  destruct (writeFile H uri content options w) as [r w'] eqn:Hop. cbn [fst]. intros ->.
  unfold writeFile in Hop.
  apply bind_inr in Hop as (readonly & w0 & Hget & Hop). injection Hget as <- <-.
  destruct (_readonly H w); [discriminate|].
  apply bind_inr in Hop as ([siteClient entryPath] & w1 & Hparse & Hop).
  destruct (parse_inr _ _ _ _ _ Hparse) as [siteId Hm].
  destruct (extends_at _ _ _ _ (extends_of_tame _ (tame_parseAppServiceUri uri)) Hparse)
    as [t1 Ht1].
  apply bind_inr in Hop as (etags & w2 & Hget & Hop). injection Hget as <- <-.
  apply bind_inr in Hop as (tag & w3 & Hput & Hop).
  apply await_inr in Hput as (remote3 & Hput & ->).
  apply bind_inr in Hop as ([] & w4 & Hset & Hop).
  unfold with_etags in Hset. injection Hset as <-.
  destruct (refresh_parent_inr _ _ _ _ Hop) as (parent & w5 & kuduClient & remote5 & Hl & Hk & Hs).
  exists siteId, entryPath, siteClient. eexists _, t1, _, parent, w5, kuduClient, remote5.
  split; [exact Hm|]. refine (conj _ (conj _ (conj Hl (conj Hk Hs)))).
  2: { cbn [trace]. rewrite Ht1, <- app_assoc. reflexivity. }
  reflexivity.
Qed.

Lemma refreshed_createDirectory (uri : Uri) (w : World H) :
  fst (createDirectory H uri w) = inr tt ->
  refreshed_after_mutation uri w (createDirectory H uri w).
Proof.
  destruct (createDirectory H uri w) as [r w'] eqn:Hop. cbn [fst]. intros ->.
  unfold createDirectory in Hop.
  apply bind_inr in Hop as (readonly & w0 & Hget & Hop). injection Hget as <- <-.
  destruct (_readonly H w); [discriminate|].
  apply bind_inr in Hop as ([siteClient entryPath] & w1 & Hparse & Hop).
  destruct (parse_inr _ _ _ _ _ Hparse) as [siteId Hm].
  destruct (extends_at _ _ _ _ (extends_of_tame _ (tame_parseAppServiceUri uri)) Hparse)
    as [t1 Ht1].
  apply bind_inr in Hop as (tag & w3 & Hput & Hop).
  apply await_inr in Hput as (remote3 & Hput & ->).
  destruct (refresh_parent_inr _ _ _ _ Hop) as (parent & w5 & kuduClient & remote5 & Hl & Hk & Hs).
  exists siteId, entryPath, siteClient. eexists _, t1, _, parent, w5, kuduClient, remote5.
  split; [exact Hm|]. refine (conj _ (conj _ (conj Hl (conj Hk Hs)))).
  2: { cbn [trace]. rewrite Ht1, <- app_assoc. reflexivity. }
  reflexivity.
Qed.

Lemma refreshed_delete (uri : Uri) (recursive : bool) (w : World H) :
  fst (delete H uri recursive w) = inr tt ->
  refreshed_after_mutation uri w (delete H uri recursive w).
Proof.
  destruct (delete H uri recursive w) as [r w'] eqn:Hop. cbn [fst]. intros ->.
  unfold delete in Hop.
  apply bind_inr in Hop as (readonly & w0 & Hget & Hop). injection Hget as <- <-.
  destruct (_readonly H w); [discriminate|].
  apply bind_inr in Hop as ([siteClient entryPath] & w1 & Hparse & Hop).
  destruct (parse_inr _ _ _ _ _ Hparse) as [siteId Hm].
  destruct (extends_at _ _ _ _ (extends_of_tame _ (tame_parseAppServiceUri uri)) Hparse)
    as [t1 Ht1].
  apply bind_inr in Hop as (entry & w2 & Hlookup & Hop).
  destruct (extends_at _ _ _ _ (extends_of_tame _ (tame_lookup siteClient entryPath))
              Hlookup) as [t2 Ht2].
  apply bind_inr in Hop as (store & w2' & Hget & Hop). injection Hget as <- <-.
  apply bind_inr in Hop as (tag & w3 & Htag & Hop).
  assert (Ht3 : exists t3, trace H w3 = trace H w2 ++ t3).
  { destruct (type_of (heap H w2) entry).
    - apply bind_inr in Htag as (result & w3' & Hfile & Hret).
      apply await_inr in Hfile as (remote' & _ & ->).
      unfold ret in Hret. injection Hret as _ <-. eexists. reflexivity.
    - unfold ret in Htag. injection Htag as _ <-. exists []. rewrite app_nil_r. reflexivity. }
  destruct Ht3 as [t3 Ht3].
  apply bind_inr in Hop as (kuduClient0 & w4 & Hkudu & Hop).
  apply await_inr in Hkudu as (remote4 & _ & ->).
  apply bind_inr in Hop as ([] & w5 & Hdel & Hop).
  apply await_inr in Hdel as (remote5 & Hdel & ->).
  destruct (refresh_parent_inr _ _ _ _ Hop) as (parent & w6 & kuduClient & remote6 & Hl & Hk & Hs).
  exists siteId, entryPath, siteClient.
  eexists _, (t1 ++ t2 ++ t3 ++ [called (call_getKuduClient (site_id H siteClient)) true]),
    _, parent, w6, kuduClient, remote6.
  split; [exact Hm|]. refine (conj _ (conj _ (conj Hl (conj Hk Hs)))).
  2: { cbn [trace]. rewrite Ht3, Ht2, Ht1, <- !app_assoc. reflexivity. }
  reflexivity.
Qed.


End Provider.
(** *** On the small remote host *)

Import Demo.



Lemma readonly_fails_before_any_call_witness :
  writeFile host app_js [] (true, true) (world_with_old_tag true)
  = (inl (NoPermissions host "Cannot modify in read-only mode."), world_with_old_tag true)
  /\ delete host app_js false (world_with_old_tag true)
     = (inl (NoPermissions host "Cannot modify in read-only mode."), world_with_old_tag true)
  /\ createDirectory host app_js (world_with_old_tag true)
     = (inl (NoPermissions host "Cannot modify in read-only mode."), world_with_old_tag true).
Proof.
  apply (readonly_fails_before_any_call host (world_with_old_tag true) app_js []
           (true, true) false).
  reflexivity.
Defined.

(** C8, as stated: on a read-only provider [rename] fails with
    [NoPermissions], which is not the error "Method not implemented.". *)
Lemma rename_on_readonly_provider_is_NoPermissions :
  fst (rename host app_js app_js true (world_with_old_tag true))
  = inl (NoPermissions host "Cannot modify in read-only mode.")
  /\ fst (rename host app_js app_js true (world_with_old_tag true))
     <> inl (JsError host "Method not implemented.").
Proof. split; [reflexivity | discriminate]. Qed.

(** C9, as stated: the path ["/not/a/site"] does not match the pattern
    of a site identifier, and [stat] on it fails with [FileNotFound],
    not with [Unavailable]. *)
Lemma malformed_address_is_FileNotFound :
  UriPattern.matches "/not/a/site" = None
  /\ fst (stat host {| uri_path := "/not/a/site" |} (world_with_old_tag false))
     = inl (FileNotFound host (the_uri {| uri_path := "/not/a/site" |}))
  /\ fst (stat host {| uri_path := "/not/a/site" |} (world_with_old_tag false))
     <> inl (Unavailable host (the_uri {| uri_path := "/not/a/site" |})).
Proof. split; [reflexivity|]. split; [reflexivity | discriminate]. Qed.

(** On the small host, a write that carries the current tag goes
    through, and the listing of the parent [site] is fetched and stored
    after it. *)
Example write_with_current_tag_refreshes_parent :
  let w := snd (readFile host app_js (world_with_old_tag false)) in
  let r := writeFile host app_js [] (true, true) w in
  fst r = inr tt
  /\ skipn (List.length (trace host w)) (trace host (snd r))
     = [called (call_findNode siteId) true;
        called (call_putFile siteId "" "site/app.js" (Some "v2")) true;
        called (call_getKuduClient siteId) true;
        called (call_getKuduClient siteId) true;
        called (call_getItem "site") true;
        entries_assigned 1 (Some [("app.js", 2%nat)])].
Proof. split; vm_compute; reflexivity. Qed.

Lemma unresolved_address_fails_witness :
  Forall (fun o => o = Some (FileNotFound host (the_uri {| uri_path := "/not/a/site" |})))
    (resolving (world_with_old_tag false) {| uri_path := "/not/a/site" |} []
       (true, true) false)
  /\ Forall (fun o => o = Some (Unavailable host (the_uri elsewhere)))
       (resolving (world_with_old_tag false) elsewhere [] (true, true) false).
Proof.
  split.
  - apply (unresolved_address_fails host (world_with_old_tag false)
             {| uri_path := "/not/a/site" |} [] (true, true) false).
    reflexivity.
  - apply (unresolved_address_fails host (world_with_old_tag false) elsewhere []
             (true, true) false)
      with (siteId := "/subscriptions/sub/resourceGroups/group/providers/Microsoft.Web/sites/other")
           (entryPath := "site") (remote' := remote0); reflexivity.
Defined.

End FSFacts.


(** ** Sessions of the proxy *)
Module ProxyTraceFacts.
Import Proxy ProxyTrace ProxyFacts.
Local Open Scope eff_scope.
Local Open Scope list_scope.

Lemma omap_map_none {A B C : Type} (f : B -> option C) (g : A -> B) (l : list A) :
  (forall x, f (g x) = None) -> omap f (map g l) = [].
Proof. intros Hg. induction l as [|x l IH]; simpl; [reflexivity|]. rewrite Hg. exact IH. Qed.

Lemma omap_dispose_calls {C : Type} (f : Action -> option C) (p : DebugProxy) :
  (forall c, f (connection_close c) = None) -> (forall k, f (wsclient_abort k) = None) ->
  (forall s, f (server_close s) = None) -> (forall s, f (socket_destroy s) = None) ->
  omap f (dispose_calls p) = [].
Proof.
  intros H1 H2 H3 H4. unfold dispose_calls. rewrite !omap_app, omap_map_none by exact H4.
  destruct (_wsconnection p), (_wsclient p), (_server p); simpl; rewrite ?H1, ?H2, ?H3;
    reflexivity.
Qed.

Lemma session_unfold (host : string) (port : Z) (user password : string) (evs : list Event) :
  session host port user password evs
  = (fst (run evs (started host port user password)),
     [wsclient_connect theWsClient ("wss://" ++ host ++ "/AppServiceTunnel/Tunnel.ashx")%string
        (user ++ ":" ++ password)%string;
      server_listen theServer "localhost" port 1]
     ++ snd (run evs (started host port user password))).
Proof.
  unfold session, started, Proxy.seq at 1.
  unfold startProxy, constructor. handler.
  match goal with |- context [run evs ?w] => destruct (run evs w) as [w2 t2] end.
  reflexivity.
Qed.

(** *** What goes upstream and what comes down *)

Lemma handle_sent (ev : Event) (w : World) :
  sent (snd (handle ev w)) `sublist_of` chunks [ev].
Proof.
  unfold sent, chunks.
  destruct ev; unfold handle;
    try match goal with |- context [(?a <? ?b)%nat] => destruct (a <? b)%nat end;
    handler;
    rewrite ?omap_app, ?omap_dispose_calls, ?omap_map_none by reflexivity;
    simpl; try apply sublist_nil_l; try reflexivity.
  destruct (_wsconnection (this w)); simpl; [reflexivity | apply sublist_nil_l].
Qed.

Lemma run_sent (evs : list Event) (w : World) :
  sent (snd (run evs w)) `sublist_of` chunks evs.
Proof.
  revert w. induction evs as [|ev evs IH]; intros w.
  - simpl. reflexivity.
  - rewrite run_cons. pose proof (handle_sent ev w) as H1.
    destruct (handle ev w) as [w1 t1]. specialize (IH w1).
    destruct (run evs w1) as [w2 t2]. cbn [fst snd] in *.
    replace (chunks (ev :: evs)) with (chunks [ev] ++ chunks evs)
      by (unfold chunks; rewrite <- omap_app; reflexivity).
    unfold sent at 1. rewrite omap_app. apply sublist_app; assumption.
Qed.

(** X1. The messages sent upstream in a session are chunks that arrived
    on the sockets, each sent at most once and in the order of
    arrival: the proxy never makes up, repeats or reorders data. *)
Theorem upstream_carries_received_chunks (host : string) (port : Z) (user password : string)
    (evs : list Event) :
  sent (snd (session host port user password evs)) `sublist_of` chunks evs.
Proof.
  rewrite session_unfold. simpl. apply run_sent.
Qed.

Lemma written_seq (s : Socket) (data : Buffer) (start n : nat) :
  written s (map (fun s' => socket_write s' data) (List.seq start n))
  = if (start <=? s)%nat && (s <? start + n)%nat then [data] else [].
Proof.
  unfold written. revert start. induction n as [|n IH]; intros start; simpl.
  - destruct (Nat.leb_spec start s), (Nat.ltb_spec s (start + 0)); simpl; try reflexivity. lia.
  - rewrite IH.
    destruct (Nat.eqb_spec s start), (Nat.leb_spec (S start) s), (Nat.ltb_spec s (S start + n)),
      (Nat.leb_spec start s), (Nat.ltb_spec s (start + S n)); simpl; try reflexivity; lia.
Qed.

Lemma message_written (s : Socket) (c : WsConnection) (message : IMessage) (w : World) :
  _openSockets (this w) = List.seq 0%nat (sockets w) ->
  written s (snd (write_openSockets (binaryData message) w))
  `sublist_of` payloads [connection_on_message c message].
Proof.
  intros Hopen. unfold payloads, write_openSockets, read.
  change (omap payload_of [connection_on_message c message])
    with (match binaryData message with Some x => [x] | None => [] end).
  destruct (binaryData message) as [data|]; rewrite forEach_call, Hopen; cbn [snd].
  - rewrite written_seq. destruct (_ && _); [reflexivity | apply sublist_nil_l].
  - unfold written. rewrite omap_map_none by reflexivity. apply sublist_nil_l.
Qed.

Lemma handle_written (s : Socket) (ev : Event) (w : World) :
  _openSockets (this w) = List.seq 0%nat (sockets w) ->
  written s (snd (handle ev w)) `sublist_of` payloads [ev].
Proof.
  intros Hopen.
  destruct ev; unfold handle;
    try match goal with |- context [(?a <? ?b)%nat] => destruct (a <? b)%nat end;
    try (unfold guard; apply message_written; exact Hopen);
    handler; unfold written, payloads;
    rewrite ?omap_app, ?omap_dispose_calls, ?omap_map_none by reflexivity;
    simpl; try apply sublist_nil_l; try reflexivity.
  destruct (_wsconnection (this w)); simpl; apply sublist_nil_l.
Qed.

Lemma run_written (s : Socket) (evs : list Event) (w : World) :
  _openSockets (this w) = List.seq 0%nat (sockets w) ->
  written s (snd (run evs w)) `sublist_of` payloads evs.
Proof.
  revert w. induction evs as [|ev evs IH]; intros w Hopen.
  - simpl. reflexivity.
  - rewrite run_cons. pose proof (handle_written s ev w Hopen) as H1.
    pose proof (handle_openSockets ev w Hopen) as Hopen1.
    destruct (handle ev w) as [w1 t1]. specialize (IH w1 Hopen1).
    destruct (run evs w1) as [w2 t2]. cbn [fst snd] in *.
    replace (payloads (ev :: evs)) with (payloads [ev] ++ payloads evs)
      by (unfold payloads; rewrite <- omap_app; reflexivity).
    unfold written at 1. rewrite omap_app. apply sublist_app; assumption.
Qed.

(** X2. What is written to a socket in a session are payloads of messages
    that arrived from upstream, each written at most once and in the
    order of arrival. *)
Theorem socket_gets_received_payloads (host : string) (port : Z) (user password : string)
    (evs : list Event) (s : Socket) :
  written s (snd (session host port user password evs)) `sublist_of` payloads evs.
Proof.
  rewrite session_unfold. cbn [snd]. unfold written. rewrite omap_app. simpl.
  apply run_written. reflexivity.
Qed.

(** *** No reconnection *)

Lemma handle_no_connect (ev : Event) (w : World) :
  count is_connect_or_listen (snd (handle ev w)) = 0%nat.
Proof.
  assert (Hd : forall p, count is_connect_or_listen (dispose_calls p) = 0%nat).
  { intros p. unfold dispose_calls. rewrite !count_app, count_map_none by reflexivity.
    destruct (_wsconnection p), (_wsclient p), (_server p); reflexivity. }
  destruct ev; unfold handle;
    try match goal with |- context [(?a <? ?b)%nat] => destruct (a <? b)%nat end;
    handler; rewrite ?count_app, ?count_map_none, ?Hd by reflexivity; try reflexivity.
  destruct (_wsconnection (this w)); reflexivity.
Qed.

Lemma run_no_connect (evs : list Event) (w : World) :
  count is_connect_or_listen (snd (run evs w)) = 0%nat.
Proof.
  revert w. induction evs as [|ev evs IH]; intros w; [reflexivity|].
  rewrite run_cons. pose proof (handle_no_connect ev w) as H1.
  destruct (handle ev w) as [w1 t1]. specialize (IH w1).
  destruct (run evs w1) as [w2 t2]. cbn [fst snd] in *. rewrite count_app. lia.
Qed.

(** X3. In a session the websocket client connects once and the server
    listens once, both in [startProxy]; whatever happens afterwards, no
    handler connects or listens again. *)
Theorem no_reconnection (host : string) (port : Z) (user password : string)
    (evs : list Event) :
  exists rest,
    snd (session host port user password evs)
    = wsclient_connect theWsClient ("wss://" ++ host ++ "/AppServiceTunnel/Tunnel.ashx")%string
        (user ++ ":" ++ password)%string
      :: server_listen theServer "localhost" port 1 :: rest
    /\ count is_connect_or_listen rest = 0%nat.
Proof.
  rewrite session_unfold. eexists. split; [reflexivity|]. apply run_no_connect.
Qed.

(** *** Tearing down *)

Lemma count_destroy_seq (s : Socket) (start n : nat) :
  count (is_destroy_of s) (map socket_destroy (List.seq start n))
  = if (start <=? s)%nat && (s <? start + n)%nat then 1%nat else 0%nat.
Proof.
  revert start. induction n as [|n IH]; intros start; simpl.
  - destruct (Nat.leb_spec start s), (Nat.ltb_spec s (start + 0)); simpl; try reflexivity. lia.
  - rewrite IH.
    destruct (Nat.eqb_spec s start), (Nat.leb_spec (S start) s), (Nat.ltb_spec s (S start + n)),
      (Nat.leb_spec start s), (Nat.ltb_spec s (start + S n)); simpl; try reflexivity; lia.
Qed.

Lemma session_openSockets (host : string) (port : Z) (user password : string)
    (evs : list Event) :
  _openSockets (this (fst (session host port user password evs)))
  = List.seq 0%nat (sockets (fst (session host port user password evs))).
Proof. rewrite session_unfold. cbn [fst]. apply run_openSockets. reflexivity. Qed.

(** X4. When an event that ends the session is handled (the connection
    closes or fails, the connect fails, a socket ends or fails, or the
    consumer calls [dispose]), the three references are cleared,
    [_keepAlive] is false and [destroy] is called on every socket
    accepted so far. *)
Theorem ending_event_tears_down (host : string) (port : Z) (user password : string)
    (evs : list Event) (ev : Event) :
  let w := fst (session host port user password evs) in
  tears_down ev w = true ->
  cleared (this (fst (handle ev w)))
  /\ _keepAlive (this (fst (handle ev w))) = false
  /\ forall s : Socket,
       (s < sockets w)%nat -> (1 <= count (is_destroy_of s) (snd (handle ev w)))%nat.
Proof.
  intros w Hev.
  pose proof (session_openSockets host port user password evs) as Hopen. fold w in Hopen.
  assert (Hd : forall s, (s < sockets w)%nat ->
                         (1 <= count (is_destroy_of s) (dispose_calls (this w)))%nat).
  { intros s Hs. unfold dispose_calls. rewrite !count_app, Hopen, count_destroy_seq.
    apply Nat.ltb_lt in Hs. simpl. rewrite Hs. lia. }
  destruct ev; simpl in Hev; try discriminate; unfold handle; rewrite ?Hev;
    handler; (split; [repeat split|]; split; [reflexivity|]);
    intros x Hx; specialize (Hd x Hx); rewrite ?count_app; simpl; lia.
Qed.

Lemma ending_event_tears_down_witness :
  let w := fst (session "app.scm.azurewebsites.net" 9229 "user" "secret"
                  [server_on_listening; wsclient_on_connect;
                   server_on_connection; server_on_connection]) in
  cleared (this (fst (handle (socket_on_end 1%nat) w)))
  /\ (1 <= count (is_destroy_of 0%nat) (snd (handle (socket_on_end 1%nat) w)))%nat.
Proof.
  destruct (ending_event_tears_down "app.scm.azurewebsites.net" 9229 "user" "secret"
              [server_on_listening; wsclient_on_connect;
               server_on_connection; server_on_connection]
              (socket_on_end 1%nat) eq_refl) as (Hc & _ & Hd).
  split; [exact Hc | apply Hd; simpl; lia].
Defined.

Lemma no_emit_snoc (t : list Action) :
  count is_emit t = 0%nat ->
  t = [] \/ exists before last, t = before ++ [last] /\ count is_emit before = 0%nat.
Proof.
  intros Ht. destruct t as [|a t]; [left; reflexivity|]. right.
  destruct (exists_last (l := a :: t)) as (before & last & Heq); [discriminate|].
  exists before, last. split; [exact Heq|]. rewrite Heq, count_app in Ht. lia.
Qed.

(** X5. A handler emits at most one event on the proxy, and when it does,
    this is the last thing it does: what the consumer's listener does
    (it calls [dispose]) comes after all the handler's own steps. *)
Theorem emit_comes_last (ev : Event) (w : World) :
  snd (handle ev w) = []
  \/ exists before last,
       snd (handle ev w) = before ++ [last]
       /\ count is_emit before = 0%nat.
Proof.
  assert (Hd : forall p, count is_emit (dispose_calls p) = 0%nat).
  { intros p. unfold dispose_calls. rewrite !count_app, count_map_none by reflexivity.
    destruct (_wsconnection p), (_wsclient p), (_server p); reflexivity. }
  destruct ev; unfold handle;
    try match goal with |- context [(?a <? ?b)%nat] => destruct (a <? b)%nat end;
    handler; auto.
  all: try (right;
            match goal with
            | |- exists before last, ?a :: ?t ++ ?t' ++ [?l] = _ /\ _ =>
                exists (a :: t ++ t'), l
            | |- exists before last, ?a :: ?t ++ [?l] = _ /\ _ =>
                exists (a :: t), l
            | |- exists before last, ?a :: ?t ++ ?b :: [?l] = _ /\ _ =>
                exists (a :: t ++ [b]), l
            | |- exists before last, [?a; ?l] = _ /\ _ => exists [a], l
            | |- exists before last, [?l] = _ /\ _ => exists [], l
            end;
            split; [simpl; rewrite <- ?app_assoc; reflexivity|];
            simpl; rewrite ?count_app, ?count_map_none, ?Hd by reflexivity; reflexivity).
  - apply no_emit_snoc, count_map_none. reflexivity.
  - apply no_emit_snoc, count_map_none. reflexivity.
  - destruct (_wsconnection (this w)); [right; exists [], (connection_send w0 data) | left];
      split; reflexivity.
  - apply no_emit_snoc, Hd.
Qed.

(** X6. [startProxy] on a proxy that was disposed of only emits the error
    'Proxy server is not started.': it makes no websocket client, does
    not connect and does not listen. *)
Theorem startProxy_after_dispose (w : World) :
  startProxy (fst (dispose w))
  = (fst (dispose w), [emit (emit_error "Proxy server is not started.")]).
Proof. rewrite dispose_spec. reflexivity. Qed.

(** *** The liveness probe *)

Lemma handle_keepAlive (ev : Event) (w : World) :
  (_keepAlive (this w) = true <-> _server (this w) <> None) ->
  (_keepAlive (this (fst (handle ev w))) = true <-> _server (this (fst (handle ev w))) <> None).
Proof.
  intros Hw.
  destruct ev; unfold handle;
    try match goal with |- context [(?a <? ?b)%nat] => destruct (a <? b)%nat end;
    handler; try exact Hw; try (split; [discriminate | congruence]).
  destruct (_wsconnection (this w)); exact Hw.
Qed.

Lemma run_keepAlive (evs : list Event) (w : World) :
  (_keepAlive (this w) = true <-> _server (this w) <> None) ->
  (_keepAlive (this (fst (run evs w))) = true <-> _server (this (fst (run evs w))) <> None).
Proof.
  revert w. induction evs as [|ev evs IH]; intros w Hw; [exact Hw|].
  rewrite run_cons. pose proof (handle_keepAlive ev w Hw) as H1.
  destruct (handle ev w) as [w1 t1]. specialize (IH w1 H1).
  destruct (run evs w1) as [w2 t2]. exact IH.
Qed.

Lemma keepAlive_runs_on_timer (replies : list (option string)) :
  keepAlive_runs replies the_timer = [].
Proof. destruct replies; reflexivity. Qed.

(** X7. [keepAlive] called on the proxy, at any point of a session,
    does nothing when the proxy was disposed of, that is when
    [_server] is cleared; otherwise it pings once and arms one timer,
    after 60 s when the ping returned and after 5 s when it threw.
    The run that the timer starts does nothing, whatever the state of
    the proxy, since its [this] is not the proxy: a call of
    [keepAlive] pings the app once and never again. *)
Theorem keepAlive_pings_once (host : string) (port : Z) (user password : string)
    (evs : list Event) (reply : option string) (replies : list (option string)) :
  let p := this (fst (session host port user password evs)) in
  keepAlive reply the_timer = []
  /\ (_server p = None -> keepAlive_runs (reply :: replies) (the_proxy p) = [])
  /\ (_server p <> None ->
      keepAlive reply (the_proxy p)
      = match reply with
        | None => [pingFunctionApp; setTimeout_keepAlive 60000]
        | Some err => [pingFunctionApp; probe_appendLine (line_proxy err);
                       setTimeout_keepAlive 5000]
        end
      /\ keepAlive_runs (reply :: replies) (the_proxy p) = keepAlive reply (the_proxy p)).
Proof.
  intros p.
  assert (Hp : _keepAlive p = true <-> _server p <> None).
  { subst p. rewrite session_unfold. cbn [fst]. apply run_keepAlive.
    split; [discriminate | reflexivity]. }
  split; [reflexivity|]. split.
  - intros Hs. cbn [keepAlive_runs]. unfold keepAlive. cbn [this_keepAlive].
    destruct (_keepAlive p); [|reflexivity].
    exfalso. apply (proj1 Hp eq_refl). exact Hs.
  - intros Hs. cbn [keepAlive_runs]. rewrite keepAlive_runs_on_timer.
    unfold keepAlive. cbn [this_keepAlive]. rewrite (proj2 Hp Hs).
    destruct reply; split; reflexivity.
Qed.

(** On a session that is up, a call with three pings to come: the
    first ping is made and a timer armed, and that is all. *)
Lemma keepAlive_pings_once_witness :
  keepAlive_runs [None; None; None]
    (the_proxy
       (this (fst (session "app.scm.azurewebsites.net" 9229 "user" "secret"
                     [server_on_listening; wsclient_on_connect]))))
  = [pingFunctionApp; setTimeout_keepAlive 60000].
Proof.
  destruct (keepAlive_pings_once "app.scm.azurewebsites.net" 9229 "user" "secret"
              [server_on_listening; wsclient_on_connect] None [None; None])
    as (_ & _ & Hup).
  destruct Hup as [Hrun Hruns]; [discriminate|].
  rewrite Hruns. exact Hrun.
Defined.

End ProxyTraceFacts.


(** ** Runs of a directory: failures and forced refreshes *)
Module RefreshRunsFacts.
Import Kudu Refresh RefreshRuns RefreshFacts.
Local Open Scope nat_scope.
Local Open Scope list_scope.

Section Runs.
Variable Date_parse : string -> Z.
Variable Err : Type.

Lemma owners_none (fs : list Frame) (fr : Frame) :
  owners fs = 0 -> In fr fs -> owner fr = false.
Proof.
  induction fs as [|fr' fs IH]; simpl; [contradiction|].
  intros Ho [->|Hin].
  - destruct (owner fr); [discriminate | reflexivity].
  - apply IH; [destruct (owner fr'); [discriminate | exact Ho] | exact Hin].
Qed.

Lemma In_delete (fs : list Frame) (i : nat) (fr : Frame) :
  In fr (delete i fs) -> In fr fs.
Proof.
  revert i. induction fs as [|fr' fs IH]; intros i Hin; [destruct i; exact Hin|].
  destruct i as [|i]; simpl in *; [right; exact Hin|].
  destruct Hin as [->|Hin]; [left; reflexivity | right; eapply IH, Hin].
Qed.

Lemma step_in_flight (w : World Err) (ev : Event Err) :
  task_has_owner w -> in_flight w -> in_flight (step Date_parse Err w ev).
Proof.
  intros Hown (Hlen & Hpend & Howner).
  assert (Hrefresh : forall c m, in_flight (refreshEntries c m w)).
  { intros c m. unfold in_flight, refreshEntries.
    destruct (_refreshingTask (dir w)) as [task|] eqn:Et; simpl.
    - split; [exact Hlen|]. rewrite Et. split; [intros t Ht; apply Hpend, Ht|].
      intros fr Hin Ho. apply in_app_or in Hin as [Hin|[<-|[]]]; [|discriminate].
      apply Howner; assumption.
    - split; [rewrite !length_app, Hlen; reflexivity|]. split.
      + intros t Ht. destruct (decide (t = List.length (promises w))) as [->|Hne];
          [reflexivity|].
        rewrite lookup_app_l in Ht.
        * specialize (Hpend t Ht). congruence.
        * apply lookup_lt_Some in Ht. rewrite length_app in Ht. simpl in Ht. lia.
      + intros fr Hin Ho. apply in_app_or in Hin as [Hin|[<-|[]]]; [|reflexivity].
        specialize (Howner fr Hin Ho). congruence. }
  destruct ev as [c m|task reply|i]; simpl.
  - unfold invoke. destruct m; try apply Hrefresh;
      (destruct (_entries (dir w)); [|apply Hrefresh]);
      unfold in_flight; simpl; auto.
  - unfold respond. destruct (promises w !! task) as [[| |]|] eqn:Ep;
      try (unfold in_flight; auto; fail).
    unfold in_flight; simpl. split; [rewrite length_insert; exact Hlen|]. split; [|exact Howner].
    intros t Ht. destruct (decide (task = t)) as [->|Hne].
    + apply Hpend, Ep.
    + rewrite list_lookup_insert_ne in Ht by exact Hne. apply Hpend, Ht.
  - unfold resume. destruct (frames w !! i) as [fr|] eqn:Ei; [|unfold in_flight; auto].
    pose proof (owners_delete _ _ _ Ei) as Hd. unfold task_has_owner in Hown.
    assert (Hin : In fr (frames w)) by (apply list_elem_of_In, list_elem_of_lookup; eauto).
    assert (Hsettled :
              forall settled, promises w !! awaits fr = Some settled -> settled <> pending ->
              in_flight
                {| dir := if owner fr
                          then {| dir_entryPath := dir_entryPath (dir w);
                                  _entries := match settled with
                                              | fulfilled result => Some result
                                              | _ => _entries (dir w)
                                              end;
                                  _refreshingTask := None |}
                          else dir w;
                   promises := promises w; listings := listings w;
                   frames := delete i (frames w);
                   results := [] |}).
    { intros settled Hp Hnp. unfold in_flight; simpl. split; [exact Hlen|].
      destruct (owner fr) eqn:Eo; simpl.
      - pose proof (Howner fr Hin Eo) as Ht. split.
        + intros t Hpt. specialize (Hpend t Hpt). rewrite Ht in Hpend.
          injection Hpend as <-. congruence.
        + intros fr' Hin' Ho'. rewrite Ht in Hown. simpl in Hown.
          assert (H0 : owners (delete i (frames w)) = 0) by lia.
          rewrite (owners_none _ _ H0 Hin') in Ho'. discriminate.
      - split; [exact Hpend|]. intros fr' Hin' Ho'. apply Howner; [|exact Ho'].
        eapply In_delete, Hin'. }
    destruct (promises w !! awaits fr) as [[|result|e]|] eqn:Ep;
      try (unfold in_flight; auto; fail).
    + specialize (Hsettled _ eq_refl ltac:(discriminate)).
      unfold in_flight in *; simpl in *. exact Hsettled.
    + specialize (Hsettled _ eq_refl ltac:(discriminate)).
      unfold in_flight in *; simpl in *. destruct (owner fr); exact Hsettled.
Qed.

Lemma run_in_flight (evs : list (Event Err)) (w : World Err) :
  task_has_owner w -> in_flight w -> in_flight (run Date_parse Err evs w).
Proof.
  revert w. induction evs as [|ev evs IH]; intros w Ho Hw; [exact Hw|].
  simpl. apply IH; [apply step_task_has_owner, Ho | apply step_in_flight; assumption].
Qed.

(** X8. Whatever is called and however the replies turn out, also with
    failures and with forced refreshes: each listing request has its
    promise, and two promises are never pending at the same time; the
    one that is pending is the directory's task. *)
Theorem at_most_one_refresh_in_flight (entryPath : string) (evs : list (Event Err)) :
  let w := run Date_parse Err evs (init entryPath) in
  List.length (listings w) = List.length (promises w)
  /\ (forall task, promises w !! task = Some pending ->
                   _refreshingTask (dir w) = Some task)
  /\ (forall task task', promises w !! task = Some pending ->
                         promises w !! task' = Some pending -> task = task').
Proof.
  intros w.
  assert (Hw : in_flight w).
  { subst w. apply run_in_flight; [reflexivity|].
    unfold in_flight; simpl. repeat split; intros; try discriminate; contradiction. }
  destruct Hw as (Hlen & Hpend & _). split; [exact Hlen|]. split; [exact Hpend|].
  intros task task' H1 H2. pose proof (Hpend task H1) as E1. pose proof (Hpend task' H2) as E2.
  congruence.
Qed.

Lemma In_insert_settled (ps : list (Promise Err)) (task : nat) (settled old : Promise Err) :
  ps !! task = Some pending -> old <> pending -> In old ps -> In old (<[task := settled]> ps).
Proof.
  intros Hp Hold Hin. apply list_elem_of_In, list_elem_of_lookup in Hin as [j Hj].
  apply list_elem_of_In, list_elem_of_lookup. exists j.
  destruct (decide (task = j)) as [->|Hne]; [congruence|].
  rewrite list_lookup_insert_ne by exact Hne. exact Hj.
Qed.

Lemma step_from_promises (w : World Err) (ev : Event Err) :
  from_promises w -> from_promises (step Date_parse Err w ev).
Proof.
  intros (He & Hr & Ht).
  assert (Hrefresh : forall c m, from_promises (refreshEntries c m w)).
  { intros c m. unfold from_promises, refreshEntries.
    destruct (_refreshingTask (dir w)); simpl; [auto|].
    split; [intros entries Hen; apply in_or_app; left; apply He, Hen|]. split.
    - intros c' m' v Hin. destruct (Hr c' m' v Hin) as (entries & Hf & ->).
      exists entries. split; [apply in_or_app; left; exact Hf | reflexivity].
    - intros c' m' e Hin. apply in_or_app. left. eapply Ht, Hin. }
  destruct ev as [c m|task reply|i]; simpl.
  - unfold invoke.
    destruct m as [name| |]; try apply Hrefresh;
      (destruct (_entries (dir w)) as [entries|] eqn:Een; [|apply Hrefresh]);
      (unfold from_promises; simpl; rewrite ?Een; split; [exact He|]; split;
       [intros c' m' v Hin; apply in_app_or in Hin as [Hin|[Heq|[]]];
        [eapply Hr, Hin | injection Heq as <- <- <-; exists entries; split;
                          [apply He; reflexivity | reflexivity]]
       |intros c' m' e Hin; apply in_app_or in Hin as [Hin|[Heq|[]]];
        [eapply Ht, Hin | discriminate]]).
  - unfold respond. destruct (promises w !! task) as [[| |]|] eqn:Ep;
      try (unfold from_promises; auto; fail).
    unfold from_promises; simpl.
    split; [intros entries Hen; apply In_insert_settled; [exact Ep | discriminate | apply He, Hen]|].
    split.
    + intros c' m' v Hin. destruct (Hr c' m' v Hin) as (entries & Hf & ->).
      exists entries. split; [|reflexivity].
      apply In_insert_settled; [exact Ep | discriminate | exact Hf].
    + intros c' m' e Hin. apply In_insert_settled; [exact Ep | discriminate | eapply Ht, Hin].
  - unfold resume. destruct (frames w !! i) as [fr|]; [|unfold from_promises; auto].
    destruct (promises w !! awaits fr) as [[|result|e]|] eqn:Ep;
      try (unfold from_promises; auto; fail).
    + assert (Hin : In (fulfilled result) (promises w))
        by (apply list_elem_of_In, list_elem_of_lookup; eauto).
      unfold from_promises; simpl. split; [|split].
      * destruct (owner fr); simpl; [intros entries [= <-]; exact Hin | exact He].
      * intros c' m' v Hin'. apply in_app_or in Hin' as [Hin'|[Heq|[]]];
          [eapply Hr, Hin'|]. injection Heq as <- <- <-. exists result. auto.
      * intros c' m' e Hin'. apply in_app_or in Hin' as [Hin'|[Heq|[]]];
          [eapply Ht, Hin' | discriminate].
    + assert (Hin : In (rejected e) (promises w))
        by (apply list_elem_of_In, list_elem_of_lookup; eauto).
      unfold from_promises; simpl. split; [|split].
      * destruct (owner fr); simpl; exact He.
      * intros c' m' v Hin'. apply in_app_or in Hin' as [Hin'|[Heq|[]]];
          [eapply Hr, Hin' | discriminate].
      * intros c' m' e' Hin'. apply in_app_or in Hin' as [Hin'|[Heq|[]]];
          [eapply Ht, Hin'|]. injection Heq as <- <- <-. exact Hin.
Qed.

(** X9. Whatever is called and however the replies turn out: the entries
    stored in the directory are the result of a refresh that succeeded,
    whole; a caller that returned was given its view of such a result,
    and a caller that failed was given the error of a refresh that
    failed. *)
Theorem entries_come_whole_from_a_refresh (entryPath : string) (evs : list (Event Err)) :
  let w := run Date_parse Err evs (init entryPath) in
  (forall entries, _entries (dir w) = Some entries -> In (fulfilled entries) (promises w))
  /\ (forall c m v, In (c, m, returned v) (results w) ->
                    exists entries, In (fulfilled entries) (promises w)
                                    /\ v = finish m entries)
  /\ (forall c m e, In (c, m, threw e) (results w) -> In (rejected e) (promises w)).
Proof.
  assert (Hgen : forall w0, from_promises w0 -> from_promises (run Date_parse Err evs w0)).
  { induction evs as [|ev evs' IH]; intros w0 Hw0; [exact Hw0|].
    simpl. apply IH, step_from_promises, Hw0. }
  intros w. apply Hgen. unfold from_promises; simpl.
  repeat split; intros; try discriminate; contradiction.
Qed.

Lemma step_stays_populated (w : World Err) (ev : Event Err) :
  is_Some (_entries (dir w)) -> is_Some (_entries (dir (step Date_parse Err w ev))).
Proof.
  intros [entries Hw]. destruct ev as [c m|task reply|i]; simpl.
  - unfold invoke, refreshEntries. rewrite Hw.
    destruct m; destruct (_refreshingTask (dir w)); simpl; rewrite ?Hw; eauto.
  - unfold respond. destruct (promises w !! task) as [[| |]|]; simpl; rewrite Hw; eauto.
  - unfold resume. destruct (frames w !! i) as [fr|]; [|rewrite Hw; eauto].
    destruct (promises w !! awaits fr) as [[| |]|]; try (rewrite Hw; eauto; fail);
      destruct (owner fr); simpl; rewrite ?Hw; eauto.
Qed.

Lemma step_nothing_to_store (w : World Err) (ev : Event Err) :
  is_listing ev = false -> nothing_to_store w ->
  nothing_to_store (step Date_parse Err w ev)
  /\ _entries (dir (step Date_parse Err w ev)) = _entries (dir w).
Proof.
  intros Hev Hw.
  assert (Hgrow : forall fr result,
            In fr (frames w) -> owner fr = true ->
            (promises w ++ [pending]) !! awaits fr <> Some (fulfilled result)).
  { intros fr result Hin Ho Hl. apply lookup_app_Some in Hl as [Hl|[_ Hl]].
    - exact (Hw fr Hin Ho result Hl).
    - apply list_lookup_singleton_Some in Hl as [_ Hl]. discriminate. }
  assert (Hcall : forall c m,
            nothing_to_store (refreshEntries c m w)
            /\ _entries (dir (refreshEntries c m w)) = _entries (dir w)).
  { intros c m. unfold refreshEntries.
    destruct (_refreshingTask (dir w)) as [task|]; (split; [|reflexivity]);
      intros fr Hin Ho result; cbn [frames promises] in *;
      apply in_app_or in Hin as [Hin|[<-|[]]]; cbn [awaits owner] in *;
      try discriminate.
    - apply Hw; assumption.
    - apply Hgrow; assumption.
    - rewrite lookup_app_r by lia. rewrite Nat.sub_diag. discriminate. }
  destruct ev as [c m|task reply|i]; cbn [step].
  - unfold invoke. destruct m; try apply Hcall;
      (destruct (_entries (dir w)) eqn:Ee;
       [split; [exact Hw | exact Ee] | apply Hcall]).
  - destruct reply as [e|fileList]; [|discriminate]. unfold respond.
    destruct (promises w !! task) as [[| |]|] eqn:Et; try (split; [exact Hw | reflexivity]).
    split; [|reflexivity]. intros fr Hin Ho result. cbn [frames promises] in *.
    destruct (decide (task = awaits fr)) as [->|Hne].
    + rewrite list_lookup_insert_eq by (eapply lookup_lt_Some, Et). discriminate.
    + rewrite list_lookup_insert_ne by exact Hne. apply Hw; assumption.
  - unfold resume. destruct (frames w !! i) as [fr|] eqn:Ei; [|split; [exact Hw | reflexivity]].
    assert (Hin : In fr (frames w)) by (apply list_elem_of_In, list_elem_of_lookup; eauto).
    assert (Hrest : forall fr', In fr' (delete i (frames w)) -> In fr' (frames w))
      by (intros fr'; apply In_delete).
    destruct (promises w !! awaits fr) as [[|result|e]|] eqn:Ep;
      try (split; [exact Hw | reflexivity]).
    + destruct (owner fr) eqn:Eo; [destruct (Hw fr Hin Eo result Ep)|].
      split; [|reflexivity]. intros fr' Hin' Ho'. cbn [frames promises] in *.
      apply Hw; [apply Hrest, Hin' | exact Ho'].
    + split; [|destruct (owner fr); reflexivity].
      intros fr' Hin' Ho'. cbn [frames promises] in *.
      apply Hw; [apply Hrest, Hin' | exact Ho'].
Qed.

(** X10. Once a directory has entries it keeps having entries.  As
    long as no listing arrives, they are the same entries: a refresh
    that fails, forced or not, leaves the entries of the last refresh
    that succeeded in place, and readers go on being served from
    them, without a new listing request. *)
Theorem failed_refresh_keeps_entries (evs : list (Event Err)) (w : World Err)
    (entries : Map) :
  _entries (dir w) = Some entries ->
  is_Some (_entries (dir (run Date_parse Err evs w)))
  /\ (nothing_to_store w -> forallb (fun ev => negb (is_listing ev)) evs = true ->
      _entries (dir (run Date_parse Err evs w)) = Some entries
      /\ forall c,
           invoke c m_getEntries (run Date_parse Err evs w)
           = {| dir := dir (run Date_parse Err evs w);
                promises := promises (run Date_parse Err evs w);
                listings := listings (run Date_parse Err evs w);
                frames := frames (run Date_parse Err evs w);
                results := results (run Date_parse Err evs w)
                           ++ [(c, m_getEntries, returned (value_Map entries))] |}).
Proof.
  intros Hw. split.
  - assert (Hsome : is_Some (_entries (dir w))) by (rewrite Hw; eauto).
    clear Hw. revert w Hsome. induction evs as [|ev evs' IH]; intros w Hw; [exact Hw|].
    simpl. apply IH, step_stays_populated, Hw.
  - intros Hn Hevs.
    assert (Hrun : _entries (dir (run Date_parse Err evs w)) = Some entries).
    { revert w Hw Hn. induction evs as [|ev evs' IH]; intros w Hw Hn; [exact Hw|].
      simpl in Hevs. apply andb_prop in Hevs as [Hev Hevs']. apply negb_true_iff in Hev.
      destruct (step_nothing_to_store w ev Hev Hn) as [Hn' He'].
      simpl. apply IH; [exact Hevs' | rewrite He'; exact Hw | exact Hn']. }
    split; [exact Hrun|]. intros c. unfold invoke. rewrite Hrun. reflexivity.
Qed.

(** *** A refresh that fails *)

Lemma run_resumes_rejected (e : Err) (fs : list Frame) (w : World Err) :
  promises w = [rejected e] -> Forall (fun fr => awaits fr = 0) fs ->
  frames w = fs ->
  run Date_parse Err (repeat (ev_resume 0) (List.length fs)) w
  = {| dir := if existsb owner fs
              then {| dir_entryPath := dir_entryPath (dir w);
                      _entries := _entries (dir w);
                      _refreshingTask := None |}
              else dir w;
       promises := promises w; listings := listings w; frames := [];
       results := results w ++ map (fun fr => (caller fr, method fr, threw e)) fs |}.
Proof.
  revert w. induction fs as [|fr fs IH]; intros w Hp Hf Hfs; simpl.
  - rewrite app_nil_r. destruct w; simpl in *; subst; reflexivity.
  - apply Forall_cons in Hf as [Hfr Hf].
    unfold resume at 1. rewrite Hfs. simpl. rewrite Hfr, Hp. simpl.
    rewrite IH by (simpl; auto). simpl. rewrite <- app_assoc. simpl.
    destruct (owner fr); simpl; [|reflexivity].
    destruct (existsb owner fs); reflexivity.
Qed.

(** X11. When the listing request fails, every caller that was waiting for
    it gets the same error, the directory is left without entries and
    without a task, and the next reader starts a new request: a
    failure is not cached. *)
Theorem failure_is_shared_and_not_cached (entryPath : string) (n : nat) (e : Err) :
  let w := run Date_parse Err
             (calls 0 (S n) ++ ev_reply 0 (inl e) :: repeat (ev_resume 0) (S n))
             (init entryPath) in
  results w = map (fun c => (c, m_getEntries, threw e)) (List.seq 0 (S n))
  /\ frames w = []
  /\ _entries (dir w) = None /\ _refreshingTask (dir w) = None
  /\ listings w = [entryPath]
  /\ forall c, listings (invoke c m_getEntries w) = [entryPath; entryPath].
Proof.
  intros w. subst w. rewrite run_events_app.
  change (calls 0 (S n)) with (@ev_call Err 0 m_getEntries :: calls 1 n).
  change (run Date_parse Err (ev_call 0 m_getEntries :: calls 1 n) (init entryPath))
    with (run Date_parse Err (calls 1 n) (invoke 0 m_getEntries (@init Err entryPath))).
  rewrite (run_calls_waiting Date_parse Err n 1 0) by reflexivity.
  set (fs := {| caller := 0; method := m_getEntries; awaits := 0; owner := true |}
             :: map (waiter 0) (List.seq 1 n)).
  assert (Hlen : S n = List.length fs)
    by (subst fs; simpl; rewrite length_map, length_seq; reflexivity).
  replace (repeat (@ev_resume Err 0) (S n))
    with (repeat (@ev_resume Err 0) (List.length fs)) by (rewrite Hlen; reflexivity).
  change (run Date_parse Err (ev_reply 0 (inl e) :: repeat (ev_resume 0) (List.length fs)) ?w)
    with (run Date_parse Err (repeat (ev_resume 0) (List.length fs))
            (respond Date_parse Err 0 (inl e) w)).
  rewrite (run_resumes_rejected e fs).
  - simpl. repeat split. f_equal. rewrite map_map. reflexivity.
  - reflexivity.
  - subst fs. constructor; [reflexivity|].
    apply List.Forall_forall. intros fr Hin. apply in_map_iff in Hin as (c & <- & _).
    reflexivity.
  - reflexivity.
Qed.

End Runs.

(** The directory [site] has its entries; a forced refresh is then
    answered with an error, and the entries are the same. *)
Lemma failed_refresh_keeps_entries_witness :
  _entries
    (dir (run (fun _ => 0%Z) string
            [ev_call 1 m_refreshEntries; ev_reply 1 (inl "503"); ev_resume 0]
            (run (fun _ => 0%Z) string
               [ev_call 0 m_getEntries; ev_reply 0 (inr (Demo.listing "site"));
                ev_resume 0]
               (init "site"))))
  = Some (entries_of (fun _ => 0%Z) (Demo.listing "site")).
Proof.
  destruct (failed_refresh_keeps_entries (fun _ => 0%Z) string
              [ev_call 1 m_refreshEntries; ev_reply 1 (inl "503"); ev_resume 0]
              (run (fun _ => 0%Z) string
                 [ev_call 0 m_getEntries; ev_reply 0 (inr (Demo.listing "site"));
                  ev_resume 0]
                 (init "site"))
              (entries_of (fun _ => 0%Z) (Demo.listing "site")) eq_refl)
    as [_ Hsame].
  apply Hsame; [intros fr [] | reflexivity].
Defined.

End RefreshRunsFacts.


(** ** The entries made from a listing *)
Module ListingFacts.
Import Kudu Refresh Listing.
Local Open Scope list_scope.

Lemma get_set_eq {V : Type} (m : JsMap.t V) (k : string) (v : V) :
  JsMap.get (JsMap.set m k v) k = Some v.
Proof.
  induction m as [|[k' v'] m IH]; simpl.
  - rewrite String.eqb_refl. reflexivity.
  - destruct (String.eqb_spec k k') as [->|Hne]; simpl.
    + rewrite String.eqb_refl. reflexivity.
    + destruct (String.eqb_spec k k'); [contradiction | exact IH].
Qed.

Lemma get_set_ne {V : Type} (m : JsMap.t V) (k n : string) (v : V) :
  k <> n -> JsMap.get (JsMap.set m k v) n = JsMap.get m n.
Proof.
  intros Hne. induction m as [|[k' v'] m IH]; simpl.
  - destruct (String.eqb_spec n k); [congruence | reflexivity].
  - destruct (String.eqb_spec k k') as [->|Hkk']; simpl.
    + destruct (String.eqb_spec n k'); [congruence | reflexivity].
    + destruct (String.eqb_spec n k'); [reflexivity | exact IH].
Qed.

Lemma keys_set {V : Type} (m : JsMap.t V) (k : string) (v : V) :
  keys (JsMap.set m k v) = if decide (k ∈ keys m) then keys m else keys m ++ [k].
Proof.
  unfold keys. induction m as [|[k' v'] m IH].
  - destruct (decide (k ∈ map fst (@nil (string * V)))) as [Hin|_]; [|reflexivity].
    apply elem_of_nil in Hin. contradiction.
  - cbn [JsMap.set]. destruct (String.eqb_spec k k') as [->|Hne].
    + destruct (decide (k' ∈ map fst ((k', v') :: m))) as [_|Hnin]; [reflexivity|].
      exfalso. apply Hnin. apply list_elem_of_here.
    + cbn [map fst]. rewrite IH.
      destruct (decide (k ∈ map fst m)) as [Hin|Hnin];
        destruct (decide (k ∈ k' :: map fst m)) as [Hin'|Hnin']; try reflexivity.
      * exfalso. apply Hnin'. apply list_elem_of_further. exact Hin.
      * apply elem_of_cons in Hin' as [->|Hin']; contradiction.
Qed.

Lemma find_append {A : Type} (p : A -> bool) (l1 l2 : list A) :
  find p (l1 ++ l2) = match find p l1 with Some x => Some x | None => find p l2 end.
Proof. induction l1 as [|a l1 IH]; simpl; [reflexivity|]. destruct (p a); [reflexivity | exact IH]. Qed.

Section Entries.
Variable Date_parse : string -> Z.

Lemma entries_of_fold (fileList : list kuduFile) :
  entries_of Date_parse fileList = fold_left (add Date_parse) fileList [].
Proof. reflexivity. Qed.

Lemma get_fold (fileList : list kuduFile) (acc : Map) (n : string) :
  JsMap.get (fold_left (add Date_parse) fileList acc) n
  = match last_named n fileList with
    | Some file => Some (entry_of Date_parse file)
    | None => JsMap.get acc n
    end.
Proof.
  unfold last_named. revert acc. induction fileList as [|file fileList IH]; intros acc; simpl.
  - reflexivity.
  - rewrite IH, find_append.
    destruct (find (fun f => String.eqb (name f) n) (rev fileList)); [reflexivity|].
    simpl. unfold add. destruct (String.eqb_spec (name file) n) as [<-|Hne].
    + apply get_set_eq.
    + apply get_set_ne. exact Hne.
Qed.

(** X12. [getEntry] finds a name exactly when the listing has a file of
    that name, and then gives the entry made from the last such file:
    a [Directory] when its mime type is [inode/directory], a [File]
    otherwise. *)
Theorem entry_is_made_from_last_file_of_that_name (fileList : list kuduFile) (n : string) :
  JsMap.get (entries_of Date_parse fileList) n
  = match last_named n fileList with
    | Some file =>
        Some (if String.eqb (mime file) "inode/directory"
              then entry_Directory (new_Directory Date_parse file)
              else entry_File (new_File Date_parse file))
    | None => None
    end.
Proof. rewrite entries_of_fold, get_fold. reflexivity. Qed.

Lemma keys_fold (fileList : list kuduFile) (acc : Map) :
  keys (fold_left (add Date_parse) fileList acc) = keys acc ++ firsts (keys acc) (map name fileList).
Proof.
  revert acc. induction fileList as [|file fileList IH]; intros acc; simpl.
  - rewrite app_nil_r. reflexivity.
  - rewrite IH. unfold add at 1 2. rewrite keys_set.
    destruct (decide (name file ∈ keys acc)); [reflexivity|].
    rewrite <- app_assoc. reflexivity.
Qed.

Lemma firsts_spec (l seen : list string) :
  NoDup seen ->
  NoDup (seen ++ firsts seen l)
  /\ forall n, n ∈ seen ++ firsts seen l <-> n ∈ seen \/ n ∈ l.
Proof.
  revert seen. induction l as [|x l IH]; intros seen Hnd; simpl.
  - rewrite app_nil_r. split; [exact Hnd|]. intros n. rewrite elem_of_nil. tauto.
  - destruct (decide (x ∈ seen)) as [Hin|Hnin].
    + destruct (IH seen Hnd) as [H1 H2]. split; [exact H1|].
      intros n. rewrite H2, elem_of_cons. split; [tauto|]. intros [H|[->|H]]; tauto.
    + destruct (IH (seen ++ [x])) as [H1 H2].
      { apply NoDup_app. split; [exact Hnd|]. split; [|apply NoDup_singleton].
        intros y Hy Hy'. apply list_elem_of_singleton in Hy' as ->. contradiction. }
      rewrite <- app_assoc in H1, H2. split; [exact H1|].
      intros n. rewrite H2, elem_of_app, list_elem_of_singleton, elem_of_cons. tauto.
Qed.

(** X13. The map made from a listing holds each listed name once, however
    often the listing repeats it, in the order in which the listing
    first has the names. *)
Theorem listed_names_once_in_order (fileList : list kuduFile) :
  keys (entries_of Date_parse fileList) = firsts [] (map name fileList)
  /\ NoDup (keys (entries_of Date_parse fileList))
  /\ forall n, n ∈ keys (entries_of Date_parse fileList) <-> n ∈ map name fileList.
Proof.
  rewrite entries_of_fold, keys_fold. simpl.
  destruct (firsts_spec (map name fileList) []) as [H1 H2]; [apply NoDup_nil_2|].
  simpl in H1, H2. split; [reflexivity|]. split; [exact H1|].
  intros n. rewrite H2, elem_of_nil. tauto.
Qed.

End Entries.

End ListingFacts.


(** ** The pattern of an address *)
Module AddressFacts.
Import UriPattern Address KuduFacts FS.

Lemma append_assoc (s1 s2 s3 : string) : (s1 ++ s2) ++ s3 = s1 ++ s2 ++ s3.
Proof.
  induction s1 as [|c s1 IH]; [reflexivity|].
  rewrite !append_String, IH. reflexivity.
Qed.

Lemma append_empty_r (s : string) : s ++ "" = s.
Proof. induction s as [|c s IH]; [reflexivity|]. rewrite append_String, IH. reflexivity. Qed.

Lemma literal_app (lit s : string) : literal lit (lit ++ s) = Some s.
Proof.
  induction lit as [|c lit IH]; [reflexivity|].
  rewrite append_String. simpl. rewrite Ascii.eqb_refl. exact IH.
Qed.

Lemma literal_inv (lit s r : string) : literal lit s = Some r -> s = lit ++ r.
Proof.
  revert s. induction lit as [|c lit IH]; intros s Hs; simpl in Hs.
  - injection Hs as ->. reflexivity.
  - destruct s as [|b s]; [discriminate|].
    destruct (Ascii.eqb_spec c b) as [->|]; [|discriminate].
    rewrite append_String, (IH s Hs). reflexivity.
Qed.

Lemma run_of_non_slash_app (seg rest : string) :
  no_slash seg = true -> run_of_non_slash (seg ++ String slash rest) = (seg, String slash rest).
Proof.
  induction seg as [|c seg IH]; intros Hseg.
  - rewrite append_empty. reflexivity.
  - simpl in Hseg. apply andb_prop in Hseg as [Hc Hseg]. apply negb_true_iff in Hc.
    rewrite append_String. simpl. rewrite Hc, (IH Hseg). reflexivity.
Qed.

Lemma run_of_non_slash_inv (s seg rest : string) :
  run_of_non_slash s = (seg, rest) ->
  s = seg ++ rest /\ no_slash seg = true
  /\ (rest = "" \/ exists rest', rest = String slash rest').
Proof.
  revert seg rest. induction s as [|c s IH]; intros seg rest Hs; simpl in Hs.
  - injection Hs as <- <-. repeat split. left. reflexivity.
  - destruct (Ascii.eqb_spec c slash) as [->|Hne].
    + injection Hs as <- <-. repeat split. right. eauto.
    + destruct (run_of_non_slash s) as [seg' rest'] eqn:E. injection Hs as <- <-.
      destruct (IH seg' rest' eq_refl) as (-> & Hseg & Hrest).
      split; [rewrite append_String; reflexivity|]. split; [|exact Hrest].
      simpl. rewrite Hseg. apply Ascii.eqb_neq in Hne. rewrite Hne. reflexivity.
Qed.

Lemma segment_app (seg rest : string) :
  is_segment seg -> segment (seg ++ String slash rest) = Some (seg, String slash rest).
Proof.
  intros [Hne Hseg]. unfold segment. rewrite (run_of_non_slash_app seg rest Hseg).
  destruct seg; [contradiction | reflexivity].
Qed.

Lemma segment_inv (s seg rest : string) :
  segment s = Some (seg, rest) ->
  s = seg ++ rest /\ is_segment seg /\ (rest = "" \/ exists rest', rest = String slash rest').
Proof.
  unfold segment. destruct (run_of_non_slash s) as [seg' rest'] eqn:E.
  destruct seg' as [|c seg']; [discriminate|]. simpl. intros [= <- <-].
  destruct (run_of_non_slash_inv _ _ _ E) as (Hs & Hseg & Hrest).
  split; [exact Hs|]. split; [split; [discriminate | exact Hseg] | exact Hrest].
Qed.

Lemma to_end_of_line_id (s : string) : one_line s = true -> to_end_of_line s = s.
Proof.
  induction s as [|c s IH]; intros Hs; [reflexivity|].
  simpl in *. apply andb_prop in Hs as [Hc Hs]. apply negb_true_iff in Hc.
  rewrite Hc, (IH Hs). reflexivity.
Qed.

Lemma to_end_of_line_inv (s : string) :
  exists post, s = to_end_of_line s ++ post
               /\ one_line (to_end_of_line s) = true /\ ends_line post.
Proof.
  induction s as [|c s (post & Hs & Hline & Hpost)].
  - exists "". repeat split. left. reflexivity.
  - simpl. destruct (is_line_terminator c) eqn:Ec.
    + exists (String c s). rewrite append_empty. repeat split. right. eauto.
    + exists post. rewrite append_String, <- Hs. simpl. rewrite Ec, Hline.
      repeat split. exact Hpost.
Qed.

Lemma matches_here (s : string) (groups : string * string) :
  match_here s = Some groups -> matches s = Some groups.
Proof. intros Hs. destruct s; cbn [matches]; rewrite Hs; reflexivity. Qed.

(** X14. An address made of a site identifier, a slash and a path on one
    line is matched from its first character, and the two groups give
    back the identifier and the path. *)
Theorem well_formed_address_matches (subscription group site path : string) :
  is_segment subscription -> is_segment group -> is_segment site -> one_line path = true ->
  matches (site_identifier subscription group site ++ "/" ++ path)
  = Some (site_identifier subscription group site, path).
Proof.
  intros Hsub Hgroup Hsite Hpath. apply matches_here.
  unfold match_here, site_identifier.
    rewrite !append_assoc, literal_app.
    change "/resourceGroups/" with (String slash "resourceGroups/").
    rewrite append_String, (segment_app _ _ Hsub).
    change (String slash ("resourceGroups/" ++ ?x)) with ("/resourceGroups/" ++ x).
    rewrite literal_app.
    change "/providers/Microsoft.Web/sites/" with (String slash "providers/Microsoft.Web/sites/").
    rewrite append_String, (segment_app _ _ Hgroup).
    change (String slash ("providers/Microsoft.Web/sites/" ++ ?x))
      with ("/providers/Microsoft.Web/sites/" ++ x).
    rewrite literal_app.
    change ("/" ++ path) with (String slash path).
    rewrite (segment_app _ _ Hsite).
    change (String slash path) with ("/" ++ path). rewrite literal_app.
    rewrite (to_end_of_line_id _ Hpath). reflexivity.
Qed.

(** X15. Whenever the pattern matches, the first group is a site identifier
    made of three segments without slash, a slash follows it, and the
    second group is all that follows up to the end of the line. *)
Theorem match_is_a_site_and_a_path (s siteId entryPath : string) :
  matches s = Some (siteId, entryPath) ->
  exists before subscription group site after,
    s = before ++ siteId ++ "/" ++ entryPath ++ after
    /\ siteId = site_identifier subscription group site
    /\ is_segment subscription /\ is_segment group /\ is_segment site
    /\ one_line entryPath = true /\ ends_line after.
Proof.
  assert (Hhere : forall s, match_here s = Some (siteId, entryPath) ->
            exists subscription group site after,
              s = siteId ++ "/" ++ entryPath ++ after
              /\ siteId = site_identifier subscription group site
              /\ is_segment subscription /\ is_segment group /\ is_segment site
              /\ one_line entryPath = true /\ ends_line after).
  { clear s. intros s. unfold match_here.
    destruct (literal "/subscriptions/" s) as [s1|] eqn:E1; [|discriminate].
    destruct (segment s1) as [[subscription s2]|] eqn:E2; [|discriminate].
    destruct (literal "/resourceGroups/" s2) as [s3|] eqn:E3; [|discriminate].
    destruct (segment s3) as [[group s4]|] eqn:E4; [|discriminate].
    destruct (literal "/providers/Microsoft.Web/sites/" s4) as [s5|] eqn:E5; [|discriminate].
    destruct (segment s5) as [[site s6]|] eqn:E6; [|discriminate].
    destruct (literal "/" s6) as [s7|] eqn:E7; [|discriminate].
    intros [= <- <-].
    apply literal_inv in E1, E3, E5, E7.
    apply segment_inv in E2 as (E2 & Hsub & _), E4 as (E4 & Hgroup & _),
                         E6 as (E6 & Hsite & _).
    destruct (to_end_of_line_inv s7) as (after & Hs7 & Hline & Hafter).
    exists subscription, group, site, after.
    split; [|repeat split; try assumption; try apply Hsub; try apply Hgroup; apply Hsite].
    subst s s1 s2 s3 s4 s5 s6. rewrite Hs7 at 1. unfold site_identifier.
    rewrite !append_assoc. reflexivity. }
  induction s as [|c s IH]; cbn [matches]; intros Hs.
  - destruct (match_here "") as [groups|] eqn:E; [|discriminate]. injection Hs as ->.
    destruct (Hhere _ E) as (sub & group & site & after & H1 & H2).
    exists "", sub, group, site, after. rewrite append_empty. split; [exact H1 | exact H2].
  - destruct (match_here (String c s)) as [groups|] eqn:E.
    + injection Hs as ->.
      destruct (Hhere _ E) as (sub & group & site & after & H1 & H2).
      exists "", sub, group, site, after. rewrite append_empty. split; [exact H1 | exact H2].
    + destruct (IH Hs) as (before & sub & group & site & after & H1 & H2).
      exists (String c before), sub, group, site, after.
      split; [rewrite append_String, <- H1; reflexivity | exact H2].
Qed.

Lemma well_formed_address_matches_witness :
  matches (site_identifier "sub" "group" "app" ++ "/" ++ "site/app.js")
  = Some (site_identifier "sub" "group" "app", "site/app.js").
Proof.
  apply (well_formed_address_matches "sub" "group" "app" "site/app.js");
    first [reflexivity | split; [discriminate | reflexivity]].
Defined.

Lemma match_is_a_site_and_a_path_witness :
  exists before subscription group site after,
    uri_path Demo.app_js = before ++ Demo.siteId ++ "/" ++ "site/app.js" ++ after
    /\ Demo.siteId = site_identifier subscription group site
    /\ is_segment subscription /\ is_segment group /\ is_segment site
    /\ one_line "site/app.js" = true /\ ends_line after.
Proof.
  apply (match_is_a_site_and_a_path (uri_path Demo.app_js) Demo.siteId "site/app.js").
  reflexivity.
Defined.

End AddressFacts.


(** ** What the operations of the provider keep *)
Module KeepingFacts.
Import Kudu FS Keeping FSFacts.
Local Open Scope list_scope.

Section Provider.
Variable H : Host.

Lemma same_object_refl (e : Entry) : same_object e e.
Proof. destruct e; reflexivity. Qed.

Lemma same_object_trans (e1 e2 e3 : Entry) :
  same_object e1 e2 -> same_object e2 e3 -> same_object e1 e3.
Proof. destruct e1, e2, e3; simpl; try contradiction; congruence. Qed.

Lemma Persists_refl (w : World H) : Persists w w.
Proof.
  repeat split; auto. intros d e Hd. exists e. split; [exact Hd | apply same_object_refl].
Qed.

Lemma Persists_trans (w1 w2 w3 : World H) :
  Persists w1 w2 -> Persists w2 w3 -> Persists w1 w3.
Proof.
  intros (Hm1 & Hr1 & Ho1) (Hm2 & Hr2 & Ho2). split; [congruence|]. split.
  - intros id r Hid. apply Hr2, Hr1, Hid.
  - intros d e Hd. destruct (Ho1 d e Hd) as (e1 & Hd1 & Hs1).
    destruct (Ho2 d e1 Hd1) as (e2 & Hd2 & Hs2). exists e2.
    split; [exact Hd2 | eapply same_object_trans; eassumption].
Qed.

Lemma Stable_refl (w : World H) : Stable w w.
Proof. split; [apply Persists_refl | reflexivity]. Qed.

Lemma Stable_trans (w1 w2 w3 : World H) : Stable w1 w2 -> Stable w2 w3 -> Stable w1 w3.
Proof.
  intros [Hp1 He1] [Hp2 He2]. split; [eapply Persists_trans; eassumption | congruence].
Qed.

Lemma Stable_but_refl (path : string) (w : World H) : Stable_but path w w.
Proof. split; [apply Persists_refl | reflexivity]. Qed.

Lemma Stable_but_trans (path : string) (w1 w2 w3 : World H) :
  Stable_but path w1 w2 -> Stable_but path w2 w3 -> Stable_but path w1 w3.
Proof.
  intros [Hp1 He1] [Hp2 He2]. split; [eapply Persists_trans; eassumption|].
  intros k Hk. rewrite He2, He1 by exact Hk. reflexivity.
Qed.

Lemma Stable_weaken (path : string) (w w' : World H) : Stable w w' -> Stable_but path w w'.
Proof. intros [Hp He]. split; [exact Hp|]. intros k _. rewrite He. reflexivity. Qed.

Lemma changes_app (t1 t2 : list Effect) : changes (t1 ++ t2) = changes t1 ++ changes t2.
Proof. apply List.filter_app. Qed.

Lemma Reading_refl (w : World H) : Reading w w.
Proof. exists []. rewrite app_nil_r. split; reflexivity. Qed.

Lemma Reading_trans (w1 w2 w3 : World H) : Reading w1 w2 -> Reading w2 w3 -> Reading w1 w3.
Proof.
  intros (t1 & Ht1 & Hq1) (t2 & Ht2 & Hq2). exists (t1 ++ t2).
  split; [rewrite Ht2, Ht1, app_assoc; reflexivity|].
  rewrite changes_app, Hq1, Hq2. reflexivity.
Qed.

(** *** Composition *)

Lemma follows_bind {A B : Type} (R : World H -> World H -> Prop) (m : M H A) (k : A -> M H B) :
  (forall w1 w2 w3, R w1 w2 -> R w2 w3 -> R w1 w3) ->
  follows R m -> (forall a, follows R (k a)) -> follows R (bind H m k).
Proof.
  intros Htrans Hm Hk w. unfold bind. specialize (Hm w).
  destruct (m w) as [[e|a] w1]; simpl in *; [exact Hm|].
  eapply Htrans; [exact Hm | apply Hk].
Qed.

Lemma follows_pure {A : Type} (R : World H -> World H -> Prop) (m : M H A) :
  (forall w, R w w) -> (forall w, snd (m w) = w) -> follows R m.
Proof. intros Hrefl Hm w. rewrite Hm. apply Hrefl. Qed.

(** *** The steps of the operations *)

Lemma stable_ret {A : Type} (a : A) : follows Stable (ret H a).
Proof. apply follows_pure; [apply Stable_refl | reflexivity]. Qed.

Lemma stable_throw {A : Type} (e : Error H) : follows Stable (@throw H A e).
Proof. apply follows_pure; [apply Stable_refl | reflexivity]. Qed.

Lemma stable_get {A : Type} (field : World H -> A) : follows Stable (get H field).
Proof. apply follows_pure; [apply Stable_refl | reflexivity]. Qed.

Lemma stable_same (w w' : World H) :
  _readonly H w' = _readonly H w -> _roots H w' = _roots H w -> heap H w' = heap H w ->
  _etags H w' = _etags H w -> Stable w w'.
Proof.
  intros Hm Hr Hh He. split; [|exact He]. split; [exact Hm|]. split.
  - intros id r. rewrite Hr. auto.
  - intros d e. rewrite Hh. intros Hd. exists e. split; [exact Hd | apply same_object_refl].
Qed.

Lemma stable_await {A : Type} (c : Call) (f : Remote H -> (Failure H + A) * Remote H) :
  follows Stable (await H c f).
Proof.
  intros w. unfold await. destruct (f (remote H w)) as [[e|a] remote'];
    apply stable_same; reflexivity.
Qed.

Lemma stable_record (e : Effect) : follows Stable (record H e).
Proof. intros w. apply stable_same; reflexivity. Qed.

Lemma stable_new (e : Entry) : follows Stable (new H e).
Proof.
  intros w. split; [|reflexivity]. split; [reflexivity|]. split; [auto|].
  intros d e' Hd. exists e'. split; [|apply same_object_refl].
  simpl. apply lookup_app_l_Some. exact Hd.
Qed.

Lemma stable_collect (fileList : list kuduFile) (entries : JsMap.t nat) :
  follows Stable (collect H fileList entries).
Proof.
  revert entries. induction fileList as [|file fileList IH]; intros entries; simpl.
  - apply stable_ret.
  - apply follows_bind; [apply Stable_trans| |intros entry; apply IH].
    destruct (String.eqb (mime file) "inode/directory"); apply stable_new.
Qed.

Lemma stable_actuallyRefreshEntries (kuduClient : KuduClient H) (f : File) :
  follows Stable (actuallyRefreshEntries H kuduClient f).
Proof.
  unfold actuallyRefreshEntries. apply follows_bind; [apply Stable_trans|apply stable_await|].
  intros fileList. apply stable_collect.
Qed.

Lemma stable_refreshEntries (kuduClient : KuduClient H) (d : nat) :
  follows Stable (refreshEntries H kuduClient d).
Proof.
  intros w. unfold refreshEntries, bind at 1, get. simpl.
  destruct (heap H w !! d) as [[f|f before]|] eqn:Ed; try apply Stable_refl.
  unfold bind at 1. pose proof (stable_actuallyRefreshEntries kuduClient f w) as H1.
  destruct (actuallyRefreshEntries H kuduClient f w) as [[e|result] w1]; simpl in *;
    [exact H1|].
  eapply Stable_trans; [exact H1|].
  destruct H1 as [(_ & _ & Ho) _]. destruct (Ho d _ Ed) as (e' & Hd' & Hs).
  destruct e' as [|f' es']; simpl in Hs; [contradiction|]. subst f'.
  unfold bind, with_heap, record, ret. simpl.
  split; [|reflexivity]. split; [reflexivity|]. split; [auto|].
  intros d' e'' Hd''. simpl. destruct (decide (d = d')) as [<-|Hne].
  - rewrite list_lookup_insert_eq by (eapply lookup_lt_Some, Hd').
    eexists. split; [reflexivity|]. rewrite Hd' in Hd''. injection Hd'' as <-. reflexivity.
  - rewrite list_lookup_insert_ne by exact Hne. exists e''.
    split; [exact Hd'' | apply same_object_refl].
Qed.

Lemma stable_getEntry (kuduClient : KuduClient H) (d : nat) (name : string) :
  follows Stable (getEntry H kuduClient d name).
Proof.
  unfold getEntry. apply follows_bind; [apply Stable_trans | apply stable_get|]. intros store.
  apply follows_bind; [apply Stable_trans| |intros entries; apply stable_ret].
  destruct (entries_of_object store d); [apply stable_ret | apply stable_refreshEntries].
Qed.

Lemma stable_getEntries (kuduClient : KuduClient H) (d : nat) :
  follows Stable (getEntries H kuduClient d).
Proof.
  unfold getEntries. apply follows_bind; [apply Stable_trans | apply stable_get|]. intros store.
  apply follows_bind; [apply Stable_trans| |intros entries; apply stable_ret].
  destruct (entries_of_object store d); [apply stable_ret | apply stable_refreshEntries].
Qed.

Lemma stable_walk (kuduClient : KuduClient H) (siteId : string) (parts : list string)
    (entry : nat) :
  follows Stable (walk H kuduClient siteId parts entry).
Proof.
  revert entry. induction parts as [|part parts IH]; intros entry; simpl.
  - apply stable_ret.
  - destruct (JsString.falsy part); [apply IH|].
    apply follows_bind; [apply Stable_trans | apply stable_get|]. intros store.
    apply follows_bind; [apply Stable_trans| |].
    + destruct (instanceof_Directory store entry); [apply stable_getEntry | apply stable_ret].
    + intros [c|]; [apply IH | apply stable_throw].
Qed.

(** The root of a site is made when the site has none, and only then. *)
Lemma stable_lookup (siteClient : SiteClient H) (entryPath : string) :
  follows Stable (lookup H siteClient entryPath).
Proof.
  intros w. unfold lookup, bind at 1.
  pose proof (stable_await (call_getKuduClient (site_id H siteClient))
                (getKuduClient H siteClient) w) as H1.
  destruct (await H (call_getKuduClient (site_id H siteClient))
              (getKuduClient H siteClient) w) as [[e|kuduClient] w1]; simpl in *; [exact H1|].
  eapply Stable_trans; [exact H1|]. unfold bind at 1, get. simpl.
  destruct (_roots H w1 !! site_id H siteClient) as [root|] eqn:Er.
  - unfold bind at 1, ret. apply stable_walk.
  - unfold bind at 1. unfold bind at 1, new. unfold bind at 1, with_roots, ret. simpl.
    eapply Stable_trans; [|apply stable_walk].
    split; [|reflexivity]. split; [reflexivity|]. split.
    + intros id r Hid. simpl.
      destruct (decide (site_id H siteClient = id)) as [<-|Hne]; [congruence|].
      rewrite lookup_insert_ne by exact Hne. exact Hid.
    + intros d e Hd. exists e. split; [|apply same_object_refl].
      simpl. apply lookup_app_l_Some. exact Hd.
Qed.

Lemma stable_parseAppServiceUri (uri : Uri) : follows Stable (parseAppServiceUri H uri).
Proof.
  unfold parseAppServiceUri.
  destruct (UriPattern.matches (uri_path uri)) as [[siteId entryPath]|]; [|apply stable_throw].
  apply follows_bind; [apply Stable_trans | apply stable_await|].
  intros [client|]; [apply stable_ret | apply stable_throw].
Qed.

Lemma stable_refresh_parent (siteClient : SiteClient H) (entryPath : string) :
  follows Stable (refresh_parent H siteClient entryPath).
Proof.
  unfold refresh_parent. apply follows_bind; [apply Stable_trans | apply stable_lookup|].
  intros parent. apply follows_bind; [apply Stable_trans | apply stable_await|].
  intros kuduClient. apply follows_bind; [apply Stable_trans | apply stable_refreshEntries|].
  intros _. apply stable_ret.
Qed.

Lemma stable_stat (uri : Uri) : follows Stable (stat H uri).
Proof.
  unfold stat. apply follows_bind; [apply Stable_trans | apply stable_parseAppServiceUri|].
  intros [siteClient entryPath]. apply stable_lookup.
Qed.

Lemma stable_readDirectory (uri : Uri) : follows Stable (readDirectory H uri).
Proof.
  unfold readDirectory.
  apply follows_bind; [apply Stable_trans | apply stable_parseAppServiceUri|].
  intros [siteClient entryPath].
  apply follows_bind; [apply Stable_trans | apply stable_lookup|]. intros entry.
  apply follows_bind; [apply Stable_trans | apply stable_get|]. intros store.
  destruct (instanceof_Directory store entry); [|apply stable_throw].
  apply follows_bind; [apply Stable_trans | apply stable_await|]. intros kuduClient.
  apply follows_bind; [apply Stable_trans | apply stable_getEntries|]. intros entries.
  apply follows_bind; [apply Stable_trans | apply stable_get|]. intros store'.
  apply stable_ret.
Qed.

Lemma stable_createDirectory (uri : Uri) : follows Stable (createDirectory H uri).
Proof.
  unfold createDirectory. apply follows_bind; [apply Stable_trans | apply stable_get|].
  intros [|]; [apply stable_throw|].
  apply follows_bind; [apply Stable_trans | apply stable_parseAppServiceUri|].
  intros [siteClient entryPath].
  apply follows_bind; [apply Stable_trans | apply stable_await|]. intros _.
  apply stable_refresh_parent.
Qed.

Lemma stable_delete (uri : Uri) (recursive : bool) : follows Stable (delete H uri recursive).
Proof.
  unfold delete. apply follows_bind; [apply Stable_trans | apply stable_get|].
  intros [|]; [apply stable_throw|].
  apply follows_bind; [apply Stable_trans | apply stable_parseAppServiceUri|].
  intros [siteClient entryPath].
  apply follows_bind; [apply Stable_trans | apply stable_lookup|]. intros entry.
  apply follows_bind; [apply Stable_trans | apply stable_get|]. intros store.
  apply follows_bind; [apply Stable_trans| |].
  { destruct (type_of store entry); [|apply stable_ret].
    apply follows_bind; [apply Stable_trans | apply stable_await|]. intros result.
    apply stable_ret. }
  intros etag. apply follows_bind; [apply Stable_trans | apply stable_await|].
  intros kuduClient. apply follows_bind; [apply Stable_trans | apply stable_await|].
  intros _. apply stable_refresh_parent.
Qed.

Lemma stable_rename (oldUri newUri : Uri) (overwrite : bool) :
  follows Stable (rename H oldUri newUri overwrite).
Proof.
  unfold rename. apply follows_bind; [apply Stable_trans | apply stable_get|].
  intros [|]; apply stable_throw.
Qed.

Lemma stable_but_of_stable {A : Type} (path : string) (m : M H A) :
  follows Stable m -> follows (Stable_but path) m.
Proof. intros Hm w. apply Stable_weaken, Hm. Qed.

Lemma stable_but_with_etags (path tag : string) :
  follows (Stable_but path) (with_etags H (fun t => <[path := tag]> t)).
Proof.
  intros w. split; [apply (proj1 (stable_same w _ eq_refl eq_refl eq_refl eq_refl))|].
  intros k Hk. simpl. apply lookup_insert_ne. congruence.
Qed.

Lemma stable_but_readFile (uri : Uri) : follows (Stable_but (uri_path uri)) (readFile H uri).
Proof.
  unfold readFile.
  apply follows_bind; [apply Stable_but_trans
                      | apply stable_but_of_stable, stable_parseAppServiceUri|].
  intros [siteClient entryPath].
  apply follows_bind; [apply Stable_but_trans | apply stable_but_of_stable, stable_await|].
  intros result.
  apply follows_bind; [apply Stable_but_trans | apply stable_but_with_etags|].
  intros _. apply stable_but_of_stable, stable_ret.
Qed.

Lemma stable_but_writeFile (uri : Uri) (content : Buffer) (options : bool * bool) :
  follows (Stable_but (uri_path uri)) (writeFile H uri content options).
Proof.
  unfold writeFile.
  apply follows_bind; [apply Stable_but_trans | apply stable_but_of_stable, stable_get|].
  intros [|]; [apply stable_but_of_stable, stable_throw|].
  apply follows_bind; [apply Stable_but_trans
                      | apply stable_but_of_stable, stable_parseAppServiceUri|].
  intros [siteClient entryPath].
  apply follows_bind; [apply Stable_but_trans | apply stable_but_of_stable, stable_get|].
  intros etags.
  apply follows_bind; [apply Stable_but_trans | apply stable_but_of_stable, stable_await|].
  intros etag.
  apply follows_bind; [apply Stable_but_trans | apply stable_but_with_etags|].
  intros _. apply stable_but_of_stable, stable_refresh_parent.
Qed.

(** X16. No operation changes the mode of the provider or drops a root,
    and no operation removes an object or changes its class or its
    fields: a reference that was good stays good, and the root of a
    site is made once. *)
Theorem roots_and_objects_persist (w : World H) (uri newUri : Uri) (content : Buffer)
    (options : bool * bool) (recursive : bool) :
  Forall (Persists w)
    [snd (stat H uri w); snd (readDirectory H uri w); snd (readFile H uri w);
     snd (writeFile H uri content options w); snd (createDirectory H uri w);
     snd (delete H uri recursive w); snd (rename H uri newUri recursive w)].
Proof.
  repeat apply Forall_cons_2; try apply Forall_nil_2.
  - apply (stable_stat uri w).
  - apply (stable_readDirectory uri w).
  - apply (stable_but_readFile uri w).
  - apply (stable_but_writeFile uri content options w).
  - apply (stable_createDirectory uri w).
  - apply (stable_delete uri recursive w).
  - apply (stable_rename uri newUri recursive w).
Qed.

(** X17. The table of version tags is written by [readFile] and by
    [writeFile] only, and only at the path of their own address: the
    other operations, [delete] among them, leave it as it is. *)
Theorem tags_change_only_at_the_address (w : World H) (uri newUri : Uri) (content : Buffer)
    (options : bool * bool) (recursive : bool) :
  Forall (fun w' => _etags H w' = _etags H w)
    [snd (stat H uri w); snd (readDirectory H uri w); snd (createDirectory H uri w);
     snd (delete H uri recursive w); snd (rename H uri newUri recursive w)]
  /\ Forall (fun w' => forall k, k <> uri_path uri -> _etags H w' !! k = _etags H w !! k)
       [snd (readFile H uri w); snd (writeFile H uri content options w)].
Proof.
  split; repeat apply Forall_cons_2; try apply Forall_nil_2.
  - apply (stable_stat uri w).
  - apply (stable_readDirectory uri w).
  - apply (stable_createDirectory uri w).
  - apply (stable_delete uri recursive w).
  - apply (stable_rename uri newUri recursive w).
  - apply (stable_but_readFile uri w).
  - apply (stable_but_writeFile uri content options w).
Qed.

(** *** Reading *)

Lemma changes_quiet (t : list Effect) : forallb quiet t = true -> changes t = [].
Proof.
  induction t as [|e t IH]; [reflexivity|]. simpl. intros Hq.
  apply andb_prop in Hq as [He Ht]. unfold changes in *. simpl.
  destruct e as [c ok|d [before|]]; simpl in *; try (apply IH, Ht).
  destruct (is_mutation c); [discriminate | apply IH, Ht].
Qed.

Lemma reading_of_tame {A : Type} (m : M H A) : tame m -> follows Reading m.
Proof.
  intros Hm w. destruct (Hm w) as [t (Ht & Hq & _)]. exists t.
  split; [exact Ht | apply changes_quiet, Hq].
Qed.

Lemma reading_same {A : Type} (m : M H A) :
  (forall w, trace H (snd (m w)) = trace H w) -> follows Reading m.
Proof. intros Hm w. exists []. rewrite app_nil_r. split; [apply Hm | reflexivity]. Qed.

Lemma reading_refreshEntries (kuduClient : KuduClient H) (d : nat) :
  follows Reading (refreshEntries H kuduClient d).
Proof.
  unfold refreshEntries.
  apply follows_bind; [apply Reading_trans | apply reading_of_tame, tame_get|].
  intros store. destruct (store !! d) as [[f|f before]|];
    try (apply reading_of_tame, tame_throw).
  apply follows_bind;
    [apply Reading_trans | apply reading_of_tame, tame_actuallyRefreshEntries|].
  intros result.
  apply follows_bind; [apply Reading_trans | apply reading_same; reflexivity|]. intros _.
  apply follows_bind; [apply Reading_trans| |intros _; apply reading_of_tame, tame_ret].
  intros w. exists [entries_assigned d before]. split; reflexivity.
Qed.

Lemma reading_getEntries (kuduClient : KuduClient H) (d : nat) :
  follows Reading (getEntries H kuduClient d).
Proof.
  unfold getEntries.
  apply follows_bind; [apply Reading_trans | apply reading_of_tame, tame_get|].
  intros store.
  apply follows_bind; [apply Reading_trans| |intros entries; apply reading_of_tame, tame_ret].
  destruct (entries_of_object store d);
    [apply reading_of_tame, tame_ret | apply reading_refreshEntries].
Qed.

Lemma reading_refresh_parent (siteClient : SiteClient H) (entryPath : string) :
  follows Reading (refresh_parent H siteClient entryPath).
Proof.
  unfold refresh_parent.
  apply follows_bind; [apply Reading_trans | apply reading_of_tame, tame_lookup|].
  intros parent.
  apply follows_bind;
    [apply Reading_trans | apply reading_of_tame, tame_await; reflexivity|].
  intros kuduClient.
  apply follows_bind; [apply Reading_trans | apply reading_refreshEntries|].
  intros _. apply reading_of_tame, tame_ret.
Qed.

Lemma reading_stat (uri : Uri) : follows Reading (stat H uri).
Proof.
  unfold stat.
  apply follows_bind; [apply Reading_trans | apply reading_of_tame, tame_parseAppServiceUri|].
  intros [siteClient entryPath]. apply reading_of_tame, tame_lookup.
Qed.

Lemma reading_readDirectory (uri : Uri) : follows Reading (readDirectory H uri).
Proof.
  unfold readDirectory.
  apply follows_bind; [apply Reading_trans | apply reading_of_tame, tame_parseAppServiceUri|].
  intros [siteClient entryPath].
  apply follows_bind; [apply Reading_trans | apply reading_of_tame, tame_lookup|].
  intros entry.
  apply follows_bind; [apply Reading_trans | apply reading_of_tame, tame_get|].
  intros store.
  destruct (instanceof_Directory store entry); [|apply reading_of_tame, tame_throw].
  apply follows_bind;
    [apply Reading_trans | apply reading_of_tame, tame_await; reflexivity|].
  intros kuduClient.
  apply follows_bind; [apply Reading_trans | apply reading_getEntries|]. intros entries.
  apply follows_bind; [apply Reading_trans | apply reading_of_tame, tame_get|].
  intros store'. apply reading_of_tame, tame_ret.
Qed.

Lemma reading_readFile (uri : Uri) : follows Reading (readFile H uri).
Proof.
  unfold readFile.
  apply follows_bind; [apply Reading_trans | apply reading_of_tame, tame_parseAppServiceUri|].
  intros [siteClient entryPath].
  apply follows_bind;
    [apply Reading_trans | apply reading_of_tame, tame_await; reflexivity|].
  intros result.
  apply follows_bind; [apply Reading_trans | apply reading_same; reflexivity|].
  intros _. apply reading_of_tame, tame_ret.
Qed.

(** X18. The three operations that read make no call that changes the
    remote host: neither [putFile] nor [deleteItem] is among the calls
    of [stat], [readDirectory] and [readFile], whatever the address
    and whatever the collaborators answer. *)
Theorem reads_never_change_the_host (w : World H) (uri : Uri) :
  Forall (fun w' => exists t, trace H w' = trace H w ++ t
                              /\ forall c ok, In (called c ok) t -> is_mutation c = false)
    [snd (stat H uri w); snd (readDirectory H uri w); snd (readFile H uri w)].
Proof.
  assert (Hr : forall w', Reading w w' ->
               exists t, trace H w' = trace H w ++ t
                         /\ forall c ok, In (called c ok) t -> is_mutation c = false).
  { intros w' (t & Ht & Hc). exists t. split; [exact Ht|]. intros c ok Hin.
    destruct (is_mutation c) eqn:Ec; [|reflexivity].
    assert (Hin' : In (called c ok) (changes t))
      by (apply List.filter_In; split; [exact Hin | exact Ec]).
    rewrite Hc in Hin'. destruct Hin'. }
  repeat apply Forall_cons_2; try apply Forall_nil_2; apply Hr.
  - apply reading_stat.
  - apply reading_readDirectory.
  - apply reading_readFile.
Qed.

(** *** Writing *)

Lemma once_reading_before {A : Type} (P : Call -> Prop) (w w1 : World H)
    (r : (Error H + A) * World H) :
  Reading w w1 -> Once P w1 r -> Once P w r.
Proof.
  intros (t1 & Ht1 & Hc1) (t & Ht & Hcases). exists (t1 ++ t).
  split; [rewrite Ht, Ht1, app_assoc; reflexivity|].
  rewrite changes_app, Hc1. exact Hcases.
Qed.

Lemma once_failed {A : Type} (P : Call -> Prop) (w w1 : World H) (e : Error H) :
  Reading w w1 -> Once P w (@inl (Error H) A e, w1).
Proof.
  intros (t & Ht & Hc). exists t. split; [exact Ht|]. left. split; [exact Hc | discriminate].
Qed.

Lemma once_bind {A B : Type} (P : Call -> Prop) (m : M H A) (k : A -> M H B) (w : World H) :
  follows Reading m ->
  (forall a w1, m w = (inr a, w1) -> Once P w1 (k a w1)) ->
  Once P w (bind H m k w).
Proof.
  intros Hm Hk. unfold bind. specialize (Hm w).
  destruct (m w) as [[e|a] w1] eqn:Em; simpl in Hm.
  - apply once_failed, Hm.
  - eapply once_reading_before; [exact Hm | apply Hk; reflexivity].
Qed.

Lemma once_await {A B : Type} (P : Call -> Prop) (c : Call)
    (f : Remote H -> (Failure H + A) * Remote H) (k : A -> M H B) (w : World H) :
  is_mutation c = true -> P c -> (forall a, follows Reading (k a)) ->
  Once P w (bind H (await H c f) k w).
Proof.
  intros Hc HP Hk. unfold bind, await.
  destruct (f (remote H w)) as [[e|a] remote'].
  - exists [called c false]. split; [reflexivity|]. right. exists c, false.
    unfold changes. simpl. rewrite Hc. split; [reflexivity|]. split; [exact HP|].
    discriminate.
  - match goal with |- Once P w (k a ?w1) => destruct (Hk a w1) as (t & Ht & Hct) end.
    exists (called c true :: t). split.
    + rewrite Ht. simpl. rewrite <- app_assoc. reflexivity.
    + right. exists c, true. unfold changes in *. simpl. rewrite Hc, Hct.
      split; [reflexivity|]. split; [exact HP | discriminate].
Qed.

Lemma parse_returns (uri : Uri) (w w1 : World H) (client : SiteClient H) (entryPath : string) :
  parseAppServiceUri H uri w = (inr (client, entryPath), w1) ->
  (exists siteId, UriPattern.matches (uri_path uri) = Some (siteId, entryPath))
  /\ _etags H w1 = _etags H w.
Proof.
  intros Hp. split.
  - unfold parseAppServiceUri in Hp.
    destruct (UriPattern.matches (uri_path uri)) as [[siteId path]|]; [|discriminate].
    exists siteId. unfold bind in Hp.
    destruct (await H (call_findNode siteId) (findNode H siteId) w) as [[e|[c|]] w2];
      try discriminate.
    unfold ret in Hp. congruence.
  - pose proof (stable_parseAppServiceUri uri w) as [_ He]. rewrite Hp in He. exact He.
Qed.

Lemma endsWith_slash (s : string) : JsString.endsWith (s ++ "/") "/" = true.
Proof.
  unfold JsString.endsWith.
  assert (Hlen : String.length (s ++ "/") = S (String.length s)).
  { induction s as [|a s IH]; [reflexivity|]. rewrite KuduFacts.append_String. simpl.
    rewrite IH. reflexivity. }
  rewrite Hlen. simpl. rewrite Nat.sub_0_r.
  induction s as [|a s IH]; [reflexivity|]. rewrite KuduFacts.append_String. simpl.
  apply IH. rewrite KuduFacts.append_String in Hlen. simpl in Hlen. lia.
Qed.

Lemma once_writeFile (w : World H) (uri : Uri) (content : Buffer) (options : bool * bool) :
  Once (fun c => exists siteId entryPath siteClient,
                   UriPattern.matches (uri_path uri) = Some (siteId, entryPath)
                   /\ c = call_putFile (site_id H siteClient) (content_toString H content)
                          entryPath (_etags H w !! uri_path uri))
    w (writeFile H uri content options w).
Proof.
  unfold writeFile. apply once_bind; [apply reading_of_tame, tame_get|].
  intros readonly w0 Hget. injection Hget as <- <-.
  destruct (_readonly H w); [apply once_failed, Reading_refl|].
  apply once_bind; [apply reading_of_tame, tame_parseAppServiceUri|].
  intros [siteClient entryPath] w1 Hp.
  destruct (parse_returns uri w w1 siteClient entryPath Hp) as [[siteId Hm] He].
  apply once_bind; [apply reading_of_tame, tame_get|].
  intros etags w2 Hget. injection Hget as <- <-.
  apply once_await; [reflexivity| |].
  + exists siteId, entryPath, siteClient. rewrite He. split; [exact Hm | reflexivity].
  + intros tag.
    apply follows_bind; [apply Reading_trans | apply reading_same; reflexivity|].
    intros _. apply reading_refresh_parent.
Qed.

Lemma once_createDirectory (w : World H) (uri : Uri) :
  Once (fun c => exists site target,
                   c = call_putFile site "" target None
                   /\ JsString.endsWith target "/" = true)
    w (createDirectory H uri w).
Proof.
  unfold createDirectory. apply once_bind; [apply reading_of_tame, tame_get|].
  intros readonly w0 Hget. injection Hget as <- <-.
  destruct (_readonly H w); [apply once_failed, Reading_refl|].
  apply once_bind; [apply reading_of_tame, tame_parseAppServiceUri|].
  intros [siteClient entryPath] w1 Hp.
  apply once_await; [reflexivity| |intros _; apply reading_refresh_parent].
  eexists _, _. split; [reflexivity|].
  destruct (JsString.endsWith entryPath "/") eqn:Ee; [exact Ee | apply endsWith_slash].
Qed.

Lemma once_delete (w : World H) (uri : Uri) (recursive : bool) :
  Once (fun c => exists siteId entryPath tag,
                   UriPattern.matches (uri_path uri) = Some (siteId, entryPath)
                   /\ c = call_deleteItem entryPath recursive tag)
    w (delete H uri recursive w).
Proof.
  unfold delete. apply once_bind; [apply reading_of_tame, tame_get|].
  intros readonly w0 Hget. injection Hget as <- <-.
  destruct (_readonly H w); [apply once_failed, Reading_refl|].
  apply once_bind; [apply reading_of_tame, tame_parseAppServiceUri|].
  intros [siteClient entryPath] w1 Hp.
  destruct (parse_returns uri w w1 siteClient entryPath Hp) as [[siteId Hm] He].
  apply once_bind; [apply reading_of_tame, tame_lookup|]. intros entry w2 _.
  apply once_bind; [apply reading_of_tame, tame_get|]. intros store w3 _.
  apply once_bind.
  { destruct (type_of store entry); [|apply reading_of_tame, tame_ret].
    apply follows_bind;
      [apply Reading_trans | apply reading_of_tame, tame_await; reflexivity|].
    intros result. apply reading_of_tame, tame_ret. }
  intros tag w4 _.
  apply once_bind; [apply reading_of_tame, tame_await; reflexivity|].
  intros kuduClient w5 _.
  apply once_await; [reflexivity| |intros _; apply reading_refresh_parent].
  exists siteId, entryPath, tag. split; [exact Hm | reflexivity].
Qed.

(** X19. Each operation that writes makes at most one call that changes
    the remote host, and returns only when that call went through.
    [writeFile] puts the text of the content at the path of the
    address, with the tag the provider holds for the address;
    [createDirectory] puts the empty text, without a tag, at a path
    that ends in a slash; [delete] deletes the path of the address,
    with the [recursive] it was given. *)
Theorem writers_change_the_host_once (w : World H) (uri : Uri) (content : Buffer)
    (options : bool * bool) (recursive : bool) :
  Once (fun c => exists siteId entryPath siteClient,
                   UriPattern.matches (uri_path uri) = Some (siteId, entryPath)
                   /\ c = call_putFile (site_id H siteClient) (content_toString H content)
                          entryPath (_etags H w !! uri_path uri))
    w (writeFile H uri content options w)
  /\ Once (fun c => exists site target,
                      c = call_putFile site "" target None
                      /\ JsString.endsWith target "/" = true)
       w (createDirectory H uri w)
  /\ Once (fun c => exists siteId entryPath tag,
                      UriPattern.matches (uri_path uri) = Some (siteId, entryPath)
                      /\ c = call_deleteItem entryPath recursive tag)
       w (delete H uri recursive w).
Proof.
  split; [apply once_writeFile|]. split; [apply once_createDirectory | apply once_delete].
Qed.

Lemma once_weaken {A : Type} (P Q : Call -> Prop) (w : World H)
    (r : (Error H + A) * World H) :
  (forall c, P c -> Q c) -> Once P w r -> Once Q w r.
Proof.
  intros HPQ (t & Ht & [Hnone|(c & ok & Hc & HP & Hok)]); exists t; (split; [exact Ht|]).
  - left. exact Hnone.
  - right. exists c, ok. split; [exact Hc|]. split; [apply HPQ, HP | exact Hok].
Qed.

(** X20. When [putFile] returned a tag, [writeFile] holds that tag for the
    address from then on, whether the refresh of the parent that
    follows succeeds or fails. *)
Theorem written_tag_is_kept (w : World H) (uri : Uri) (content : Buffer)
    (options : bool * bool) (siteId entryPath : string) (siteClient : SiteClient H)
    (remote1 remote2 : Remote H) (tag : string) :
  _readonly H w = false ->
  UriPattern.matches (uri_path uri) = Some (siteId, entryPath) ->
  findNode H siteId (remote H w) = (inr (Some siteClient), remote1) ->
  putFile H siteClient (content_toString H content) entryPath
    (_etags H w !! uri_path uri) remote1 = (inr tag, remote2) ->
  _etags H (snd (writeFile H uri content options w)) = <[uri_path uri := tag]> (_etags H w).
Proof.
  intros Hro Hm Hf Hput. unfold writeFile, bind at 1, get. simpl. rewrite Hro.
  unfold bind at 1. rewrite (parse_resolved H uri w siteId entryPath siteClient remote1 Hm Hf).
  unfold bind at 1, get. simpl. unfold bind at 1, await. simpl. rewrite Hput.
  unfold bind at 1, with_etags. simpl.
  match goal with
  | |- _etags H (snd (refresh_parent H siteClient entryPath ?w2)) = _ =>
      destruct (stable_refresh_parent siteClient entryPath w2) as [_ He]
  end.
  rewrite He. reflexivity.
Qed.

(** X21. When [readFile] got a file with a tag, it returns the data of the
    file, and a [writeFile] to the same address that follows sends
    that tag with the one call it makes to change the remote host. *)
Theorem read_then_write_sends_the_tag_read (w : World H) (uri : Uri) (content : Buffer)
    (options : bool * bool) (siteId entryPath : string) (siteClient : SiteClient H)
    (remote1 remote2 : Remote H) (result : IFileResult) :
  UriPattern.matches (uri_path uri) = Some (siteId, entryPath) ->
  findNode H siteId (remote H w) = (inr (Some siteClient), remote1) ->
  getFile H siteClient entryPath remote1 = (inr result, remote2) ->
  fst (readFile H uri w) = inr (Buffer_from H (data result))
  /\ Once (fun c => exists site text path,
                      c = call_putFile site text path (Some (etag result)))
       (snd (readFile H uri w))
       (writeFile H uri content options (snd (readFile H uri w))).
Proof.
  intros Hm Hf Hget.
  assert (Hread : readFile H uri w
                  = (inr (Buffer_from H (data result)),
                     {| _readonly := _readonly H w;
                        _etags := <[uri_path uri := etag result]> (_etags H w);
                        _roots := _roots H w; heap := heap H w; remote := remote2;
                        trace := (trace H w ++ [called (call_findNode siteId) true])
                                 ++ [called (call_getFile (site_id H siteClient) entryPath)
                                       true] |})).
  { unfold readFile, bind at 1.
    rewrite (parse_resolved H uri w siteId entryPath siteClient remote1 Hm Hf).
    unfold bind, await, with_etags, ret. simpl. rewrite Hget. reflexivity. }
  rewrite Hread. split; [reflexivity|]. simpl.
  eapply once_weaken; [|apply once_writeFile].
  intros c (siteId' & entryPath' & client' & _ & ->). simpl.
  rewrite lookup_insert_eq. eexists _, _, _. reflexivity.
Qed.

End Provider.
(** *** On the small remote host *)

Import Demo.

Lemma written_tag_is_kept_witness :
  _etags host (snd (writeFile host app_js [] (true, true) world_with_current_tag))
  = <[uri_path app_js := "v2+"]> (_etags host world_with_current_tag).
Proof.
  apply (written_tag_is_kept host world_with_current_tag app_js [] (true, true)
           siteId "site/app.js" siteId remote0 [("site/app.js", "v2+")] "v2+");
    reflexivity.
Defined.

Lemma read_then_write_sends_the_tag_read_witness :
  fst (readFile host app_js (world_with_old_tag false)) = inr (list_byte_of_string "contents")
  /\ Once (fun c => exists site text path, c = call_putFile site text path (Some "v2"))
       (snd (readFile host app_js (world_with_old_tag false)))
       (writeFile host app_js [] (true, true)
          (snd (readFile host app_js (world_with_old_tag false)))).
Proof.
  apply (read_then_write_sends_the_tag_read host (world_with_old_tag false) app_js []
           (true, true) siteId "site/app.js" siteId remote0 remote0
           {| data := "contents"; etag := "v2" |}); reflexivity.
Defined.

End KeepingFacts.


(** ** The objects of the provider *)
Module ObjectsFacts.
Import Kudu FS Objects.
Local Open Scope list_scope.

Lemma In_set {V : Type} (m : JsMap.t V) (k : string) (v : V) (n : string) (c : V) :
  In (n, c) (JsMap.set m k v) -> (n, c) = (k, v) \/ In (n, c) m.
Proof.
  induction m as [|[k' v'] m IH]; simpl.
  - intros [Heq|[]]. left. congruence.
  - destruct (String.eqb k k'); simpl.
    + intros [Heq|Hin]; [left; congruence | right; right; exact Hin].
    + intros [Heq|Hin]; [right; left; exact Heq|].
      destruct (IH Hin) as [Heq|Hin']; [left; exact Heq | right; right; exact Hin'].
Qed.

Lemma get_In {V : Type} (m : JsMap.t V) (k : string) (v : V) :
  JsMap.get m k = Some v -> In (k, v) m.
Proof.
  induction m as [|[k' v'] m IH]; simpl; [discriminate|].
  destruct (String.eqb_spec k k') as [->|Hne].
  - intros Heq. left. congruence.
  - intros Hget. right. apply IH, Hget.
Qed.

Lemma children_stored_app (h extra : list Entry) (es : JsMap.t nat) :
  children_stored h es -> children_stored (h ++ extra) es.
Proof. intros Hc name c Hin. rewrite length_app. specialize (Hc name c Hin). lia. Qed.

Lemma sound_new (roots : gmap string nat) (h : list Entry) (e : Entry) :
  Sound_of roots h -> agrees e -> (forall f es, e <> obj_Directory f (Some es)) ->
  Sound_of roots (h ++ [e]).
Proof.
  intros [Hr Ho] Ha Hn. split.
  - intros id r Hid. destruct (Hr id r Hid) as (f & es & Hl). exists f, es.
    apply lookup_app_l_Some, Hl.
  - intros d e' Hd. apply lookup_app_Some in Hd as [Hd|[_ Hd]].
    + destruct (Ho d e' Hd) as [Hag Hch]. split; [exact Hag|].
      intros f es He. apply children_stored_app. eapply Hch, He.
    + apply list_lookup_singleton_Some in Hd as [_ <-]. split; [exact Ha|].
      intros f es He. destruct (Hn f es He).
Qed.

Lemma sound_insert (roots : gmap string nat) (h : list Entry) (d : nat) (f : File)
    (before : option (JsMap.t nat)) (es : JsMap.t nat) :
  Sound_of roots h -> h !! d = Some (obj_Directory f before) -> children_stored h es ->
  Sound_of roots (<[d := obj_Directory f (Some es)]> h).
Proof.
  intros [Hr Ho] Hd Hes. split.
  - intros id r Hid. destruct (Hr id r Hid) as (f' & es' & Hl).
    destruct (decide (d = r)) as [<-|Hne].
    + exists f, (Some es). apply list_lookup_insert_eq. eapply lookup_lt_Some, Hd.
    + exists f', es'. rewrite list_lookup_insert_ne by exact Hne. exact Hl.
  - intros d' e Hd'. destruct (decide (d = d')) as [<-|Hne].
    + rewrite list_lookup_insert_eq in Hd' by (eapply lookup_lt_Some, Hd).
      injection Hd' as <-. split; [exact (proj1 (Ho d _ Hd))|].
      intros f' es' He. injection He as _ <-.
      intros name c Hin. rewrite length_insert. eapply Hes, Hin.
    + rewrite list_lookup_insert_ne in Hd' by exact Hne.
      destruct (Ho d' e Hd') as [Hag Hch]. split; [exact Hag|].
      intros f' es' He name c Hin. rewrite length_insert. eapply Hch; eassumption.
Qed.

Lemma sound_root (roots : gmap string nat) (h : list Entry) (id : string) (f : File) :
  Sound_of roots h -> f_type f = FileType_Directory ->
  Sound_of (<[id := List.length h]> roots) (h ++ [obj_Directory f None]).
Proof.
  intros Hs Hf.
  destruct (sound_new roots h (obj_Directory f None) Hs Hf) as [Hr Ho]; [discriminate|].
  split; [|exact Ho]. intros id' r Hid.
  destruct (decide (id = id')) as [<-|Hne].
  - rewrite lookup_insert_eq in Hid. injection Hid as <-. exists f, None.
    rewrite lookup_app_r by lia. rewrite Nat.sub_diag. reflexivity.
  - rewrite lookup_insert_ne in Hid by exact Hne. apply (Hr id' r Hid).
Qed.

Section Provider.
Variable H : Host.

Lemma sound_constructor (readonly : bool) (r : Remote H) : Sound (constructor H readonly r).
Proof.
  split.
  - intros id root Hid. simpl in Hid. rewrite lookup_empty in Hid. discriminate.
  - intros d e Hd. simpl in Hd. rewrite lookup_nil in Hd. discriminate.
Qed.

(** *** Composition *)

Lemma triple_bind {A B : Type} (P : list Entry -> Prop) (m : M H A)
    (Q : A -> list Entry -> Prop) (k : A -> M H B) (R : B -> list Entry -> Prop) :
  triple P m Q -> (forall a, triple (Q a) (k a) R) -> triple P (bind H m k) R.
Proof.
  intros Hm Hk w Hs HP. unfold bind. destruct (Hm w Hs HP) as [Hs1 HQ].
  destruct (m w) as [[e|a] w1]; simpl in *.
  - split; [exact Hs1 | discriminate].
  - apply Hk; [exact Hs1 | apply HQ; reflexivity].
Qed.

Lemma triple_weaken {A : Type} (P P' : list Entry -> Prop) (m : M H A)
    (Q Q' : A -> list Entry -> Prop) :
  (forall h, P' h -> P h) -> (forall a h, Q a h -> Q' a h) -> triple P m Q -> triple P' m Q'.
Proof.
  intros HP HQ Hm w Hs HP'. destruct (Hm w Hs (HP _ HP')) as [Hs1 HQ1].
  split; [exact Hs1|]. intros a Ha. apply HQ, HQ1, Ha.
Qed.

Lemma triple_frame {A : Type} (P : list Entry -> Prop) (m : M H A)
    (Q : A -> list Entry -> Prop) :
  triple (fun _ => True) m Q -> triple P m Q.
Proof. apply triple_weaken; auto. Qed.

Lemma triple_any {A : Type} (P : list Entry -> Prop) (m : M H A)
    (Q : A -> list Entry -> Prop) :
  triple (fun _ => True) m Q -> triple P m (fun _ _ => True).
Proof. apply triple_weaken; auto. Qed.

Lemma triple_ret {A : Type} (P : list Entry -> Prop) (a : A) :
  triple P (ret H a) (fun a' h => a' = a /\ P h).
Proof. intros w Hs HP. split; [exact Hs|]. intros a' Ha. simpl in *. split; congruence. Qed.

Lemma triple_throw {A : Type} (P : list Entry -> Prop) (e : Error H)
    (Q : A -> list Entry -> Prop) :
  triple P (throw H e) Q.
Proof. intros w Hs HP. split; [exact Hs | discriminate]. Qed.

Lemma triple_get {A : Type} (P : list Entry -> Prop) (field : World H -> A) :
  triple P (get H field) (fun _ h => P h).
Proof. intros w Hs HP. split; [exact Hs|]. intros a _. exact HP. Qed.

Lemma triple_heap (P : list Entry -> Prop) :
  triple P (get H (heap H)) (fun store h => store = h /\ P h).
Proof.
  intros w Hs HP. split; [exact Hs|]. intros a Ha. simpl in *.
  split; [congruence | exact HP].
Qed.

Lemma triple_await {A : Type} (P : list Entry -> Prop) (c : Call)
    (f : Remote H -> (Failure H + A) * Remote H) :
  triple P (await H c f) (fun _ h => P h).
Proof.
  intros w Hs HP. unfold await. destruct (f (remote H w)) as [[e|a] remote'];
    (split; [exact Hs|]); intros a' _; exact HP.
Qed.

Lemma triple_with_etags (P : list Entry -> Prop)
    (f : gmap string string -> gmap string string) :
  triple P (with_etags H f) (fun _ h => P h).
Proof. intros w Hs HP. split; [exact Hs|]. intros a _. exact HP. Qed.

(** *** The steps of the operations *)

Lemma triple_collect (fileList : list kuduFile) (entries : JsMap.t nat) :
  triple (fun h => children_stored h entries) (collect H fileList entries)
    (fun es h => children_stored h es).
Proof.
  revert entries. induction fileList as [|file fileList IH]; intros entries.
  - simpl. intros w Hs HP. split; [exact Hs|]. intros a Ha. simpl in Ha.
    injection Ha as <-. exact HP.
  - intros w Hs HP. simpl. unfold bind at 1.
    assert (Hnew : forall e, agrees e -> (forall f es, e <> obj_Directory f (Some es)) ->
              let w1 := snd (new H e w) in
              Sound w1 /\ children_stored (heap H w1)
                            (JsMap.set entries (name file) (List.length (heap H w)))).
    { intros e Ha Hn. simpl. split; [apply sound_new; assumption|].
      intros n c Hin. rewrite length_app. simpl.
      apply In_set in Hin as [Heq|Hin]; [injection Heq as _ ->; lia|].
      specialize (HP n c Hin). lia. }
    destruct (String.eqb (mime file) "inode/directory").
    + destruct (Hnew (obj_Directory (new_Directory (Date_parse H) file) None))
        as [Hs1 Hc1]; [reflexivity | discriminate|].
      exact (IH _ _ Hs1 Hc1).
    + destruct (Hnew (obj_File (new_File (Date_parse H) file)))
        as [Hs1 Hc1]; [reflexivity | discriminate|].
      exact (IH _ _ Hs1 Hc1).
Qed.

Lemma triple_actuallyRefreshEntries (kuduClient : KuduClient H) (f : File) :
  triple (fun _ => True) (actuallyRefreshEntries H kuduClient f)
    (fun es h => children_stored h es).
Proof.
  unfold actuallyRefreshEntries.
  eapply triple_bind; [apply triple_await|]. intros fileList.
  eapply triple_weaken; [| |apply triple_collect].
  - intros h _ name c [].
  - auto.
Qed.

Lemma triple_refreshEntries (kuduClient : KuduClient H) (d : nat) :
  triple (fun _ => True) (refreshEntries H kuduClient d) (fun es h => children_stored h es).
Proof.
  intros w Hs _. unfold refreshEntries, bind at 1, get. simpl.
  destruct (heap H w !! d) as [[f|f before]|] eqn:Ed;
    try (split; [exact Hs | intros a Ha; simpl in Ha; discriminate]).
  unfold bind at 1.
  destruct (triple_actuallyRefreshEntries kuduClient f w Hs I) as [Hs1 Hc1].
  destruct (KeepingFacts.stable_actuallyRefreshEntries H kuduClient f w)
    as [(_ & _ & Ho) _].
  destruct (actuallyRefreshEntries H kuduClient f w) as [[e|result] w1]; simpl in *;
    [split; [exact Hs1 | discriminate]|].
  specialize (Hc1 result eq_refl).
  destruct (Ho d _ Ed) as (e' & Hd' & Hsame).
  destruct e' as [|f' es']; simpl in Hsame; [contradiction|]. subst f'.
  unfold bind, with_heap, record, ret. simpl. split.
  - eapply sound_insert; eassumption.
  - intros a Ha. simpl in *. injection Ha as <-. intros name c Hin.
    rewrite length_insert. eapply Hc1, Hin.
Qed.

Lemma triple_entries (kuduClient : KuduClient H) (d : nat) (store : list Entry) :
  triple (fun h => store = h)
    (match entries_of_object store d with
     | Some entries => ret H entries
     | None => refreshEntries H kuduClient d
     end)
    (fun es h => children_stored h es).
Proof.
  destruct (entries_of_object store d) as [entries|] eqn:E.
  - intros w Hs ->. split; [exact Hs|]. intros a Ha. simpl in *. injection Ha as <-.
    unfold entries_of_object in E.
    destruct (heap H w !! d) as [[f|f [es|]]|] eqn:Ed; try discriminate.
    injection E as ->. destruct Hs as [_ Ho]. eapply (proj2 (Ho d _ Ed)). reflexivity.
  - apply triple_frame, triple_refreshEntries.
Qed.

Lemma triple_getEntry (kuduClient : KuduClient H) (d : nat) (name : string) :
  triple (fun _ => True) (getEntry H kuduClient d name)
    (fun o h => forall c, o = Some c -> (c < List.length h)%nat).
Proof.
  unfold getEntry. eapply triple_bind; [apply triple_heap|]. intros store.
  eapply triple_bind.
  - eapply triple_weaken; [| |apply (triple_entries kuduClient d store)].
    + intros h [-> _]. reflexivity.
    + intros a h Ha. exact Ha.
  - intros entries. intros w Hs Hc. split; [exact Hs|]. intros o Ho c ->. simpl in *.
    injection Ho as Hget. eapply Hc, get_In, Hget.
Qed.

Lemma triple_getEntries (kuduClient : KuduClient H) (d : nat) :
  triple (fun _ => True) (getEntries H kuduClient d) (fun es h => children_stored h es).
Proof.
  unfold getEntries. eapply triple_bind; [apply triple_heap|]. intros store.
  eapply triple_bind.
  - eapply triple_weaken; [| |apply (triple_entries kuduClient d store)].
    + intros h [-> _]. reflexivity.
    + intros a h Ha. exact Ha.
  - intros entries. intros w Hs Hc. split; [exact Hs|]. intros o Ho. simpl in *.
    injection Ho as <-. exact Hc.
Qed.

Lemma triple_walk (kuduClient : KuduClient H) (siteId : string) (parts : list string)
    (entry : nat) :
  triple (fun h => (entry < List.length h)%nat) (walk H kuduClient siteId parts entry)
    (fun n h => (n < List.length h)%nat).
Proof.
  revert entry. induction parts as [|part parts IH]; intros entry; simpl.
  - intros w Hs HP. split; [exact Hs|]. intros a Ha. simpl in Ha. injection Ha as <-.
    exact HP.
  - destruct (JsString.falsy part); [apply IH|].
    eapply triple_bind; [apply triple_get|]. intros store.
    eapply triple_bind with (Q := fun o h => forall c, o = Some c -> (c < List.length h)%nat).
    + destruct (instanceof_Directory store entry).
      * apply triple_frame, triple_getEntry.
      * intros w Hs _. split; [exact Hs|]. intros a Ha c ->. discriminate.
    + intros [c|]; [|apply triple_throw].
      eapply triple_weaken; [| |apply IH];
        [intros h Hc; apply Hc; reflexivity | intros n h Hn; exact Hn].
Qed.

Lemma triple_lookup (siteClient : SiteClient H) (entryPath : string) :
  triple (fun _ => True) (lookup H siteClient entryPath) (fun n h => (n < List.length h)%nat).
Proof.
  intros w Hs _. unfold lookup, bind at 1.
  destruct (triple_await (fun _ => True) (call_getKuduClient (site_id H siteClient))
              (getKuduClient H siteClient) w Hs I) as [Hs1 _].
  destruct (await H (call_getKuduClient (site_id H siteClient))
              (getKuduClient H siteClient) w) as [[e|kuduClient] w1]; simpl in *;
    [split; [exact Hs1 | discriminate]|].
  unfold bind at 1, get. simpl.
  destruct (_roots H w1 !! site_id H siteClient) as [root|] eqn:Er.
  - unfold bind at 1, ret. apply triple_walk; [exact Hs1|].
    destruct Hs1 as [Hr _]. destruct (Hr _ _ Er) as (f & es & Hl).
    eapply lookup_lt_Some, Hl.
  - unfold bind at 1. unfold bind at 1, new. unfold bind at 1, with_roots, ret. simpl.
    apply triple_walk.
    + apply sound_root; [exact Hs1 | reflexivity].
    + simpl. rewrite length_app. simpl. lia.
Qed.

Lemma triple_parseAppServiceUri (uri : Uri) :
  triple (fun _ => True) (parseAppServiceUri H uri) (fun _ _ => True).
Proof.
  intros w Hs _. split; [|auto]. unfold parseAppServiceUri.
  destruct (UriPattern.matches (uri_path uri)) as [[siteId entryPath]|]; [|exact Hs].
  unfold bind, await. destruct (findNode H siteId (remote H w)) as [[e|[c|]] remote'];
    exact Hs.
Qed.

Lemma triple_refresh_parent (siteClient : SiteClient H) (entryPath : string) :
  triple (fun _ => True) (refresh_parent H siteClient entryPath) (fun _ _ => True).
Proof.
  unfold refresh_parent. eapply triple_bind; [apply triple_lookup|]. intros parent.
  eapply triple_bind; [apply triple_await|]. intros kuduClient.
  eapply triple_bind; [apply triple_frame, triple_refreshEntries|].
  intros es. intros w Hs _. split; [exact Hs | auto].
Qed.

Lemma sound_of_triple {A : Type} (m : M H A) (Q : A -> list Entry -> Prop) (w : World H) :
  triple (fun _ => True) m Q -> Sound w -> Sound (snd (m w)).
Proof. intros Hm Hs. apply (Hm w Hs I). Qed.

Lemma triple_stat (uri : Uri) :
  triple (fun _ => True) (stat H uri) (fun n h => (n < List.length h)%nat).
Proof.
  unfold stat. eapply triple_bind; [apply triple_parseAppServiceUri|].
  intros [siteClient entryPath].
  apply triple_frame, triple_lookup.
Qed.

Lemma triple_readDirectory (uri : Uri) :
  triple (fun _ => True) (readDirectory H uri)
    (fun listed h => forall name type, In (name, type) listed ->
                       exists c e, h !! c = Some e /\ type = f_type (fields e)).
Proof.
  unfold readDirectory. eapply triple_bind; [apply triple_parseAppServiceUri|].
  intros [siteClient entryPath].
  eapply triple_bind; [apply triple_frame, triple_lookup|].
  intros entry. eapply triple_bind; [apply triple_get|]. intros store.
  destruct (instanceof_Directory store entry); [|apply triple_throw].
  eapply triple_bind; [apply triple_await|]. intros kuduClient.
  eapply triple_bind; [apply triple_frame, triple_getEntries|].
  intros entries. eapply triple_bind; [apply triple_heap|]. intros store'.
  intros w Hs [-> Hc]. split; [exact Hs|]. intros listed Hl name type Hin. simpl in *.
  injection Hl as <-. apply in_map_iff in Hin as ([n c] & Heq & Hin). simpl in Heq.
  injection Heq as <- <-. specialize (Hc n c Hin).
  destruct (lookup_lt_is_Some_2 _ _ Hc) as [e He]. exists c, e. split; [exact He|].
  unfold type_of. rewrite He. reflexivity.
Qed.

Lemma triple_readFile (uri : Uri) :
  triple (fun _ => True) (readFile H uri) (fun _ _ => True).
Proof.
  unfold readFile. eapply triple_bind; [apply triple_parseAppServiceUri|].
  intros [siteClient entryPath].
  eapply triple_bind; [apply triple_await|]. intros result.
  eapply triple_bind; [apply triple_with_etags|]. intros u.
  intros w Hs _. split; [exact Hs | auto].
Qed.

Lemma triple_writeFile (uri : Uri) (content : Buffer) (options : bool * bool) :
  triple (fun _ => True) (writeFile H uri content options) (fun _ _ => True).
Proof.
  unfold writeFile. eapply triple_bind; [apply triple_get|].
  intros [|]; [apply triple_throw|].
  eapply triple_bind; [apply triple_parseAppServiceUri|].
  intros [siteClient entryPath].
  eapply triple_bind; [apply triple_get|]. intros etags.
  eapply triple_bind; [apply triple_await|]. intros tag.
  eapply triple_bind; [apply triple_with_etags|]. intros u.
  apply triple_refresh_parent.
Qed.

Lemma triple_createDirectory (uri : Uri) :
  triple (fun _ => True) (createDirectory H uri) (fun _ _ => True).
Proof.
  unfold createDirectory. eapply triple_bind; [apply triple_get|].
  intros [|]; [apply triple_throw|].
  eapply triple_bind; [apply triple_parseAppServiceUri|].
  intros [siteClient entryPath].
  eapply triple_bind; [apply triple_await|]. intros u.
  apply triple_refresh_parent.
Qed.

Lemma triple_delete (uri : Uri) (recursive : bool) :
  triple (fun _ => True) (delete H uri recursive) (fun _ _ => True).
Proof.
  unfold delete. eapply triple_bind; [apply triple_get|].
  intros [|]; [apply triple_throw|].
  eapply triple_bind; [apply triple_parseAppServiceUri|].
  intros [siteClient entryPath].
  eapply triple_bind; [apply (triple_any _ _ _ (triple_lookup siteClient entryPath))|].
  intros entry. eapply triple_bind; [apply triple_get|]. intros store.
  eapply triple_bind with (Q := fun _ _ => True).
  { destruct (type_of store entry).
    - eapply triple_bind; [apply triple_await|]. intros result.
      intros w Hs _. split; [exact Hs | auto].
    - intros w Hs _. split; [exact Hs | auto]. }
  intros tag. eapply triple_bind; [apply triple_await|]. intros kuduClient.
  eapply triple_bind; [apply triple_await|]. intros u.
  apply triple_refresh_parent.
Qed.

(** X22. From the provider as it is made, every operation leads from a
    sound world to a sound world: the roots are directories of the
    store, the children of a directory are objects of the store, and
    the field [type] of an object is [Directory] exactly when the
    object is of class [Directory], which is what [readDirectory]
    tests where [delete] tests the field. *)
Theorem provider_stays_sound (w : World H) (uri newUri : Uri) (content : Buffer)
    (options : bool * bool) (recursive : bool) :
  Sound w ->
  Forall Sound
    [snd (stat H uri w); snd (readDirectory H uri w); snd (readFile H uri w);
     snd (writeFile H uri content options w); snd (createDirectory H uri w);
     snd (delete H uri recursive w); snd (rename H uri newUri recursive w)].
Proof.
  intros Hs. repeat apply Forall_cons_2; try apply Forall_nil_2.
  - exact (sound_of_triple _ _ w (triple_stat uri) Hs).
  - exact (sound_of_triple _ _ w (triple_readDirectory uri) Hs).
  - exact (sound_of_triple _ _ w (triple_readFile uri) Hs).
  - exact (sound_of_triple _ _ w (triple_writeFile uri content options) Hs).
  - exact (sound_of_triple _ _ w (triple_createDirectory uri) Hs).
  - exact (sound_of_triple _ _ w (triple_delete uri recursive) Hs).
  - unfold rename, bind, get. simpl. destruct (_readonly H w); exact Hs.
Qed.

(** X23. In a sound world, what [stat] returns is an object of the store,
    whose field [type] is [Directory] exactly when it is of class
    [Directory]; and [readDirectory] lists, with each name, the field
    [type] of an object of the store. *)
Theorem stat_returns_a_stored_object (w : World H) (uri : Uri) :
  Sound w ->
  (forall n, fst (stat H uri w) = inr n ->
     exists e, heap H (snd (stat H uri w)) !! n = Some e
               /\ (type_of (heap H (snd (stat H uri w))) n = FileType_Directory
                   <-> instanceof_Directory (heap H (snd (stat H uri w))) n = true))
  /\ (forall listed name type,
        fst (readDirectory H uri w) = inr listed -> In (name, type) listed ->
        exists c e, heap H (snd (readDirectory H uri w)) !! c = Some e
                    /\ type = f_type (fields e)).
Proof.
  intros Hs. split.
  - intros n Hn. destruct (triple_stat uri w Hs I) as [[_ Ho] Hlt].
    specialize (Hlt n Hn). destruct (lookup_lt_is_Some_2 _ _ Hlt) as [e He].
    exists e. split; [exact He|]. unfold type_of, instanceof_Directory. rewrite He.
    destruct (Ho n e He) as [Hag _]. destruct e as [f|f es]; simpl in *; rewrite Hag.
    + split; discriminate.
    + split; reflexivity.
  - intros listed name type Hl Hin.
    destruct (triple_readDirectory uri w Hs I) as [_ Hq]. eapply Hq; eassumption.
Qed.

Lemma split_only_slashes (s : string) :
  only_slashes s = true ->
  Forall (fun part => JsString.falsy part = true) (JsString.split_go UriPattern.slash s []).
Proof.
  induction s as [|c s IH]; simpl.
  - intros _. repeat constructor.
  - intros Hs. apply andb_prop in Hs as [Hc Hs]. rewrite Hc.
    constructor; [reflexivity | apply IH, Hs].
Qed.

Lemma walk_falsy (kuduClient : KuduClient H) (siteId : string) (parts : list string)
    (entry : nat) (w : World H) :
  Forall (fun part => JsString.falsy part = true) parts ->
  walk H kuduClient siteId parts entry w = (inr entry, w).
Proof.
  induction 1 as [|part parts Hp _ IH]; simpl; [reflexivity|]. rewrite Hp. exact IH.
Qed.

(** X24. The root of a site resolves without a listing: for a path that is
    empty or made of slashes, [lookup] calls [getKuduClient] and
    nothing else, and returns the root the provider holds for the
    site; it makes the root, a directory without entries, when it
    holds none, and makes no object otherwise. *)
Theorem root_resolves_without_listing (w : World H) (siteClient : SiteClient H)
    (entryPath : string) (kuduClient : KuduClient H) (remote' : Remote H) :
  only_slashes entryPath = true ->
  getKuduClient H siteClient (remote H w) = (inr kuduClient, remote') ->
  exists root w',
    lookup H siteClient entryPath w = (inr root, w')
    /\ _roots H w' !! site_id H siteClient = Some root
    /\ trace H w' = trace H w ++ [called (call_getKuduClient (site_id H siteClient)) true]
    /\ match _roots H w !! site_id H siteClient with
       | Some known => root = known /\ heap H w' = heap H w
       | None => exists f, heap H w' = heap H w ++ [obj_Directory f None]
                           /\ heap H w' !! root = Some (obj_Directory f None)
       end.
Proof.
  intros Hs Hk. pose proof (split_only_slashes entryPath Hs) as Hparts.
  destruct (_roots H w !! site_id H siteClient) as [root|] eqn:Er.
  - exists root. eexists. split; [|split; [|split]].
    + unfold lookup, bind at 1, await. rewrite Hk. unfold bind at 1, get. simpl.
      rewrite Er. unfold bind at 1, ret. unfold JsString.split.
      rewrite walk_falsy by exact Hparts. reflexivity.
    + exact Er.
    + reflexivity.
    + split; reflexivity.
  - exists (List.length (heap H w)). eexists. split; [|split; [|split]].
    + unfold lookup, bind at 1, await. rewrite Hk. unfold bind at 1, get. simpl.
      rewrite Er. unfold bind at 1. unfold bind at 1, new. unfold bind at 1, with_roots, ret.
      simpl. unfold JsString.split. rewrite walk_falsy by exact Hparts. reflexivity.
    + simpl. apply lookup_insert_eq.
    + reflexivity.
    + simpl. eexists. split; [reflexivity|].
      rewrite lookup_app_r by lia. rewrite Nat.sub_diag. reflexivity.
Qed.


End Provider.

(** *** On the small remote host *)

Import Demo.

Lemma provider_stays_sound_witness :
  Forall Sound
    [snd (stat host app_js (constructor host false remote0));
     snd (readDirectory host app_js (constructor host false remote0));
     snd (readFile host app_js (constructor host false remote0));
     snd (writeFile host app_js [] (true, true) (constructor host false remote0));
     snd (createDirectory host app_js (constructor host false remote0));
     snd (delete host app_js false (constructor host false remote0));
     snd (rename host app_js app_js false (constructor host false remote0))].
Proof.
  apply (provider_stays_sound host (constructor host false remote0) app_js app_js []
           (true, true) false).
  apply sound_constructor.
Defined.

Lemma stat_returns_a_stored_object_witness :
  fst (stat host app_js (constructor host false remote0)) = inr 2%nat
  /\ exists e, heap host (snd (stat host app_js (constructor host false remote0))) !! 2%nat
               = Some e.
Proof.
  split; [reflexivity|].
  destruct (stat_returns_a_stored_object host (constructor host false remote0) app_js
              (sound_constructor host false remote0)) as [Hstat _].
  destruct (Hstat 2%nat eq_refl) as (e & He & _). exists e. exact He.
Defined.

Lemma root_resolves_without_listing_witness :
  exists root w',
    lookup host siteId "/" (constructor host false remote0) = (inr root, w')
    /\ _roots host w' !! siteId = Some root
    /\ trace host w' = [called (call_getKuduClient siteId) true]
    /\ exists f, heap host w' = [obj_Directory f None]
                 /\ heap host w' !! root = Some (obj_Directory f None).
Proof.
  apply (root_resolves_without_listing host (constructor host false remote0) siteId "/"
           siteId remote0); reflexivity.
Defined.

End ObjectsFacts.


(** ** Remote debugging: the application settings *)
Module RemoteDebugFacts.
Import RemoteDebug.
Local Open Scope list_scope.

Section Command.
Variable String_ : Z -> string.
Variable Failure : Type.

Lemma has_port_assigned (debugPort : Z) (p : gmap string string) :
  has_port String_ debugPort
    {| properties := Some (<[APPSVC_TUNNEL_PORT := String_ debugPort]> p) |} = true.
Proof. unfold has_port. simpl. apply bool_decide_eq_true. apply lookup_insert_eq. Qed.

Lemma truthy_need (debugPort : Z) (appSettings : StringDictionary) :
  truthy (needUpdateAppSettings String_ debugPort appSettings) = true ->
  exists p, properties appSettings = Some p /\ has_port String_ debugPort appSettings = false.
Proof.
  unfold needUpdateAppSettings, has_port. destruct (properties appSettings) as [p|];
    simpl; [|discriminate].
  intros Hn. exists p. split; [reflexivity|]. apply negb_true_iff, Hn.
Qed.

(** X29. The two tests say the opposite of each other on settings that
    have properties; on settings that have none, the earlier version
    finds remote debugging not enabled and the later version finds
    nothing to update. *)
Theorem tests_of_the_two_versions (debugPort : Z) (appSettings : StringDictionary) :
  match properties appSettings with
  | Some _ =>
      truthy (needUpdateAppSettings String_ debugPort appSettings)
      = negb (has_port String_ debugPort appSettings)
  | None =>
      has_port String_ debugPort appSettings = false
      /\ truthy (needUpdateAppSettings String_ debugPort appSettings) = false
  end.
Proof.
  unfold needUpdateAppSettings, has_port.
  destruct (properties appSettings) as [p|]; simpl; [reflexivity | split; reflexivity].
Qed.

(** X25. In the later version the promise is always settled: the executor
    does not throw, it calls one of [resolve] and [reject], once, and
    as the last thing it does.  The promise is rejected with the
    empty reason or with what a collaborator threw, never with the
    [TypeError] of an assignment to properties that are undefined. *)
Theorem later_version_settles (debugRemotePort : Z) (r : Replies Failure) :
  fst (use_or_update String_ Failure debugRemotePort r) = inr tt
  /\ (exists before last,
        snd (use_or_update String_ Failure debugRemotePort r) = before ++ [last]
        /\ forallb (fun e => negb (is_settling e)) before = true
        /\ (last = resolve
            \/ last = reject (reason "")
            \/ exists e, last = reject (failure e)
                         /\ (listed r = inl e \/ answer r = inl e \/ updated r = inl e))).
Proof.
  unfold use_or_update, try_catch, needUpdateAppSettings, updateAppSettings, assign_port.
  destruct r as [[e|[[p|]]] again [e'|result] [e''|[]]]; simpl;
  try destruct (bool_decide (p !! APPSVC_TUNNEL_PORT = Some (String_ debugRemotePort)));
  simpl; try destruct result as [[| |]|]; simpl.
  all: split; [reflexivity|].
  all: eexists; eexists; (split; [apply (app_removelast_last resolve); discriminate|]).
  all: simpl; split; [reflexivity|]; auto.
  all: right; right; eexists; split; [reflexivity|]; auto.
Qed.

(** X26. In the earlier version nothing catches what the executor throws.
    Whenever it throws, neither [resolve] nor [reject] was called and
    the promise stays pending; what it throws is what a collaborator
    threw, or the [TypeError] of the assignment when the settings
    listed for the update have no properties.  When the settings
    cannot be listed, the later version rejects the promise with what
    was thrown. *)
Theorem earlier_version_stays_pending (debugRemotePort : Z) (r : Replies Failure)
    (e : Thrown Failure) :
  fst (use_or_update_listing String_ Failure debugRemotePort r) = inl e ->
  settled (snd (use_or_update_listing String_ Failure debugRemotePort r)) = pending
  /\ (e = TypeError /\ listed_again r = inr {| properties := None |}
      \/ exists err, e = failure err
                     /\ (listed r = inl err \/ answer r = inl err
                         \/ listed_again r = inl err \/ updated r = inl err))
  /\ (forall err, listed r = inl err ->
        e = failure err
        /\ settled (snd (use_or_update String_ Failure debugRemotePort r))
           = rejected (failure err)).
Proof.
  unfold use_or_update_listing, isRemoteDebuggingEnabled, updateAppSettings_listing,
    assign_port, has_port, use_or_update, try_catch.
  destruct r as [[err|[[p|]]] [err1|[[p1|]]] [err2|result] [err3|[]]]; simpl;
  try destruct (bool_decide (p !! APPSVC_TUNNEL_PORT = Some (String_ debugRemotePort)));
  simpl; try destruct result as [[| |]|]; simpl; intros He; try discriminate.
  all: injection He as <-.
  all: split; [reflexivity|].
  all: split; [first [left; split; reflexivity | right; eexists; split; [reflexivity|]; auto]|].
  all: intros err' Herr; try discriminate.
  all: injection Herr as <-; split; reflexivity.
Qed.

(** X27. Every answer to the warning other than [learnMore] leads to the
    update: [yes], but also [cancel], and the warning dismissed.  In
    the later version the settings sent are the settings listed with
    the port assigned, nothing else being changed, and on them neither
    test asks for an update; no settings are sent when the answer is
    [learnMore]. *)
Theorem answers_other_than_learnMore_update (debugRemotePort : Z) (r : Replies Failure)
    (appSettings : StringDictionary) (result : option MessageItem) :
  listed r = inr appSettings ->
  truthy (needUpdateAppSettings String_ debugRemotePort appSettings) = true ->
  answer r = inr result ->
  match result with
  | Some learnMore =>
      sent (snd (use_or_update String_ Failure debugRemotePort r)) = []
      /\ settled (snd (use_or_update String_ Failure debugRemotePort r))
         = rejected (reason "")
  | _ =>
      exists p,
        properties appSettings = Some p
        /\ sent (snd (use_or_update String_ Failure debugRemotePort r))
           = [{| properties := Some (<[APPSVC_TUNNEL_PORT := String_ debugRemotePort]> p) |}]
        /\ has_port String_ debugRemotePort
             {| properties := Some (<[APPSVC_TUNNEL_PORT := String_ debugRemotePort]> p) |}
           = true
        /\ truthy (needUpdateAppSettings String_ debugRemotePort
                     {| properties :=
                          Some (<[APPSVC_TUNNEL_PORT := String_ debugRemotePort]> p) |})
           = false
  end.
Proof.
  intros Hl Hn Ha. destruct (truthy_need _ _ Hn) as (p & Hp & _).
  assert (Hsent : result <> Some learnMore ->
            sent (snd (use_or_update String_ Failure debugRemotePort r))
            = [{| properties :=
                    Some (<[APPSVC_TUNNEL_PORT := String_ debugRemotePort]> p) |}]).
  { intros Hr. unfold use_or_update, try_catch. rewrite Hl. simpl. rewrite Hn, Ha. simpl.
    unfold updateAppSettings, assign_port. rewrite Hp.
    destruct result as [[| |]|]; try congruence; destruct (updated r) as [err|[]];
      reflexivity. }
  assert (Hafter : truthy (needUpdateAppSettings String_ debugRemotePort
                     {| properties :=
                          Some (<[APPSVC_TUNNEL_PORT := String_ debugRemotePort]> p) |})
                   = false).
  { unfold needUpdateAppSettings. simpl.
    rewrite bool_decide_eq_true_2 by apply lookup_insert_eq. reflexivity. }
  destruct result as [[| |]|].
  - exists p. split; [exact Hp|]. split; [apply Hsent; discriminate|].
    split; [apply has_port_assigned | exact Hafter].
  - unfold use_or_update, try_catch. rewrite Hl. simpl. rewrite Hn, Ha. simpl.
    split; reflexivity.
  - exists p. split; [exact Hp|]. split; [apply Hsent; discriminate|].
    split; [apply has_port_assigned | exact Hafter].
  - exists p. split; [exact Hp|]. split; [apply Hsent; discriminate|].
    split; [apply has_port_assigned | exact Hafter].
Qed.

(** X28. The earlier version sends the settings it lists again for the
    update, with the port assigned, and these pass its test; it then
    waits for 60 seconds before it resolves the promise. *)
Theorem earlier_version_updates_what_it_lists_again (debugRemotePort : Z)
    (r : Replies Failure) (appSettings : StringDictionary) (result : option MessageItem)
    (p : gmap string string) :
  listed r = inr appSettings ->
  has_port String_ debugRemotePort appSettings = false ->
  answer r = inr result ->
  result <> Some learnMore ->
  listed_again r = inr {| properties := Some p |} ->
  sent (snd (use_or_update_listing String_ Failure debugRemotePort r))
  = [{| properties := Some (<[APPSVC_TUNNEL_PORT := String_ debugRemotePort]> p) |}]
  /\ has_port String_ debugRemotePort
       {| properties := Some (<[APPSVC_TUNNEL_PORT := String_ debugRemotePort]> p) |} = true
  /\ (updated r = inr tt ->
      exists before,
        snd (use_or_update_listing String_ Failure debugRemotePort r)
        = before ++ [delay 60000; resolve]
        /\ settled before = pending).
Proof.
  intros Hl Hh Ha Hr Hagain.
  unfold use_or_update_listing, isRemoteDebuggingEnabled, updateAppSettings_listing,
    assign_port.
  rewrite Hl. simpl. rewrite Hh, Ha. simpl. rewrite Hagain. simpl.
  split; [|split; [apply has_port_assigned|]].
  - destruct result as [[| |]|]; try congruence; destruct (updated r) as [err|[]];
      reflexivity.
  - intros Hu. rewrite Hu.
    exists [listApplicationSettings; showWarningMessage confirmMsg;
            report "Updating application settings to enable remote debugging...";
            appendLine "Updating application settings to enable remote debugging...";
            listApplicationSettings;
            updateApplicationSettings
              {| properties :=
                   Some (<[APPSVC_TUNNEL_PORT := String_ debugRemotePort]> p) |};
            report "Waiting for 60sec to let app reboot...";
            appendLine "Waiting for 60sec to let app reboot..."].
    destruct result as [[| |]|]; try congruence; split; reflexivity.
Qed.

End Command.

(** *** On an app without the port *)

Lemma earlier_version_stays_pending_witness :
  settled (snd (use_or_update_listing decimal string 9229 replies_unlisted)) = pending
  /\ settled (snd (use_or_update decimal string 9229 replies_unlisted))
     = rejected (failure "ETIMEDOUT").
Proof.
  destruct (earlier_version_stays_pending decimal string 9229 replies_unlisted
              (failure "ETIMEDOUT") eq_refl) as (Hpending & _ & Hlisted).
  split; [exact Hpending | apply (Hlisted "ETIMEDOUT" eq_refl)].
Defined.

Lemma answers_other_than_learnMore_update_witness :
  exists p,
    properties settings_without_port = Some p
    /\ sent (snd (use_or_update decimal string 9229 replies_cancel))
       = [{| properties := Some (<[APPSVC_TUNNEL_PORT := "9229"]> p) |}]
    /\ has_port decimal 9229 {| properties := Some (<[APPSVC_TUNNEL_PORT := "9229"]> p) |}
       = true
    /\ truthy (needUpdateAppSettings decimal 9229
                 {| properties := Some (<[APPSVC_TUNNEL_PORT := "9229"]> p) |})
       = false.
Proof.
  apply (answers_other_than_learnMore_update decimal string 9229 replies_cancel
           settings_without_port (Some cancel)); reflexivity.
Defined.

Lemma earlier_version_updates_what_it_lists_again_witness :
  sent (snd (use_or_update_listing decimal string 9229 replies_cancel))
  = [{| properties :=
          Some (<[APPSVC_TUNNEL_PORT := "9229"]>
                  {[ "WEBSITE_NODE_DEFAULT_VERSION" := "8.9.4" ]}) |}].
Proof.
  apply (earlier_version_updates_what_it_lists_again decimal string 9229 replies_cancel
           settings_without_port (Some cancel)
           {[ "WEBSITE_NODE_DEFAULT_VERSION" := "8.9.4" ]});
    first [reflexivity | discriminate].
Defined.

End RemoteDebugFacts.


(** ** The folders of the explorer *)
Module ExplorerFacts.
Import Explorer KuduFacts.
Local Open Scope list_scope.

Lemma includes_spec (s needle : string) :
  includes s needle = true <-> exists pre post, Kudu.occurs_at needle s pre post.
Proof.
  unfold includes, JsString.indexOf.
  destruct (indexOf_from_first needle s 0) as [[Hm Hno]|(pre & post & Hocc & Hi & _)].
  - rewrite Hm. split; [discriminate|]. intros (pre & post & Hocc).
    destruct (Hno pre post Hocc).
  - rewrite Hi. split; [intros _; exists pre, post; exact Hocc|].
    intros _. apply Z.leb_le. lia.
Qed.

Lemma filter_is_made_for (fl : list kuduFile) :
  List.filter is_made_for (map child_of fl) = map child_of fl.
Proof.
  induction fl as [|file fl IH]; [reflexivity|]. simpl.
  unfold child_of at 1. destruct (String.eqb (mime file) "inode/directory"); simpl;
    rewrite IH; reflexivity.
Qed.

(** X30. The children of a folder: one item for each listed file, in the
    order of the listing, but none for a file of type [text/xml] whose
    name contains [LogFiles-kudu-trace_pending.xml]; before them the
    log stream, exactly when the folder is the log folder; after them
    the item that opens the file explorer, exactly when the setting is
    on. *)
Theorem children_of_a_folder (contextValue : string) (enableViewInFileExplorer : bool)
    (fileList : list kuduFile) :
  (forall file,
     In file (filteredList fileList)
     <-> In file fileList
         /\ ~ (mime file = "text/xml"
               /\ exists pre post,
                    Kudu.occurs_at "LogFiles-kudu-trace_pending.xml" (name file) pre post))
  /\ List.filter is_made_for
       (loadMoreChildrenImpl contextValue enableViewInFileExplorer fileList)
     = map child_of (filteredList fileList)
  /\ exists first last,
       loadMoreChildrenImpl contextValue enableViewInFileExplorer fileList
       = first ++ map child_of (filteredList fileList) ++ last
       /\ (first = [new_LogStreamTreeItem] /\ contextValue = "logFolder"
           \/ first = [] /\ contextValue <> "logFolder")
       /\ (last = [new_GenericTreeItem "Open in File Explorer..."
                     "appService.openInFileExplorer" "openInFileExplorer"]
           /\ enableViewInFileExplorer = true
           \/ last = [] /\ enableViewInFileExplorer = false).
Proof.
  split; [|split].
  - intros file. unfold filteredList. rewrite List.filter_In.
    split; intros [Hin Hv]; (split; [exact Hin|]).
    + intros [Hm Hocc].
      apply (proj2 (includes_spec _ _)) in Hocc.
      apply String.eqb_eq in Hm. rewrite Hm, Hocc in Hv. discriminate.
    + destruct (String.eqb_spec (mime file) "text/xml") as [Hm|Hm]; [|reflexivity].
      destruct (includes (name file) "LogFiles-kudu-trace_pending.xml") eqn:Ei;
        [|reflexivity].
      exfalso. apply Hv. split; [exact Hm|]. apply includes_spec, Ei.
  - unfold loadMoreChildrenImpl.
    destruct (String.eqb contextValue "logFolder"), enableViewInFileExplorer; simpl;
      rewrite ?List.filter_app, filter_is_made_for; simpl; rewrite ?app_nil_r;
      reflexivity.
  - unfold loadMoreChildrenImpl.
    destruct (String.eqb_spec contextValue "logFolder") as [Hc|Hc];
      destruct enableViewInFileExplorer.
    + eexists [_], [_]. split; [reflexivity|]. split; [left | left]; split; reflexivity || exact Hc.
    + exists [new_LogStreamTreeItem], []. rewrite app_nil_r.
      split; [reflexivity|]. split; [left | right]; split; reflexivity || exact Hc.
    + eexists [], [_]. split; [reflexivity|]. split; [right | left]; split; reflexivity || exact Hc.
    + exists [], []. rewrite app_nil_r.
      split; [reflexivity|]. split; [right | right]; split; reflexivity || exact Hc.
Qed.

End ExplorerFacts.
